(** * llm-orchestra: the request orchestration core

    A shallow embedding of the failover/retry router
    ([src/routing/router.ts]), of the model resolver
    ([src/providers/index.ts]) and of the span tracer
    ([src/tracing/tracer.ts]), followed by the properties the
    specification states about them.

    Conventions of the embedding:
    - JavaScript numbers are finite and exact: clock readings, timeouts,
      token counts and HTTP statuses are integers of [Z]; the retry
      settings, sampling rates and random draws are rationals of [Q],
      whose arithmetic is exact (the doubles of the source agree with it
      wherever their operations do not round, as on the integers and
      halves of the repository's own settings).  Sums of counters, which
      the source keeps in doubles, are rounded as doubles are.
    - A promise is modelled by the way it settles; [await] is the
      sequencing of the state-passing functions below.
    - Everything the router cannot decide by itself (the adapters, the
      clock, the timers) lives in an abstract [World] that is threaded
      through every call.
    - Objects that are shared by reference (a span's data, which the
      tracer stores without copying) live in an explicit store. *)

From Stdlib Require Import ZArith QArith Qround Qminmax String List DecimalString Lia.
From stdpp Require Import gmap strings list.

Open Scope Z_scope.

(** ** JavaScript values *)

(** The primitive values found in the fields the router inspects
    ([error.code], [error.status], ...) and in span attributes
    ([Record<string, unknown>]).  [JsNumber n] is the integer [n], of
    magnitude below [10^21]; every other number (a fraction, a larger
    magnitude, [NaN], an infinity) is a [JsOtherNumber], given by the
    string [String(x)] prints for it (["503.5"], ["1e+21"], ["NaN"]),
    which is all the router reads of a number. *)
Inductive JsValue :=
| JsUndefined
| JsNull
| JsString (s : string)
| JsNumber (n : Z)
| JsOtherNumber (printed : string)
| JsBool (b : bool).

Global Instance JsValue_eq_dec : EqDecision JsValue.
Proof. solve_decision. Defined.

(** [Number.prototype.toString] on an integer of magnitude below
    [10^21]: decimal digits with a leading minus sign for negative
    numbers.  (From [10^21] on the source prints an exponent; such
    numbers are [JsOtherNumber]s.) *)
Definition numberToString (n : Z) : string :=
  NilZero.string_of_int (Z.to_int n).

(** The integers [numberToString] prints as the source does. *)
Definition plainInteger (n : Z) : Prop := Z.abs n < 10 ^ 21.

(** A value that is no integer out of that range. *)
Definition plainValue (v : JsValue) : Prop :=
  match v with
  | JsNumber n => plainInteger n
  | _ => True
  end.

(** [String(v)]. *)
Definition JsString_of (v : JsValue) : string :=
  match v with
  | JsUndefined => "undefined"
  | JsNull => "null"
  | JsString s => s
  | JsNumber n => numberToString n
  | JsOtherNumber printed => printed
  | JsBool true => "true"
  | JsBool false => "false"
  end.

(** [a ?? b]: [b] when [a] is [null] or [undefined]. *)
Definition nullish (a b : JsValue) : JsValue :=
  match a with
  | JsUndefined | JsNull => b
  | _ => a
  end.

(** The condition [if (v)]: [undefined], [null], the empty string, [0],
    [NaN] and [false] are falsy. *)
Definition truthy (v : JsValue) : bool :=
  match v with
  | JsUndefined | JsNull => false
  | JsString s => negb (String.eqb s EmptyString)
  | JsNumber n => negb (n =? 0)
  | JsOtherNumber printed => negb (String.eqb printed "NaN")
  | JsBool b => b
  end.

(** An integer as the nearest double holds it: itself when it has at
    most 53 significant bits, and otherwise rounded to 53 bits, a tie
    going to the even neighbour (magnitudes below [2^1024]). *)
Definition roundToDouble (z : Z) : Z :=
  let a := Z.abs z in
  let bits := Z.log2 a + 1 in
  if bits <=? 53 then z
  else
    let e := bits - 53 in
    let q := Z.shiftr a e in
    let r := Z.land a (Z.ones e) in
    let half := Z.shiftl 1 (e - 1) in
    let q' :=
      if r <? half then q
      else if half <? r then q + 1
      else if Z.even q then q else q + 1 in
    Z.sgn z * Z.shiftl q' e.

(** [a + b] on integer-valued doubles. *)
Definition jsAdd (a b : Z) : Z := roundToDouble (a + b).

(** [Number.MAX_SAFE_INTEGER] *)
Definition MAX_SAFE_INTEGER : Z := 2 ^ 53 - 1.

(** [s.startsWith(p)] *)
Definition startsWith (s p : string) : bool := String.prefix p s.

(** [s.includes(tok)]: [tok] occurs in [s] at some position. *)
Fixpoint includes (s tok : string) : bool :=
  String.prefix tok s ||
  match s with
  | EmptyString => false
  | String _ rest => includes rest tok
  end.

(** What "is a substring of" means, independently of the search above. *)
Definition Substring (tok s : string) : Prop :=
  exists pre post : string, s = (pre +:+ tok +:+ post)%string.

(** An error value as it is thrown and caught: the own fields the router
    and the tracer read.  [err_message] is a [JsValue] because a rejected
    promise can carry any object. *)
Record JsError := mkError {
  err_name : string;
  err_message : JsValue;
  err_code : JsValue;
  err_status : JsValue;
  err_statusCode : JsValue;
  err_stack : option string
}.

(** [new Error(message)] *)
Definition newError (message : string) : JsError :=
  {| err_name := "Error"; err_message := JsString message;
     err_code := JsUndefined; err_status := JsUndefined;
     err_statusCode := JsUndefined; err_stack := None |}.

(** The two values a property cannot be read from: [promise.reject()]
    and [throw undefined] hand them to a [catch] like any other value. *)
Inductive Nullish := NullishUndefined | NullishNull.

Definition nullishString (v : Nullish) : string :=
  match v with
  | NullishUndefined => "undefined"
  | NullishNull => "null"
  end.

(** The [TypeError] of reading [property] from [undefined] or [null]
    (the wording of the message is the engine's; this is V8's). *)
Definition typeErrorReading (v : Nullish) (property : string) : JsError :=
  {| err_name := "TypeError";
     err_message :=
       JsString ("Cannot read properties of " +:+ nullishString v +:+
                 " (reading '" +:+ property +:+ "')")%string;
     err_code := JsUndefined; err_status := JsUndefined;
     err_statusCode := JsUndefined; err_stack := None |}.

(** ** Shared types ([src/types/index.ts]) *)

Inductive ProviderName := anthropic | openai | google | mistral.

Global Instance ProviderName_eq_dec : EqDecision ProviderName.
Proof. solve_decision. Defined.

Global Instance ProviderName_countable : Countable ProviderName.
Proof.
  refine (inj_countable'
    (fun p => match p with
              | anthropic => 0%nat | openai => 1%nat
              | google => 2%nat | mistral => 3%nat end)
    (fun n => match n with
              | 0%nat => anthropic | 1%nat => openai
              | 2%nat => google | _ => mistral end) _).
  by intros [].
Defined.

(** The provider name as it is interpolated into messages. *)
Definition providerString (p : ProviderName) : string :=
  match p with
  | anthropic => "anthropic"
  | openai => "openai"
  | google => "google"
  | mistral => "mistral"
  end.

Inductive MessageRole := RoleSystem | RoleUser | RoleAssistant | RoleTool.

Record Message := mkMessage {
  msg_role : MessageRole;
  msg_content : string
}.

Record CompletionRequest := mkRequest {
  req_model : string;
  req_messages : list Message;
  req_maxTokens : option Z;
  req_fallback : option (list string);
  req_tags : option (list string);
  req_timeout : option Z
}.

(** [{ ...request, model }] *)
Definition withModel (request : CompletionRequest) (model : string)
  : CompletionRequest :=
  {| req_model := model;
     req_messages := req_messages request;
     req_maxTokens := req_maxTokens request;
     req_fallback := req_fallback request;
     req_tags := req_tags request;
     req_timeout := req_timeout request |}.

Record TokenUsage := mkTokens {
  inputTokens : Z;
  outputTokens : Z;
  totalTokens : Z
}.

Record CompletionMeta := mkMeta {
  meta_latencyMs : Z;
  meta_tokens : TokenUsage;
  meta_cost : Q;
  meta_traceId : string;
  meta_spanId : string;
  meta_model : string;
  meta_provider : ProviderName;
  meta_cached : bool;
  meta_failoverAttempts : Z
}.

Record CompletionResponse := mkResponse {
  resp_content : string;
  resp_finishReason : string;
  resp_meta : CompletionMeta
}.

(** [response.meta.failoverAttempts = n] *)
Definition setFailoverAttempts (response : CompletionResponse) (n : Z)
  : CompletionResponse :=
  let m := resp_meta response in
  {| resp_content := resp_content response;
     resp_finishReason := resp_finishReason response;
     resp_meta :=
       {| meta_latencyMs := meta_latencyMs m;
          meta_tokens := meta_tokens m;
          meta_cost := meta_cost m;
          meta_traceId := meta_traceId m;
          meta_spanId := meta_spanId m;
          meta_model := meta_model m;
          meta_provider := meta_provider m;
          meta_cached := meta_cached m;
          meta_failoverAttempts := n |} |}.

(** [Partial<CompletionMeta>], as carried by a stream chunk. *)
Record PartialMeta := mkPartialMeta {
  pm_provider : option ProviderName;
  pm_model : option string;
  pm_latencyMs : option Z;
  pm_failoverAttempts : option Z
}.

Record StreamChunk := mkChunk {
  chunk_content : option string;
  chunk_finishReason : option string;
  chunk_meta : option PartialMeta
}.

(** The four numbers are [number]s in the source: rationals here, so
    that a multiplier of 1.5 or a budget of 2.5 retries can be given. *)
Record RetryConfig := mkRetry {
  maxRetries : Q;
  initialDelayMs : Q;
  maxDelayMs : Q;
  backoffMultiplier : Q;
  retryableErrors : list string
}.

(** [Partial<RetryConfig>] *)
Record PartialRetryConfig := mkPartialRetry {
  p_maxRetries : option Q;
  p_initialDelayMs : option Q;
  p_maxDelayMs : option Q;
  p_backoffMultiplier : option Q;
  p_retryableErrors : option (list string)
}.

Record TracingConfig := mkTracingConfig {
  cfg_enabled : bool;
  cfg_exportEndpoint : option string;
  cfg_sampleRate : option Q;
  cfg_includePrompts : option bool
}.

(** One entry of [AllProvidersFailedError.attempts], as [route] and
    [routeStream] build it. *)
Record FailedAttempt := mkFailed {
  fa_provider : ProviderName;
  fa_model : string;
  fa_error : JsError;
  fa_latencyMs : Z;
  fa_success : bool
}.

(** [arr.join(sep)] on strings. *)
Fixpoint join (sep : string) (l : list string) : string :=
  match l with
  | [] => EmptyString
  | [x] => x
  | x :: rest => (x +:+ sep +:+ join sep rest)%string
  end.

Record AllProvidersFailedError := mkAllFailed {
  apf_name : string;
  apf_message : string;
  apf_code : string;
  apf_attempts : list FailedAttempt
}.

(** [new AllProvidersFailedError(attempts)] *)
Definition newAllProvidersFailedError (attempts : list FailedAttempt)
  : AllProvidersFailedError :=
  {| apf_name := "AllProvidersFailedError";
     apf_message :=
       ("All providers failed: " +:+
        join ", " (map (fun a => providerString (fa_provider a) +:+ "/" +:+ fa_model a)
                       attempts))%string;
     apf_code := "ALL_PROVIDERS_FAILED";
     apf_attempts := attempts |}.

(** What a call can throw at its caller. *)
Inductive Thrown :=
| ThrowAllProvidersFailed (e : AllProvidersFailedError)
| ThrowError (e : JsError).

(** ** The model resolver ([src/providers/index.ts]) *)

Definition MODEL_PROVIDER_MAP : list (string * ProviderName) :=
  [ ("claude-3-opus", anthropic);
    ("claude-3-sonnet", anthropic);
    ("claude-3-haiku", anthropic);
    ("claude-3.5-sonnet", anthropic);
    ("claude-3.5-haiku", anthropic);
    ("claude-3-opus-20240229", anthropic);
    ("claude-3-sonnet-20240229", anthropic);
    ("claude-3-haiku-20240307", anthropic);
    ("claude-3-5-sonnet-20241022", anthropic);
    ("claude-3-5-haiku-20241022", anthropic);
    ("gpt-4", openai);
    ("gpt-4-turbo", openai);
    ("gpt-4-turbo-preview", openai);
    ("gpt-4o", openai);
    ("gpt-4o-mini", openai);
    ("gpt-3.5-turbo", openai);
    ("gpt-3.5-turbo-16k", openai);
    ("gemini-pro", google);
    ("gemini-pro-vision", google);
    ("gemini-1.5-pro", google);
    ("gemini-1.5-flash", google);
    ("gemini-2.0-flash", google) ]%string.

(** [MODEL_PROVIDER_MAP[model]] on the table's own keys. *)
Fixpoint tableLookup (table : list (string * ProviderName)) (model : string)
  : option ProviderName :=
  match table with
  | [] => None
  | (k, p) :: rest => if String.eqb k model then Some p else tableLookup rest model
  end.

(** The exact match first, then the prefix patterns.  The result is typed
    [ProviderName | undefined] in the source and is modelled within that
    type: the lookup is the one on the table's own keys, so the names a
    JavaScript object inherits from [Object.prototype] (for which the
    source's lookup yields a value that is no provider name) are outside
    the embedding. *)
Definition getProviderForModel (model : string) : option ProviderName :=
  match tableLookup MODEL_PROVIDER_MAP model with
  | Some p => Some p
  | None =>
      if startsWith model "claude" then Some anthropic
      else if startsWith model "gpt" then Some openai
      else if startsWith model "gemini" then Some google
      else if startsWith model "mistral" then Some mistral
      else None
  end.

(** ** The router ([src/routing/router.ts]) *)

(** The part of the world the router acts on: the adapters' hidden state,
    the clock read by [Date.now()] and the timers. *)
Class Runtime := {
  World : Type;
  (** [Date.now()] *)
  now : World -> Z;
  (** the world once a [setTimeout] of the given delay has fired *)
  timer : Q -> World -> World
}.

(** How the promise returned by [adapter.complete] settles: it resolves,
    it rejects with an object whose fields can be read, it rejects with
    [undefined] or [null], or it has not settled when the router's timer
    fires ([Pending]). *)
Inductive Settle :=
| Resolves (response : CompletionResponse)
| Rejects (error : JsError)
| RejectsNullish (v : Nullish)
| Pending.

(** What consuming [adapter.stream(request)] to its end produces: the
    chunks in order, then either normal completion or a throw. *)
Record StreamRun := mkStreamRun {
  produced : list StreamChunk;
  failure : option JsError
}.

Record ProviderAdapter `{Runtime} := mkAdapter {
  adapter_name : ProviderName;
  complete : CompletionRequest -> World -> Settle * World;
  stream : CompletionRequest -> World -> StreamRun * World
}.

(** An entry of the attempt log. *)
Record Attempt := mkAttempt {
  att_provider : ProviderName;
  att_model : string;
  att_success : bool;
  att_error : option JsError;
  att_latencyMs : Z
}.

Record RouteResult := mkRouteResult {
  rr_response : CompletionResponse;
  rr_attempts : list Attempt
}.

Definition DEFAULT_RETRY_CONFIG : RetryConfig :=
  {| maxRetries := 3%Q;
     initialDelayMs := 1000%Q;
     maxDelayMs := 30000%Q;
     backoffMultiplier := 2%Q;
     retryableErrors := ["RATE_LIMIT"; "TIMEOUT"; "NETWORK_ERROR"; "503"; "529"]%string |}.

Record RouterConfig `{Runtime} := mkRouterConfig {
  rc_providers : gmap ProviderName ProviderAdapter;
  rc_retry : option PartialRetryConfig;
  rc_defaultTimeout : option Z
}.

Record Router `{Runtime} := mkRouter {
  providers : gmap ProviderName ProviderAdapter;
  retryConfig : RetryConfig;
  defaultTimeout : Z
}.

(** [{ ...DEFAULT_RETRY_CONFIG, ...partial }] *)
Definition mergeRetry (partial : option PartialRetryConfig) : RetryConfig :=
  match partial with
  | None => DEFAULT_RETRY_CONFIG
  | Some p =>
      {| maxRetries := default (maxRetries DEFAULT_RETRY_CONFIG) (p_maxRetries p);
         initialDelayMs := default (initialDelayMs DEFAULT_RETRY_CONFIG) (p_initialDelayMs p);
         maxDelayMs := default (maxDelayMs DEFAULT_RETRY_CONFIG) (p_maxDelayMs p);
         backoffMultiplier :=
           default (backoffMultiplier DEFAULT_RETRY_CONFIG) (p_backoffMultiplier p);
         retryableErrors :=
           default (retryableErrors DEFAULT_RETRY_CONFIG) (p_retryableErrors p) |}
  end.

(** [new Router(config)] *)
Definition newRouter `{Runtime} (config : RouterConfig) : Router :=
  {| providers := rc_providers config;
     retryConfig := mergeRetry (rc_retry config);
     defaultTimeout := default 60000 (rc_defaultTimeout config) |}.

(** What the router does to the world, in order. *)
Inductive Effect :=
| CallComplete (provider : ProviderName) (request : CompletionRequest)
| CallStream (provider : ProviderName) (request : CompletionRequest)
| Sleep (ms : Q).

(** [isRetryable]: the three strings that are searched ... *)
Definition errorCode (error : JsError) : string :=
  match err_code error with
  | JsString s => s
  | JsUndefined => EmptyString
  | v => JsString_of v
  end.

Definition errorStatus (error : JsError) : string :=
  match nullish (err_status error) (err_statusCode error) with
  | JsUndefined => EmptyString
  | v => JsString_of v
  end.

Definition errorMessage (error : JsError) : string :=
  match err_message error with
  | JsString s => s
  | _ => EmptyString
  end.

(** ... and the search: [retryableErrors.some(code => ...)]. *)
Definition isRetryable (cfg : RetryConfig) (error : JsError) : bool :=
  existsb
    (fun code =>
       includes (errorCode error) code ||
       includes (errorStatus error) code ||
       includes (errorMessage error) code)
    (retryableErrors cfg).

(** The object the timeout timer rejects with. *)
Definition timeoutError (timeoutMs : Z) : JsError :=
  {| err_name := "TimeoutError";
     err_message :=
       JsString ("Request timed out after " +:+ numberToString timeoutMs +:+ "ms")%string;
     err_code := JsString "TIMEOUT";
     err_status := JsUndefined;
     err_statusCode := JsUndefined;
     err_stack := None |}.

(** The awaited result of a promise. *)
Inductive Settled :=
| Resolved (response : CompletionResponse)
| Rejected (error : JsError)
| RejectedNullish (v : Nullish).

(** [executeWithTimeout]: the race between the call and the timer, from
    the world in which the call was made (for a call that settles, the
    world in which it settled).  When the timer wins, [timeoutMs] have
    passed. *)
Definition executeWithTimeout `{Runtime} (promise : Settle) (timeoutMs : Z) (w : World)
  : Settled * World :=
  match promise with
  | Resolves response => (Resolved response, w)
  | Rejects error => (Rejected error, w)
  | RejectsNullish v => (RejectedNullish v, w)
  | Pending => (Rejected (timeoutError timeoutMs), timer (inject_Z timeoutMs) w)
  end.

(** [this.sleep(ms)] *)
Definition sleep `{Runtime} (ms : Q) (w : World) : World := timer ms w.

(** The delay before the retry that follows attempt number [retry]:
    [Math.min(initialDelayMs * Math.pow(backoffMultiplier, retry),
    maxDelayMs)]. *)
Definition backoffDelay (cfg : RetryConfig) (retry : Z) : Q :=
  Qmin (initialDelayMs cfg * backoffMultiplier cfg ^ retry) (maxDelayMs cfg).

Record ChainEntry := mkEntry {
  entry_model : string;
  entry_provider : ProviderName
}.

(** [buildModelChain] *)
Definition buildModelChain (request : CompletionRequest) : list ChainEntry :=
  let primary :=
    match getProviderForModel (req_model request) with
    | Some provider => [mkEntry (req_model request) provider]
    | None => []
    end in
  let fallbacks :=
    match req_fallback request with
    | Some models =>
        omap (fun model =>
                match getProviderForModel model with
                | Some provider => Some (mkEntry model provider)
                | None => None
                end) models
    | None => []
    end in
  primary ++ fallbacks.

(** How the retry loop of one chain entry is left: [route] returns, the
    loop ends (by [break] or by its guard), or the [catch] block throws
    ([attempts] is then the log as it stood, which is lost with the
    call). *)
Inductive LoopExit :=
| ExitReturn (result : RouteResult)
| ExitBreak (attempts : list Attempt)
| ExitThrow (error : JsError) (attempts : list Attempt).

Definition arrayLength {A} (l : list A) : Z := Z.of_nat (length l).

(** The loop [for (let retry = 0; retry <= maxRetries; retry++)] of
    [route], started at [retry] with [n] iterations left before its guard
    fails.  A rejection with [undefined] or [null] makes [isRetryable]
    throw when it reads [error.code]: the [catch] block is left before
    the attempt is logged. *)
Fixpoint retryLoop `{Runtime} (router : Router) (adapter : ProviderAdapter)
    (request : CompletionRequest) (entry : ChainEntry)
    (n : nat) (retry : Z) (attempts : list Attempt) (w : World)
  : LoopExit * World * list Effect :=
  match n with
  | O => (ExitBreak attempts, w, [])
  | S n' =>
      let cfg := retryConfig router in
      let startTime := now w in
      let call := withModel request (entry_model entry) in
      let '(promise, w0) := complete adapter call w in
      let '(settled, w1) :=
        executeWithTimeout promise
          (default (defaultTimeout router) (req_timeout request)) w0 in
      match settled with
      | Resolved response =>
          let response' := setFailoverAttempts response (arrayLength attempts) in
          let attempts' :=
            attempts ++ [mkAttempt (entry_provider entry) (entry_model entry)
                           true None (now w1 - startTime)] in
          (ExitReturn (mkRouteResult response' attempts'), w1,
           [CallComplete (entry_provider entry) call])
      | RejectedNullish v =>
          (ExitThrow (typeErrorReading v "code") attempts, w1,
           [CallComplete (entry_provider entry) call])
      | Rejected error =>
          let latencyMs := now w1 - startTime in
          let retryable := isRetryable cfg error in
          let attempts' :=
            attempts ++ [mkAttempt (entry_provider entry) (entry_model entry)
                           false (Some error) latencyMs] in
          if negb retryable || Qeq_bool (inject_Z retry) (maxRetries cfg) then
            (ExitBreak attempts', w1, [CallComplete (entry_provider entry) call])
          else
            let delay := backoffDelay cfg retry in
            let '(exit, w2, fx) :=
              retryLoop router adapter request entry n' (retry + 1) attempts'
                        (sleep delay w1) in
            (exit, w2, CallComplete (entry_provider entry) call :: Sleep delay :: fx)
      end
  end.

(** The number of times the loop condition [retry <= maxRetries] holds
    from [retry = 0]: none for a negative [maxRetries], and
    [floor(maxRetries) + 1] otherwise. *)
Definition iterations (cfg : RetryConfig) : nat :=
  Z.to_nat (Qfloor (maxRetries cfg) + 1).

(** The body of [for (const { model, provider } of models)] in [route]. *)
Definition tryEntry `{Runtime} (router : Router) (request : CompletionRequest)
    (entry : ChainEntry) (attempts : list Attempt) (w : World)
  : LoopExit * World * list Effect :=
  match providers router !! entry_provider entry with
  | None =>
      (ExitBreak
         (attempts ++
          [mkAttempt (entry_provider entry) (entry_model entry) false
             (Some (newError ("Provider " +:+ providerString (entry_provider entry)
                              +:+ " not configured")%string))
             0]),
       w, [])
  | Some adapter =>
      retryLoop router adapter request entry
                (iterations (retryConfig router)) 0 attempts w
  end.

(** [attempts.map(...)] before the final throw. *)
Definition failureAttempts (attempts : list Attempt) : list FailedAttempt :=
  map (fun attempt =>
         {| fa_provider := att_provider attempt;
            fa_model := att_model attempt;
            fa_error := default (newError "Unknown error") (att_error attempt);
            fa_latencyMs := att_latencyMs attempt;
            fa_success := att_success attempt |})
      attempts.

Inductive RouteOutcome :=
| Returns (result : RouteResult)
| Throws (thrown : Thrown).

(** The chain loop of [route], from the entries still to try. *)
Fixpoint routeChain `{Runtime} (router : Router) (request : CompletionRequest)
    (models : list ChainEntry) (attempts : list Attempt) (w : World)
  : RouteOutcome * World * list Effect :=
  match models with
  | [] =>
      (Throws (ThrowAllProvidersFailed
                 (newAllProvidersFailedError (failureAttempts attempts))),
       w, [])
  | entry :: rest =>
      match tryEntry router request entry attempts w with
      | (ExitReturn result, w1, fx) => (Returns result, w1, fx)
      | (ExitThrow error _, w1, fx) => (Throws (ThrowError error), w1, fx)
      | (ExitBreak attempts', w1, fx) =>
          let '(outcome, w2, fx') := routeChain router request rest attempts' w1 in
          (outcome, w2, fx ++ fx')
      end
  end.

(** [route(request)] *)
Definition route `{Runtime} (router : Router) (request : CompletionRequest)
    (w : World) : RouteOutcome * World * list Effect :=
  routeChain router request (buildModelChain request) [] w.

(** [chunk.meta.failoverAttempts = attempts.length] when the chunk has a
    [meta]. *)
Definition stampChunk (n : Z) (chunk : StreamChunk) : StreamChunk :=
  match chunk_meta chunk with
  | Some m =>
      {| chunk_content := chunk_content chunk;
         chunk_finishReason := chunk_finishReason chunk;
         chunk_meta :=
           Some {| pm_provider := pm_provider m;
                   pm_model := pm_model m;
                   pm_latencyMs := pm_latencyMs m;
                   pm_failoverAttempts := Some n |} |}
  | None => chunk
  end.

(** How the generator returned by [routeStream] ends. *)
Inductive StreamEnd :=
| StreamReturned
| StreamThrew (thrown : Thrown).

(** A run of [routeStream] to its end: the chunks yielded to the caller,
    how the generator ended, the world and the effects. *)
Record StreamOutcome `{Runtime} := mkStreamOutcome {
  yielded : list StreamChunk;
  ending : StreamEnd;
  finalWorld : World;
  effects : list Effect
}.

(** The chain loop of [routeStream]. *)
Fixpoint routeStreamChain `{Runtime} (router : Router) (request : CompletionRequest)
    (models : list ChainEntry) (attempts : list Attempt) (w : World)
  : StreamOutcome :=
  match models with
  | [] =>
      mkStreamOutcome _ []
        (StreamThrew (ThrowAllProvidersFailed
                        (newAllProvidersFailedError (failureAttempts attempts))))
        w []
  | entry :: rest =>
      match providers router !! entry_provider entry with
      | None => routeStreamChain router request rest attempts w
      | Some adapter =>
          let startTime := now w in
          let call := withModel request (entry_model entry) in
          let '(run, w1) := stream adapter call w in
          let chunks := map (stampChunk (arrayLength attempts)) (produced run) in
          match failure run with
          | None =>
              mkStreamOutcome _ chunks StreamReturned w1
                [CallStream (entry_provider entry) call]
          | Some error =>
              let attempts' :=
                attempts ++ [mkAttempt (entry_provider entry) (entry_model entry)
                               false (Some error) (now w1 - startTime)] in
              let next := routeStreamChain router request rest attempts' w1 in
              mkStreamOutcome _ (chunks ++ yielded next) (ending next)
                (finalWorld next)
                (CallStream (entry_provider entry) call :: effects next)
          end
      end
  end.

(** [routeStream(request)] *)
Definition routeStream `{Runtime} (router : Router) (request : CompletionRequest)
    (w : World) : StreamOutcome :=
  routeStreamChain router request (buildModelChain request) [] w.

(** ** The tracer ([src/tracing/tracer.ts]) *)

Inductive SpanStatus := StatusOk | StatusError | StatusUnset.

Global Instance SpanStatus_eq_dec : EqDecision SpanStatus.
Proof. solve_decision. Defined.

Inductive SpanKind := KindClient | KindServer | KindInternal.

Record SpanContext := mkContext {
  traceId : string;
  spanId : string;
  parentSpanId : option string
}.

Record SpanEvent := mkEvent {
  event_name : string;
  event_timestamp : Z;
  event_attributes : option (gmap string JsValue)
}.

Record SpanData := mkSpanData {
  context : SpanContext;
  name : string;
  kind : SpanKind;
  startTime : Z;
  endTime : option Z;
  status : SpanStatus;
  attributes : gmap string JsValue;
  events : list SpanEvent;
  links : option (list SpanContext)
}.

(** Field assignments on a [SpanData] object. *)
Definition setEndTime (t : Z) (d : SpanData) : SpanData :=
  mkSpanData (context d) (name d) (kind d) (startTime d) (Some t) (status d)
             (attributes d) (events d) (links d).

Definition assignStatus (s : SpanStatus) (d : SpanData) : SpanData :=
  mkSpanData (context d) (name d) (kind d) (startTime d) (endTime d) s
             (attributes d) (events d) (links d).

Definition assignAttributes (a : gmap string JsValue) (d : SpanData) : SpanData :=
  mkSpanData (context d) (name d) (kind d) (startTime d) (endTime d) (status d)
             a (events d) (links d).

Definition pushEvent (e : SpanEvent) (d : SpanData) : SpanData :=
  mkSpanData (context d) (name d) (kind d) (startTime d) (endTime d) (status d)
             (attributes d) (events d ++ [e]) (links d).

(** The address of a [Span] object.  A span and the [SpanData] object in
    its [data] field are created together and [data] is never reassigned,
    so one address names both: the tracer's [spans] array, which holds
    references to data objects, is a list of such addresses. *)
Abbreviation SpanRef := nat (only parsing).

(** [bare] tells whether the object in [data.attributes] has lost its
    prototype; it has [Object.prototype] when the span is created. *)
Record Span := mkSpan {
  data : SpanData;
  children : list SpanRef;
  bare : bool
}.

Definition onData (f : SpanData -> SpanData) (s : Span) : Span :=
  mkSpan (f (data s)) (children s) (bare s).

(** The object store and the tracer's own fields.  [inflight] holds the
    batches handed to [fetch] whose request has not settled yet, [posted]
    the bodies that were serialized for them. *)
Record Store := mkStore {
  heap : list Span;
  config : TracingConfig;
  spans : list SpanRef;
  spanStack : list SpanRef;
  exportQueue : list SpanRef;
  inflight : list (list SpanRef);
  posted : list (list SpanData)
}.

(** What one operation reads from its environment: [Date.now()],
    [Math.random()] and the results of its first and second call of
    [generateId()]. *)
Record Env := mkEnv {
  clock : Z;
  draw : Q;
  id1 : string;
  id2 : string
}.

(** [new Tracer(config)] *)
Definition newTracer (cfg : TracingConfig) : Store :=
  mkStore [] cfg [] [] [] [] [].

(** [createNoopTracer()] *)
Definition createNoopTracer : Store :=
  newTracer (mkTracingConfig false None None None).

Definition updateSpan (r : SpanRef) (f : Span -> Span) (st : Store) : Store :=
  mkStore (alter f r (heap st)) (config st) (spans st) (spanStack st)
          (exportQueue st) (inflight st) (posted st).

(** [new Span(tracer, name, parentContext, attributes, traceIdOverride)].
    The attribute map is a plain object literal of primitive values and
    is taken by value: the embedding keeps no alias of it on the caller's
    side. *)
Definition newSpan (env : Env) (name : string) (parentContext : option SpanContext)
    (attrs : option (gmap string JsValue)) (traceIdOverride : option string)
  : Span :=
  let '(tid, sid) :=
    match traceIdOverride with
    | Some t => (t, id1 env)
    | None =>
        match parentContext with
        | Some pc => (traceId pc, id1 env)
        | None => (id1 env, id2 env)
        end
    end in
  mkSpan
    {| context := mkContext tid sid (spanId <$> parentContext);
       name := name;
       kind := KindClient;
       startTime := clock env;
       endTime := None;
       status := StatusUnset;
       attributes := default ∅ attrs;
       events := [];
       links := None |}
    [] false.

Definition allocSpan (s : Span) (st : Store) : SpanRef * Store :=
  (length (heap st),
   mkStore (heap st ++ [s]) (config st) (spans st) (spanStack st)
           (exportQueue st) (inflight st) (posted st)).

(** [span.getContext()] *)
Definition getContext (r : SpanRef) (st : Store) : option SpanContext :=
  (fun s => context (data s)) <$> heap st !! r.

(** [span.getData()]: a copy of the data as it is now. *)
Definition getData (r : SpanRef) (st : Store) : option SpanData :=
  data <$> heap st !! r.

(** [this.data.attributes[key] = value].  On an object that has its
    prototype the key [__proto__] names the accessor inherited from
    [Object.prototype]: the assignment creates no own property; it
    removes the prototype when the value is [null] and does nothing for
    any other primitive.  Every other assignment creates or overwrites
    an own property. *)
Definition assignAttribute (key : string) (value : JsValue) (s : Span) : Span :=
  if String.eqb key "__proto__" && negb (bare s) then
    match value with
    | JsNull => mkSpan (data s) (children s) true
    | _ => s
    end
  else onData (fun d => assignAttributes (<[key := value]> (attributes d)) d) s.

(** [span.setAttribute(key, value)] *)
Definition setAttribute (r : SpanRef) (key : string) (value : JsValue) (st : Store)
  : Store :=
  updateSpan r (assignAttribute key value) st.

(** [Object.assign(this.data.attributes, attributes)]: one assignment as
    above for each own key of [attrs]; the new values win.  At most one
    of the keys is [__proto__], so the order of the assignments does not
    matter. *)
Definition assignAll (attrs : gmap string JsValue) (s : Span) : Span :=
  if bare s then onData (fun d => assignAttributes (attrs ∪ attributes d) d) s
  else
    let s1 :=
      onData (fun d =>
                assignAttributes (delete "__proto__"%string attrs ∪ attributes d) d) s in
    match attrs !! "__proto__"%string with
    | Some JsNull => mkSpan (data s1) (children s1) true
    | _ => s1
    end.

(** [span.setAttributes(attributes)] *)
Definition setAttributes (r : SpanRef) (attrs : gmap string JsValue) (st : Store)
  : Store :=
  updateSpan r (assignAll attrs) st.

(** [span.addEvent(name, attributes)] *)
Definition addEvent (env : Env) (r : SpanRef) (name : string)
    (attrs : option (gmap string JsValue)) (st : Store) : Store :=
  updateSpan r (onData (pushEvent (mkEvent name (clock env) attrs))) st.

(** The two values [setStatus] accepts. *)
Inductive FinalStatus := FinalOk | FinalError.

Definition statusOf (s : FinalStatus) : SpanStatus :=
  match s with FinalOk => StatusOk | FinalError => StatusError end.

(** [if (message)]: a string is truthy when it is not empty. *)
Definition truthyString (message : option string) : option string :=
  match message with
  | Some EmptyString => None
  | other => other
  end.

(** The body of [setStatus(status, message)], for whatever value is
    passed as [message]: the status is assigned, and a truthy message is
    stored under [error.message] as it is. *)
Definition setStatusTo (r : SpanRef) (s : FinalStatus) (message : JsValue)
    (st : Store) : Store :=
  updateSpan r
    (onData (fun d =>
       let d1 := assignStatus (statusOf s) d in
       if truthy message
       then assignAttributes (<["error.message"%string := message]> (attributes d1)) d1
       else d1)) st.

(** [span.setStatus(status, message)], called as its signature says:
    with a string or without a message. *)
Definition setStatus (r : SpanRef) (s : FinalStatus) (message : option string)
    (st : Store) : Store :=
  setStatusTo r s (from_option JsString JsUndefined message) st.

(** [span.recordException(error)]: [error.message] goes to [setStatus]
    whatever its type. *)
Definition recordException (env : Env) (r : SpanRef) (error : JsError) (st : Store)
  : Store :=
  let st1 := setStatusTo r FinalError (err_message error) st in
  addEvent env r "exception"
    (Some (<["exception.type"%string := JsString (err_name error)]>
           (<["exception.message"%string := err_message error]>
            (<["exception.stacktrace"%string :=
                 from_option JsString JsUndefined (err_stack error)]> ∅))))
    st1.

(** [span.startChild(name, attributes)] *)
Definition startChild (env : Env) (r : SpanRef) (name : string)
    (attrs : option (gmap string JsValue)) (st : Store) : option (SpanRef * Store) :=
  match heap st !! r with
  | None => None
  | Some parent =>
      let '(c, st1) :=
        allocSpan (newSpan env name (Some (context (data parent))) attrs None) st in
      Some (c, updateSpan r (fun s => mkSpan (data s) (children s ++ [c]) (bare s)) st1)
  end.

(** [tracer.shouldSample()] *)
Definition shouldSample (cfg : TracingConfig) (env : Env) : bool :=
  if negb (cfg_enabled cfg) then false
  else match cfg_sampleRate cfg with
       | None => true
       | Some rate => if Qlt_le_dec (draw env) rate then true else false
       end.

(** The data objects behind a list of references, as they read now. *)
Definition readAll (st : Store) (refs : list SpanRef) : list SpanData :=
  omap (fun r => getData r st) refs.

(** [tracer.flush()] up to its [await]: the queue is drained and its
    serialization handed to [fetch]. *)
Definition flush (st : Store) : Store :=
  match truthyString (cfg_exportEndpoint (config st)), exportQueue st with
  | None, _ | _, [] => st
  | Some _, toExport =>
      mkStore (heap st) (config st) (spans st) (spanStack st) []
              (inflight st ++ [toExport]) (posted st ++ [readAll st toExport])
  end.

(** The rest of [flush] once the oldest pending [fetch] has settled: a
    rejected request puts its batch back at the front of the queue. *)
Definition fetchSettled (rejected : bool) (st : Store) : Store :=
  match inflight st with
  | [] => st
  | toExport :: others =>
      mkStore (heap st) (config st) (spans st) (spanStack st)
              (if rejected then toExport ++ exportQueue st else exportQueue st)
              others (posted st)
  end.

(** [tracer.recordSpan(data)], for the data object at address [r]. *)
Definition recordSpan (env : Env) (r : SpanRef) (st : Store) : Store :=
  if shouldSample (config st) env then
    let st1 :=
      mkStore (heap st) (config st) (spans st ++ [r]) (spanStack st)
              (exportQueue st ++ [r]) (inflight st) (posted st) in
    if (100 <=? length (exportQueue st1))%nat then flush st1 else st1
  else st.

(** [arr.lastIndexOf(r)] followed by [arr.splice(index, 1)]: the last
    occurrence of [r] is removed, if there is one. *)
Fixpoint removeLast (r : SpanRef) (l : list SpanRef) : list SpanRef :=
  match l with
  | [] => []
  | x :: rest =>
      if bool_decide (r ∈ rest) then x :: removeLast r rest
      else if bool_decide (x = r) then rest
      else x :: rest
  end.

(** [tracer.endSpan(span)] *)
Definition endSpan (r : SpanRef) (st : Store) : Store :=
  mkStore (heap st) (config st) (spans st) (removeLast r (spanStack st))
          (exportQueue st) (inflight st) (posted st).

(** [span.end()] *)
Definition Span_end (env : Env) (r : SpanRef) (st : Store) : Store :=
  let st1 :=
    updateSpan r
      (onData (fun d =>
         let d1 := setEndTime (clock env) d in
         match status d1 with
         | StatusUnset => assignStatus StatusOk d1
         | _ => d1
         end)) st in
  endSpan r (recordSpan env r st1).

(** [span.getDuration()] *)
Definition getDuration (env : Env) (r : SpanRef) (st : Store) : option Z :=
  (fun d => default (clock env) (endTime d) - startTime d) <$> getData r st.

(** [tracer.currentSpan] *)
Definition currentSpan (st : Store) : option SpanRef := last (spanStack st).

(** [tracer.startSpan(name, attributes, { parentContext, traceId })] *)
Definition startSpan (env : Env) (name : string)
    (attrs : option (gmap string JsValue))
    (parentContext : option SpanContext) (traceIdOption : option string)
    (st : Store) : SpanRef * Store :=
  let parent :=
    match parentContext with
    | Some pc => Some pc
    | None =>
        match truthyString traceIdOption with
        | Some _ => None
        | None => currentSpan st ≫= fun r => getContext r st
        end
    end in
  let '(r, st1) := allocSpan (newSpan env name parent attrs traceIdOption) st in
  (r, mkStore (heap st1) (config st1) (spans st1) (spanStack st1 ++ [r])
              (exportQueue st1) (inflight st1) (posted st1)).

(** [tracer.getSpans()]: a fresh array of the same data objects. *)
Definition getSpans (st : Store) : list SpanData := readAll st (spans st).

(** [tracer.clearSpans()] *)
Definition clearSpans (st : Store) : Store :=
  mkStore (heap st) (config st) [] (spanStack st) (exportQueue st)
          (inflight st) (posted st).

(** The calls a client can make on a tracer and its spans. *)
Inductive SpanOp :=
| OpStartSpan (name : string) (attrs : option (gmap string JsValue))
              (parentContext : option SpanContext) (traceIdOption : option string)
| OpStartChild (r : SpanRef) (name : string) (attrs : option (gmap string JsValue))
| OpSetAttribute (r : SpanRef) (key : string) (value : JsValue)
| OpSetAttributes (r : SpanRef) (attrs : gmap string JsValue)
| OpAddEvent (r : SpanRef) (name : string) (attrs : option (gmap string JsValue))
| OpSetStatus (r : SpanRef) (s : FinalStatus) (message : option string)
| OpRecordException (r : SpanRef) (error : JsError)
| OpEnd (r : SpanRef)
| OpFlush
| OpFetchSettled (rejected : bool)
| OpClearSpans.

(** One call, with the readings it takes from its environment. *)
Definition exec (step : Env * SpanOp) (st : Store) : Store :=
  let '(env, op) := step in
  match op with
  | OpStartSpan name attrs pc tid => snd (startSpan env name attrs pc tid st)
  | OpStartChild r name attrs => from_option snd st (startChild env r name attrs st)
  | OpSetAttribute r key value => setAttribute r key value st
  | OpSetAttributes r attrs => setAttributes r attrs st
  | OpAddEvent r name attrs => addEvent env r name attrs st
  | OpSetStatus r s message => setStatus r s message st
  | OpRecordException r error => recordException env r error st
  | OpEnd r => Span_end env r st
  | OpFlush => flush st
  | OpFetchSettled rejected => fetchSettled rejected st
  | OpClearSpans => clearSpans st
  end.

(** A sequence of calls, in program order. *)
Definition run (steps : list (Env * SpanOp)) (st : Store) : Store :=
  fold_left (fun acc step => exec step acc) steps st.

(** The five mutators of a span. *)
Definition isMutation (op : SpanOp) : bool :=
  match op with
  | OpSetAttribute _ _ _ | OpSetAttributes _ _ | OpAddEvent _ _ _
  | OpSetStatus _ _ _ | OpRecordException _ _ => true
  | _ => false
  end.

(** ** Vocabulary of the properties *)

(** The attempts an exit of the retry loop carries. *)
Definition exitAttempts (exit : LoopExit) : list Attempt :=
  match exit with
  | ExitReturn result => rr_attempts result
  | ExitBreak attempts => attempts
  | ExitThrow _ attempts => attempts
  end.




(** The durations of the sleeps among some effects, in order. *)
Definition sleepsOf (fx : list Effect) : list Q :=
  omap (fun e => match e with Sleep ms => Some ms | _ => None end) fx.

(** The adapter calls among some effects, in order. *)
Definition callsOf (fx : list Effect) : list Effect :=
  omap (fun e => match e with Sleep _ => None | call => Some call end) fx.

(** The exit of a retry loop that was started with the attempts [acc]
    already in the log, from the exit of the same loop started with the
    log without them. *)
Definition withEarlier (acc : list Attempt) (exit : LoopExit) : LoopExit :=
  match exit with
  | ExitBreak attempts => ExitBreak (acc ++ attempts)
  | ExitThrow error attempts => ExitThrow error (acc ++ attempts)
  | ExitReturn result =>
      ExitReturn
        (mkRouteResult
           (setFailoverAttempts (rr_response result)
              (arrayLength acc + meta_failoverAttempts (resp_meta (rr_response result))))
           (acc ++ rr_attempts result))
  end.

(** Every entry of a chain, run on its own from the world its predecessor
    left, leaves its retry loop without a success; [segs] lists the
    attempts of each entry. *)
Inductive chainFails `{Runtime} (router : Router) (request : CompletionRequest)
  : list ChainEntry -> World -> list (list Attempt) -> World -> Prop :=
| chainFails_nil w : chainFails router request [] w [] w
| chainFails_cons entry rest w seg w1 fx segs w2 :
    tryEntry router request entry [] w = (ExitBreak seg, w1, fx) ->
    chainFails router request rest w1 segs w2 ->
    chainFails router request (entry :: rest) w (seg :: segs) w2.

(** The awaited call of an entry always fails with a retryable error,
    whatever the state of the world. *)
Definition alwaysFailsRetryable `{Runtime} (router : Router) (adapter : ProviderAdapter)
    (request : CompletionRequest) (entry : ChainEntry) : Prop :=
  forall w, exists error,
    let '(promise, w0) := complete adapter (withModel request (entry_model entry)) w in
    fst (executeWithTimeout promise
           (default (defaultTimeout router) (req_timeout request)) w0)
    = Rejected error /\
    isRetryable (retryConfig router) error = true.

(** The clock readings of a sequence of calls never go back, starting
    from [t]. *)
Fixpoint clockOrdered (t : Z) (steps : list (Env * SpanOp)) : Prop :=
  match steps with
  | [] => True
  | (env, _) :: rest => t <= clock env /\ clockOrdered (clock env) rest
  end.

(** The reading of "ended spans are frozen": whatever is done to a span
    after [end()], the entry the tracer recorded for it reads as it did
    when [end()] returned. *)
Definition recordedCopyFrozen : Prop :=
  forall (st : Store) (env : Env) (r : SpanRef) (steps : list (Env * SpanOp)),
    is_Some (getData r st) ->
    shouldSample (config st) env = true ->
    Forall (fun step => isMutation (snd step) = true) steps ->
    last (getSpans (run steps (Span_end env r st)))
    = last (getSpans (Span_end env r st)).

(** The reading of "endTime is set exactly once": once a span has an
    [endTime], no later call changes it. *)
Definition endTimeSetOnce : Prop :=
  forall (cfg : TracingConfig) (t0 : Z) (before after : list (Env * SpanOp))
         (r : SpanRef) (d1 d2 : SpanData) (e : Z),
    clockOrdered t0 (before ++ after) ->
    getData r (run before (newTracer cfg)) = Some d1 ->
    endTime d1 = Some e ->
    getData r (run (before ++ after) (newTracer cfg)) = Some d2 ->
    endTime d2 = Some e.

(** A span that started no later than [t] and, if it has ended, ended no
    earlier than it started. *)
Definition timesOrdered (t : Z) (s : Span) : Prop :=
  startTime (data s) <= t /\
  forall e, endTime (data s) = Some e -> startTime (data s) <= e.

(** ** A runtime for the examples *)

(** The clock and the number of adapter calls made so far. *)
Record SimWorld := mkSim {
  sim_clock : Z;
  sim_calls : nat
}.

(** The milliseconds a timer of Node.js waits for a delay: the delay
    without its fraction when it lies between 1 and [2^31 - 1], and 1
    otherwise. *)
Definition timerMs (ms : Q) : Z :=
  if Qle_bool 1 ms && Qle_bool ms 2147483647 then Qfloor ms else 1.

Global Instance simRuntime : Runtime :=
  {| World := SimWorld;
     now := sim_clock;
     timer := fun ms w => mkSim (sim_clock w + timerMs ms) (sim_calls w) |}.

(** An adapter in the manner of the test suite's mocks: the [i]-th call
    made in the world settles as the [i]-th element of [script] (as
    [otherwise] past its end), after 7 ms when it settles at all; its
    stream always runs as [run]. *)
Definition scripted (provider : ProviderName) (script : list Settle)
    (otherwise : Settle) (run : StreamRun) : ProviderAdapter :=
  {| adapter_name := provider;
     complete := fun _ w =>
       let settle := nth (sim_calls w) script otherwise in
       (settle,
        mkSim (match settle with Pending => sim_clock w | _ => sim_clock w + 7 end)
              (S (sim_calls w)));
     stream := fun _ w => (run, mkSim (sim_clock w + 7) (S (sim_calls w))) |}.

Definition rateLimitError : JsError :=
  {| err_name := "RateLimitError";
     err_message := JsString "Rate limit exceeded for anthropic";
     err_code := JsString "RATE_LIMIT";
     err_status := JsUndefined; err_statusCode := JsUndefined;
     err_stack := None |}.

Definition networkError : JsError :=
  {| err_name := "Error";
     err_message := JsString "Network error";
     err_code := JsString "NETWORK_ERROR";
     err_status := JsUndefined; err_statusCode := JsUndefined;
     err_stack := None |}.

Definition badRequestError : JsError :=
  {| err_name := "Error";
     err_message := JsString "Bad request";
     err_code := JsString "BAD_REQUEST";
     err_status := JsNumber 400; err_statusCode := JsUndefined;
     err_stack := None |}.

Definition sampleResponse (provider : ProviderName) : CompletionResponse :=
  {| resp_content := "Mock response";
     resp_finishReason := "stop";
     resp_meta :=
       {| meta_latencyMs := 100;
          meta_tokens := mkTokens 10 20 30;
          meta_cost := 0;
          meta_traceId := "trace";
          meta_spanId := "span";
          meta_model := "test-model";
          meta_provider := provider;
          meta_cached := false;
          meta_failoverAttempts := 0 |} |}.

Definition textChunk (text : string) : StreamChunk :=
  mkChunk (Some text) None None.

Definition finalChunk (provider : ProviderName) : StreamChunk :=
  mkChunk None (Some "stop"%string)
    (Some (mkPartialMeta (Some provider) None None (Some 0))).

Definition sampleRequest (model : string) (fallback : option (list string))
  : CompletionRequest :=
  {| req_model := model;
     req_messages := [mkMessage RoleUser "Hello, world!"];
     req_maxTokens := Some 1024;
     req_fallback := fallback;
     req_tags := None;
     req_timeout := None |}.

(** The retry settings of the router tests. *)
Definition testRetry : PartialRetryConfig :=
  mkPartialRetry (Some 2%Q) (Some 10%Q) (Some 50%Q) (Some 2%Q) None.

Definition testRouter (adapters : list (ProviderName * ProviderAdapter)) : Router :=
  newRouter (mkRouterConfig _ (list_to_map adapters) (Some testRetry) (Some 5000)).

Definition startWorld : SimWorld := mkSim 0 0.

Definition testEnv (t : Z) : Env := mkEnv t 0 "id-a" "id-b".

Definition enabledTracer : Store :=
  newTracer (mkTracingConfig true None None None).

(** Adapters whose calls are always rate limited; the stream of the
    first yields one chunk and then fails, the stream of the second runs
    to its end. *)
Definition flakyAnthropic : ProviderAdapter :=
  scripted anthropic [] (Rejects rateLimitError)
    (mkStreamRun [textChunk "partial"] (Some networkError)).

Definition steadyOpenai : ProviderAdapter :=
  scripted openai [] (Rejects rateLimitError)
    (mkStreamRun [textChunk "Fallback"; finalChunk openai] None).

Definition rateLimitedRouter : Router :=
  testRouter [(anthropic, flakyAnthropic); (openai, steadyOpenai)].

(** Only [anthropic] is configured. *)
Definition anthropicOnlyRouter : Router :=
  testRouter [(anthropic, flakyAnthropic)].

Definition claudeEntry : ChainEntry := mkEntry "claude-3-sonnet" anthropic.

Definition gptEntry : ChainEntry := mkEntry "gpt-4" openai.

Definition claudeThenGpt : CompletionRequest :=
  sampleRequest "claude-3-sonnet" (Some ["gpt-4"%string]).

Definition gptOnly : CompletionRequest := sampleRequest "gpt-4" None.

Definition unknownModels : CompletionRequest :=
  sampleRequest "llama-3" (Some ["test-model"%string; "command-r"%string]).

(** A router with five retries and the delays of the specification's
    example, and one without retryable errors. *)
Definition fiveRetriesRouter : Router :=
  newRouter
    (mkRouterConfig _
       (list_to_map [(anthropic, flakyAnthropic)])
       (Some (mkPartialRetry (Some 5%Q) (Some 10%Q) (Some 50%Q) (Some 2%Q) None))
       (Some 5000)).

Definition noRetryRouter : Router :=
  newRouter
    (mkRouterConfig _
       (list_to_map [(anthropic, flakyAnthropic)])
       (Some (mkPartialRetry (Some 3%Q) (Some 10%Q) (Some 50%Q) (Some 2%Q) (Some [])))
       (Some 5000)).

(** ** The rest of the registry, the router and the tracer *)

(** The property names every JavaScript object inherits from
    [Object.prototype].  Looked up in an object literal they yield a
    truthy value that is no entry of the literal, so the embedding of
    object-literal lookups ([MODEL_PROVIDER_MAP[model]],
    [stats.byModel[model]]) is faithful for the other names only. *)
Definition inheritedKeys : list string :=
  [ "constructor"; "hasOwnProperty"; "isPrototypeOf"; "propertyIsEnumerable";
    "toLocaleString"; "toString"; "valueOf"; "__proto__";
    "__defineGetter__"; "__defineSetter__"; "__lookupGetter__";
    "__lookupSetter__" ]%string.

Definition ownName (key : string) : Prop := ~ In key inheritedKeys.

(** The prefix patterns of [getProviderForModel] on their own. *)
Definition prefixRule (model : string) : option ProviderName :=
  if startsWith model "claude" then Some anthropic
  else if startsWith model "gpt" then Some openai
  else if startsWith model "gemini" then Some google
  else if startsWith model "mistral" then Some mistral
  else None.

(** [getModelsForProvider]: the keys of the table that map to the
    provider, in the order of the table. *)
Definition getModelsForProvider (provider : ProviderName) : list string :=
  map fst
    (List.filter (fun entry => bool_decide (snd entry = provider)) MODEL_PROVIDER_MAP).

Record ProviderCredentials := mkCredentials {
  apiKey : string;
  baseUrl : option string;
  organizationId : option string
}.

Record ProvidersConfig := mkProvidersConfig {
  pc_anthropic : option ProviderCredentials;
  pc_openai : option ProviderCredentials;
  pc_google : option ProviderCredentials;
  pc_mistral : option ProviderCredentials
}.

(** [config.x?.apiKey] as a condition: credentials with a non-empty key. *)
Definition usable (credentials : option ProviderCredentials)
  : option ProviderCredentials :=
  match credentials with
  | Some c => match apiKey c with EmptyString => None | _ => Some c end
  | None => None
  end.

(** [createProviders]; [construct] stands for the three adapter
    constructors ([new AnthropicProvider(...)] and the like). *)
Definition createProviders `{Runtime}
    (construct : ProviderName -> ProviderCredentials -> ProviderAdapter)
    (config : ProvidersConfig) : gmap ProviderName ProviderAdapter :=
  let providers0 : gmap ProviderName ProviderAdapter := ∅ in
  let providers1 :=
    match usable (pc_anthropic config) with
    | Some c => <[anthropic := construct anthropic c]> providers0
    | None => providers0
    end in
  let providers2 :=
    match usable (pc_openai config) with
    | Some c => <[openai := construct openai c]> providers1
    | None => providers1
    end in
  match usable (pc_google config) with
  | Some c => <[google := construct google c]> providers2
  | None => providers2
  end.

(** The attempt [route] logs for an entry without an adapter. *)
Definition notConfiguredAttempt (entry : ChainEntry) : Attempt :=
  mkAttempt (entry_provider entry) (entry_model entry) false
    (Some (newError ("Provider " +:+ providerString (entry_provider entry)
                     +:+ " not configured")%string)) 0.

Definition failedAttempt (a : Attempt) : Prop :=
  att_success a = false /\ is_Some (att_error a).

Definition namesEntry (entry : ChainEntry) (a : Attempt) : Prop :=
  att_provider a = entry_provider entry /\ att_model a = entry_model entry.

(** The entry an attempt was made on. *)
Definition entryOf (a : Attempt) : ChainEntry := mkEntry (att_model a) (att_provider a).

Global Instance ChainEntry_eq_dec : EqDecision ChainEntry.
Proof. solve_decision. Defined.

(** How often an entry stands in a chain. *)
Definition occurrences (entry : ChainEntry) (chain : list ChainEntry) : nat :=
  length (List.filter (fun e => bool_decide (e = entry)) chain).

(** An adapter call made for an entry: on its provider, for its model. *)
Definition isCallOn (entry : ChainEntry) (e : Effect) : bool :=
  match e with
  | CallComplete p r =>
      bool_decide (p = entry_provider entry) && String.eqb (req_model r) (entry_model entry)
  | _ => false
  end.

Definition isAttemptOn (entry : ChainEntry) (a : Attempt) : bool :=
  bool_decide (entryOf a = entry).

(** The most attempts one entry can get: the iterations of its retry
    loop, or the single entry logged when it has no adapter. *)
Definition attemptsPerEntry (cfg : RetryConfig) : nat := Nat.max 1 (iterations cfg).

Definition resolvable (model : string) : bool :=
  match getProviderForModel model with Some _ => true | None => false end.

Definition configured `{Runtime} (router : Router) (entry : ChainEntry) : bool :=
  match providers router !! entry_provider entry with Some _ => true | None => false end.

(** The runs of the streams [routeStream] opens, in order: one for each
    configured entry up to the first whose stream completes. *)
Fixpoint streamRuns `{Runtime} (router : Router) (request : CompletionRequest)
    (models : list ChainEntry) (w : World) : list StreamRun :=
  match models with
  | [] => []
  | entry :: rest =>
      match providers router !! entry_provider entry with
      | None => streamRuns router request rest w
      | Some adapter =>
          let '(run, w1) := stream adapter (withModel request (entry_model entry)) w in
          match failure run with
          | None => [run]
          | Some _ => run :: streamRuns router request rest w1
          end
      end
  end.

(** The chunks of the [i]-th and later runs as [routeStream] yields them
    when [n] attempts were logged before the first of them. *)
Fixpoint stampedFrom (n : Z) (runs : list StreamRun) : list StreamChunk :=
  match runs with
  | [] => []
  | run :: rest => map (stampChunk n) (produced run) ++ stampedFrom (n + 1) rest
  end.

(** How the callback of [tracer.trace], and [trace] itself, end: by
    returning a value, by throwing an object whose fields can be read,
    or by throwing [undefined] or [null]. *)
Inductive FnOutcome (A : Type) :=
| FnReturns (value : A)
| FnThrows (error : JsError)
| FnThrowsNullish (v : Nullish).

Arguments FnReturns {A} value.
Arguments FnThrows {A} error.
Arguments FnThrowsNullish {A} v.

(** [tracer.trace(name, fn, attributes, options)].  The callback acts on
    the store; [envStart], [envCatch] and [envEnd] are the readings of
    [startSpan], of [recordException] and of [end()].  When the callback
    throws [undefined] or [null], [recordException] throws in its turn
    as it reads [error.message], before it has called [setStatus]: that
    [TypeError] is what [trace] throws, once [finally] has ended the
    span. *)
Definition trace {A : Type} (envStart envCatch envEnd : Env) (name : string)
    (fn : SpanRef -> Store -> FnOutcome A * Store)
    (attrs : option (gmap string JsValue))
    (parentContext : option SpanContext) (traceIdOption : option string)
    (st : Store) : FnOutcome A * Store :=
  let '(span, st1) := startSpan envStart name attrs parentContext traceIdOption st in
  let '(outcome, st2) := fn span st1 in
  let '(outcome', st3) :=
    match outcome with
    | FnReturns _ => (outcome, setStatus span FinalOk None st2)
    | FnThrows error => (outcome, recordException envCatch span error st2)
    | FnThrowsNullish v => (FnThrows (typeErrorReading v "message"), st2)
    end in
  (outcome', Span_end envEnd span st3).

(** The spans on which a sequence of calls calls [end()], call by call. *)
Definition endedRefs (steps : list (Env * SpanOp)) : list SpanRef :=
  omap (fun step => match snd step with OpEnd r => Some r | _ => None end) steps.

(** The tracer records every span that ends: it is enabled and either
    has no sampling rate or one that every draw of the calls falls
    under. *)
Definition samplesAll (cfg : TracingConfig) (steps : list (Env * SpanOp)) : Prop :=
  cfg_enabled cfg = true /\
  match cfg_sampleRate cfg with
  | None => True
  | Some rate => Forall (fun step => (draw (fst step) < rate)%Q) steps
  end.

(** The tracer records no span: it is disabled, or its sampling rate is
    at most 0 while the draws are, as those of [Math.random()], at least
    0. *)
Definition samplesNone (cfg : TracingConfig) (steps : list (Env * SpanOp)) : Prop :=
  cfg_enabled cfg = false \/
  exists rate, cfg_sampleRate cfg = Some rate /\ (rate <= 0)%Q /\
               Forall (fun step => (0 <= draw (fst step))%Q) steps.

(** No call of the sequence is the rejection of a pending export. *)
Definition noRejectedFetch (steps : list (Env * SpanOp)) : Prop :=
  Forall (fun step => snd step <> OpFetchSettled true) steps.

Definition noClearSpans (steps : list (Env * SpanOp)) : Prop :=
  Forall (fun step => snd step <> OpClearSpans) steps.

(** The clock reading of the last call, [t] when there is none. *)
Definition lastClock (t : Z) (steps : list (Env * SpanOp)) : Z :=
  fold_left (fun _ step => clock (fst step)) steps t.

(** A call that sets the status of span [r]. *)
Definition setsStatusOf (r : SpanRef) (op : SpanOp) : Prop :=
  match op with
  | OpSetStatus r' _ _ | OpRecordException r' _ => r' = r
  | _ => False
  end.

(** ** Usage statistics ([src/orchestra.ts]) *)

Record ProviderStats := mkProviderStats {
  ps_requests : Z;
  ps_tokensInput : Z;
  ps_tokensOutput : Z;
  ps_cost : Q;
  ps_avgLatencyMs : Q
}.

Record ModelStats := mkModelStats {
  ms_requests : Z;
  ms_tokensInput : Z;
  ms_tokensOutput : Z;
  ms_cost : Q
}.

Record OrchestraStats := mkStats {
  stats_totalRequests : Z;
  stats_tokensInput : Z;
  stats_tokensOutput : Z;
  stats_totalCost : Q;
  stats_byProvider : gmap ProviderName ProviderStats;
  stats_byModel : gmap string ModelStats
}.

(** [initStats()] *)
Definition initStats : OrchestraStats := mkStats 0 0 0 0 ∅ ∅.

(** [updateStats(meta)].  The counters and the token sums are integers
    kept in doubles: [++] and [+=] round as [jsAdd] does.  Costs and the
    running average, which are fractions, are exact rationals here; no
    property below is about them. *)
Definition updateStats (meta : CompletionMeta) (stats : OrchestraStats)
  : OrchestraStats :=
  let tokens := meta_tokens meta in
  let providerStats :=
    default (mkProviderStats 0 0 0 0 0) (stats_byProvider stats !! meta_provider meta) in
  let requests' := jsAdd (ps_requests providerStats) 1 in
  let providerStats' :=
    mkProviderStats requests'
      (jsAdd (ps_tokensInput providerStats) (inputTokens tokens))
      (jsAdd (ps_tokensOutput providerStats) (outputTokens tokens))
      (ps_cost providerStats + meta_cost meta)
      ((ps_avgLatencyMs providerStats * inject_Z (ps_requests providerStats)
        + inject_Z (meta_latencyMs meta)) / inject_Z requests') in
  let modelStats :=
    default (mkModelStats 0 0 0 0) (stats_byModel stats !! meta_model meta) in
  let modelStats' :=
    mkModelStats (jsAdd (ms_requests modelStats) 1)
      (jsAdd (ms_tokensInput modelStats) (inputTokens tokens))
      (jsAdd (ms_tokensOutput modelStats) (outputTokens tokens))
      (ms_cost modelStats + meta_cost meta) in
  mkStats (jsAdd (stats_totalRequests stats) 1)
    (jsAdd (stats_tokensInput stats) (inputTokens tokens))
    (jsAdd (stats_tokensOutput stats) (outputTokens tokens))
    (stats_totalCost stats + meta_cost meta)
    (<[meta_provider meta := providerStats']> (stats_byProvider stats))
    (<[meta_model meta := modelStats']> (stats_byModel stats)).

(** The statistics after the completions whose metadata is [metas], in
    order, from fresh statistics. *)
Definition statsAfter (metas : list CompletionMeta) : OrchestraStats :=
  fold_left (fun stats meta => updateStats meta stats) metas initStats.

(** ** More routers and tracers for the examples *)

(** The first call is rate limited, the second answers. *)
Definition recoveringRouter : Router :=
  testRouter
    [(anthropic, scripted anthropic [Rejects rateLimitError]
                   (Resolves (sampleResponse anthropic)) (mkStreamRun [] None))].

(** A router whose retry budget is negative. *)
Definition noBudgetRouter : Router :=
  newRouter
    (mkRouterConfig _
       (list_to_map [(anthropic, flakyAnthropic)])
       (Some (mkPartialRetry (Some (-1)%Q) None None None None))
       None).

(** The retry settings of the configuration test ("retry config"), whose
    multiplier is 1.5, and a router whose budget is no whole number. *)
Definition suiteRetry : RetryConfig :=
  mkRetry 5%Q 500%Q 10000%Q (3 # 2)%Q ["RATE_LIMIT"; "TIMEOUT"]%string.

Definition fractionalBudgetRouter : Router :=
  newRouter
    (mkRouterConfig _
       (list_to_map [(anthropic, flakyAnthropic)])
       (Some (mkPartialRetry (Some (3 # 2)%Q) (Some 10%Q) (Some 50%Q) (Some 2%Q) None))
       (Some 5000)).

(** An adapter whose calls never settle. *)
Definition hangingAnthropic : ProviderAdapter :=
  scripted anthropic [] Pending (mkStreamRun [] None).

Definition hangingRouter : Router := testRouter [(anthropic, hangingAnthropic)].

(** The first call is rate limited, the second rejects with
    [undefined]. *)
Definition nullishRouter : Router :=
  testRouter
    [(anthropic, scripted anthropic [Rejects rateLimitError]
                   (RejectsNullish NullishUndefined) (mkStreamRun [] None))].

(** The calls of the first adapter time out, those of the second are
    rate limited. *)
Definition timeoutThenRateLimitRouter : Router :=
  testRouter [(anthropic, hangingAnthropic); (openai, steadyOpenai)].

(** An error that carries an HTTP status code and no [code]. *)
Definition serviceUnavailable : JsError :=
  mkError "Error" (JsString "Service unavailable") JsUndefined JsUndefined
    (JsNumber 503) None.

Definition exportingTracer : Store :=
  newTracer (mkTracingConfig true (Some "http://collector/spans"%string) None None).

Definition unsampledTracerConfig : TracingConfig :=
  mkTracingConfig true None (Some 0%Q) None.

(** A callback for the examples: it adds an event and throws. *)
Definition failingCallback (r : SpanRef) (st : Store) : FnOutcome unit * Store :=
  (FnThrows networkError, addEvent (testEnv 3) r "working" None st).

(** The sum of an integer field over completions. *)
Definition sumOf (f : CompletionMeta -> Z) (metas : list CompletionMeta) : Z :=
  foldr (fun meta total => f meta + total) 0 metas.

(** The counters kept for a provider or a model: requests, input tokens,
    output tokens. *)
Definition providerCounters (stats : OrchestraStats) (provider : ProviderName)
  : option (Z * Z * Z) :=
  (fun ps => (ps_requests ps, ps_tokensInput ps, ps_tokensOutput ps))
    <$> stats_byProvider stats !! provider.

Definition modelCounters (stats : OrchestraStats) (model : string)
  : option (Z * Z * Z) :=
  (fun ms => (ms_requests ms, ms_tokensInput ms, ms_tokensOutput ms))
    <$> stats_byModel stats !! model.

(** The counters that completions [metas] amount to: none when there is
    no completion. *)
Definition countersOf (metas : list CompletionMeta) : option (Z * Z * Z) :=
  match metas with
  | [] => None
  | _ => Some (Z.of_nat (length metas),
               sumOf (fun meta => inputTokens (meta_tokens meta)) metas,
               sumOf (fun meta => outputTokens (meta_tokens meta)) metas)
  end.

(** Completions whose token counts are not negative and whose number
    and token totals are safe integers, so that no counter is rounded. *)
Definition safeTotals (metas : list CompletionMeta) : Prop :=
  Forall (fun meta => 0 <= inputTokens (meta_tokens meta) /\
                      0 <= outputTokens (meta_tokens meta)) metas /\
  Z.of_nat (length metas) <= MAX_SAFE_INTEGER /\
  sumOf (fun meta => inputTokens (meta_tokens meta)) metas <= MAX_SAFE_INTEGER /\
  sumOf (fun meta => outputTokens (meta_tokens meta)) metas <= MAX_SAFE_INTEGER.

Definition byProviderOf (provider : ProviderName) (metas : list CompletionMeta)
  : list CompletionMeta :=
  List.filter (fun meta => bool_decide (meta_provider meta = provider)) metas.

Definition byModelOf (model : string) (metas : list CompletionMeta)
  : list CompletionMeta :=
  List.filter (fun meta => bool_decide (meta_model meta = model)) metas.

(** * Properties *)

(** ** Strings *)

Lemma append_nil (s : string) : (EmptyString +:+ s)%string = s.
Proof. reflexivity. Qed.

Lemma append_cons (c : Ascii.ascii) (s t : string) :
  (String c s +:+ t)%string = String c (s +:+ t)%string.
Proof. reflexivity. Qed.

Lemma prefix_append (p s : string) :
  String.prefix p s = true <-> exists post, s = (p +:+ post)%string.
Proof.
  revert s. induction p as [|c p IH]; intros s.
  - split; [intros _; by exists s | by destruct s].
  - destruct s as [|d s]; simpl.
    + split; [done | intros [post Hpost]; discriminate].
    + destruct (Ascii.ascii_dec c d) as [->|Hne].
      * rewrite IH. split; intros [post Hpost]; exists post;
          rewrite ?append_cons in *; congruence.
      * split; [done | intros [post Hpost]; rewrite append_cons in Hpost; congruence].
Qed.

Lemma Substring_cons (tok : string) (c : Ascii.ascii) (s : string) :
  Substring tok (String c s) <->
  (exists post, String c s = (tok +:+ post)%string) \/ Substring tok s.
Proof.
  split.
  - intros ([|d pre] & post & Heq).
    + left. by exists post.
    + right. exists pre, post. rewrite append_cons in Heq. congruence.
  - intros [[post Heq] | (pre & post & Heq)].
    + by exists EmptyString, post.
    + exists (String c pre), post. rewrite append_cons. congruence.
Qed.

Lemma includes_nil (tok : string) :
  includes EmptyString tok = String.prefix tok EmptyString || false.
Proof. reflexivity. Qed.

Lemma includes_cons (c : Ascii.ascii) (s tok : string) :
  includes (String c s) tok = String.prefix tok (String c s) || includes s tok.
Proof. reflexivity. Qed.

Lemma includes_Substring (s tok : string) :
  includes s tok = true <-> Substring tok s.
Proof.
  induction s as [|c s IH].
  - rewrite includes_nil, orb_false_r, prefix_append. split.
    + intros [post Heq]. by exists EmptyString, post.
    + intros ([|d pre] & post & Heq); [by exists post | discriminate].
  - rewrite includes_cons, orb_true_iff, prefix_append, IH, Substring_cons. tauto.
Qed.

Lemma isRetryable_Substring (cfg : RetryConfig) (error : JsError) :
  isRetryable cfg error = true <->
  exists code, In code (retryableErrors cfg) /\
    (Substring code (errorCode error) \/
     Substring code (errorStatus error) \/
     Substring code (errorMessage error)).
Proof.
  unfold isRetryable. rewrite existsb_exists.
  split; intros (code & Hin & Hc); exists code; split; try done.
  - rewrite !orb_true_iff, !includes_Substring in Hc. tauto.
  - rewrite !orb_true_iff, !includes_Substring. tauto.
Qed.

(** ** The retry budget *)

Lemma lastAllowed_floor (cfg : RetryConfig) (retry : Z) :
  Qeq_bool (inject_Z retry) (maxRetries cfg) = true ->
  Qfloor (maxRetries cfg) = retry.
Proof.
  intros Heq. apply Qeq_bool_iff in Heq.
  rewrite <- (Qfloor_comp _ _ Heq). apply Qfloor_Z.
Qed.



Lemma iterations_negative (cfg : RetryConfig) :
  (maxRetries cfg < 0)%Q -> iterations cfg = 0%nat.
Proof.
  intros Hneg. unfold iterations.
  assert (Hfloor : Qfloor (maxRetries cfg) < 0).
  { rewrite Zlt_Qlt. eapply Qle_lt_trans; [apply Qfloor_le | exact Hneg]. }
  lia.
Qed.

Lemma iterations_nonnegative (cfg : RetryConfig) :
  (0 <= maxRetries cfg)%Q ->
  Z.of_nat (iterations cfg) = Qfloor (maxRetries cfg) + 1.
Proof.
  intros Hle. unfold iterations.
  pose proof (Qfloor_resp_le 0 (maxRetries cfg) Hle) as Hfloor.
  change (Qfloor 0) with 0 in Hfloor. lia.
Qed.

Lemma backoffDelay_capped (cfg : RetryConfig) (retry : Z) :
  (backoffDelay cfg retry <= maxDelayMs cfg)%Q.
Proof. apply Q.le_min_r. Qed.

(** ** The retry loop *)

Section RetryLoop.
Context `{Runtime}.
Variables (router : Router) (adapter : ProviderAdapter).
Variables (request : CompletionRequest) (entry : ChainEntry).

Local Abbreviation cfg := (retryConfig router).
Local Abbreviation call := (withModel request (entry_model entry)).
Local Abbreviation callEffect := (CallComplete (entry_provider entry) call).
Local Abbreviation loop := (retryLoop router adapter request entry).

Lemma arrayLength_app {A} (l1 l2 : list A) :
  arrayLength (l1 ++ l2) = arrayLength l1 + arrayLength l2.
Proof. unfold arrayLength. rewrite length_app. lia. Qed.

Lemma setFailoverAttempts_again (response : CompletionResponse) (a b : Z) :
  setFailoverAttempts (setFailoverAttempts response a) b
  = setFailoverAttempts response b.
Proof. reflexivity. Qed.

(** The log handed to the loop is only ever extended at its end: the
    attempts made earlier are carried along untouched. *)
Lemma retryLoop_earlier (n : nat) :
  forall retry acc pre w,
    loop n retry (acc ++ pre) w =
    let '(exit, w', fx) := loop n retry pre w in (withEarlier acc exit, w', fx).
Proof.
  induction n as [|n IH]; intros retry acc pre w; simpl; [done|].
  destruct (complete adapter _ w) as [promise w0].
  destruct (executeWithTimeout promise _ w0) as [[response|error|v] w1]; simpl.
  - rewrite arrayLength_app, <- app_assoc. reflexivity.
  - destruct (negb _ || _).
    + by rewrite <- app_assoc.
    + rewrite <- app_assoc, IH.
      by destruct (retryLoop router adapter request entry n (retry + 1) _ _)
        as [[exit w2] fx].
  - done.
Qed.






(** What one run of the loop adds to the log and does to the world,
    whatever the budget: failed attempts on the entry, then at most one
    successful one; one call for each attempt, and one more when the
    [catch] block throws; no more sleeps than failed attempts, none
    longer than [maxDelayMs]. *)
Lemma retryLoop_log (n : nat) :
  forall retry acc w exit w' fx,
    loop n retry acc w = (exit, w', fx) ->
    exists failed,
      Forall failedAttempt failed /\
      Forall (namesEntry entry) failed /\
      Forall (fun d => (d <= maxDelayMs cfg)%Q) (sleepsOf fx) /\
      (length (sleepsOf fx) <= length failed)%nat /\
      Forall (fun e => e = callEffect) (callsOf fx) /\
      (length (callsOf fx) <= n)%nat /\
      match exit with
      | ExitBreak attempts =>
          attempts = acc ++ failed /\
          length (callsOf fx) = length failed
      | ExitReturn result =>
          exists succ,
            rr_attempts result = acc ++ failed ++ [succ] /\
            att_success succ = true /\ att_error succ = None /\
            namesEntry entry succ /\
            meta_failoverAttempts (resp_meta (rr_response result))
              = arrayLength (acc ++ failed) /\
            length (callsOf fx) = S (length failed)
      | ExitThrow error attempts =>
          attempts = acc ++ failed /\
          (exists v, error = typeErrorReading v "code") /\
          length (callsOf fx) = S (length failed)
      end.
Proof.
  induction n as [|n IH]; intros retry acc w exit w' fx Hrun; simpl in Hrun.
  { injection Hrun as <- <- <-. exists []. rewrite app_nil_r. by repeat split. }
  destruct (complete adapter _ w) as [promise w0].
  destruct (executeWithTimeout promise _ w0) as [[response|error|v] w1];
    simpl in Hrun.
  - injection Hrun as <- <- <-. exists [].
    split; [done|]. split; [done|]. split; [done|]. split; [done|].
    split; [by repeat constructor|]. split; [simpl; lia|].
    eexists. simpl. rewrite app_nil_r. by repeat split.
  - set (first := mkAttempt _ _ false (Some error) _) in Hrun.
    assert (Hfirst : failedAttempt first /\ namesEntry entry first)
      by (by repeat split).
    destruct Hfirst as [Hfailed Hnames].
    destruct (negb (isRetryable cfg error) || Qeq_bool _ _).
    + injection Hrun as <- <- <-. exists [first].
      split; [by repeat constructor|]. split; [by repeat constructor|].
      split; [done|]. split; [simpl; lia|].
      split; [by repeat constructor|]. split; [simpl; lia|]. by split.
    + destruct (retryLoop router adapter request entry n (retry + 1) _ _)
        as [[exit1 w2] fx1] eqn:Hrest.
      injection Hrun as <- <- <-.
      destruct (IH _ _ _ _ _ _ Hrest)
        as (failed & Hf & Hn & Hs & Hls & Hc & Hcn & Hexit).
      exists (first :: failed).
      change (callsOf (callEffect :: Sleep (backoffDelay cfg retry) :: fx1))
        with (callEffect :: callsOf fx1).
      change (sleepsOf (callEffect :: Sleep (backoffDelay cfg retry) :: fx1))
        with (backoffDelay cfg retry :: sleepsOf fx1).
      cbn [length].
      split; [by constructor|]. split; [by constructor|].
      split; [constructor; [apply backoffDelay_capped | done]|].
      split; [lia|].
      split; [by constructor|].
      split; [lia|].
      destruct exit1 as [result|attempts|thrown attempts].
      * destruct Hexit as (succ & Hatts & Hs1 & Hs2 & Hs3 & Hmeta & Hcalls).
        exists succ. rewrite <- app_assoc in Hatts, Hmeta. simpl in Hatts, Hmeta.
        split; [done|]. split; [done|]. split; [done|]. split; [done|].
        split; [done|]. lia.
      * destruct Hexit as (Hatts & Hcalls). rewrite <- app_assoc in Hatts.
        simpl in Hatts. split; [done|]. lia.
      * destruct Hexit as (Hatts & Hv & Hcalls). rewrite <- app_assoc in Hatts.
        simpl in Hatts. split; [done|]. split; [done|]. lia.
  - injection Hrun as <- <- <-. exists [].
    split; [done|]. split; [done|]. split; [done|]. split; [done|].
    split; [by repeat constructor|]. split; [simpl; lia|].
    rewrite app_nil_r. split; [done|]. split; [by exists v|done].
Qed.

(** An adapter that always fails with a retryable error uses up the
    whole budget of the loop. *)
Lemma retryLoop_always_fails (n : nat) :
  alwaysFailsRetryable router adapter request entry ->
  forall retry acc w,
    Z.of_nat n = Qfloor (maxRetries cfg) + 1 - retry ->
    exists seg w' fx,
      loop n retry acc w = (ExitBreak (acc ++ seg), w', fx) /\
      length seg = n /\
      Forall (fun a => att_success a = false /\
                       att_provider a = entry_provider entry /\
                       att_model a = entry_model entry) seg /\
      callsOf fx = replicate n callEffect.
Proof.
  intros Hfails. induction n as [|n IH]; intros retry acc w Hn.
  { exists [], w, []. by rewrite app_nil_r. }
  simpl. destruct (Hfails w) as (error & Hcall).
  destruct (complete adapter _ w) as [promise w0].
  destruct (executeWithTimeout promise _ w0) as [settled w1].
  destruct Hcall as [Hcall Hretryable]. simpl in Hcall. subst settled.
  rewrite Hretryable. simpl.
  destruct (Qeq_bool (inject_Z retry) (maxRetries cfg)) eqn:Hlast.
  - apply lastAllowed_floor in Hlast. assert (n = 0%nat) as -> by lia.
    eexists [_], w1, _. split; [done|]. repeat constructor.
  - destruct (IH (retry + 1)
                (acc ++ [mkAttempt (entry_provider entry) (entry_model entry) false
                           (Some error) (now w1 - now w)])
                (sleep (backoffDelay cfg retry) w1))
      as (seg & w' & fx & Hloop & Hlen & Hall & Hcalls); [lia|].
    rewrite Hloop, <- app_assoc.
    eexists (_ :: seg), w', (callEffect :: Sleep (backoffDelay cfg retry) :: fx).
    split; [done|].
    split; [simpl; lia|]. split; [by repeat constructor|].
    unfold callsOf in *. cbn [omap list_omap]. by rewrite Hcalls.
Qed.
End RetryLoop.

(** ** The chain loop of [route] *)

Section Route.
Context `{Runtime}.
Variables (router : Router) (request : CompletionRequest).

Local Abbreviation cfg := (retryConfig router).
Local Abbreviation callOf := (fun entry : ChainEntry =>
  CallComplete (entry_provider entry) (withModel request (entry_model entry))).

Lemma tryEntry_earlier (entry : ChainEntry) (acc pre : list Attempt) (w : World) :
  tryEntry router request entry (acc ++ pre) w =
  let '(exit, w', fx) := tryEntry router request entry pre w in
  (withEarlier acc exit, w', fx).
Proof.
  unfold tryEntry. destruct (providers router !! _) as [adapter|].
  - apply retryLoop_earlier.
  - simpl. by rewrite <- app_assoc.
Qed.

Lemma tryEntry_break (entry : ChainEntry) (acc seg : list Attempt)
    (w w' : World) (fx : list Effect) :
  tryEntry router request entry [] w = (ExitBreak seg, w', fx) ->
  tryEntry router request entry acc w = (ExitBreak (acc ++ seg), w', fx).
Proof.
  intros Hrun. rewrite <- (app_nil_r acc) at 1.
  by rewrite tryEntry_earlier, Hrun.
Qed.

(** What the body of the chain loop adds to the log and does to the
    world, for one entry. *)
Lemma tryEntry_log (entry : ChainEntry) :
  forall acc w exit w' fx,
    tryEntry router request entry acc w = (exit, w', fx) ->
    exists failed,
      Forall failedAttempt failed /\
      Forall (namesEntry entry) failed /\
      Forall (fun d => (d <= maxDelayMs cfg)%Q) (sleepsOf fx) /\
      (length (sleepsOf fx) <= length failed)%nat /\
      Forall (fun e => e = callOf entry) (callsOf fx) /\
      (length (callsOf fx) <= iterations cfg)%nat /\
      (configured router entry = false ->
       failed = [notConfiguredAttempt entry] /\ fx = []) /\
      match exit with
      | ExitBreak attempts =>
          attempts = acc ++ failed /\
          (length failed <= attemptsPerEntry cfg)%nat /\
          (configured router entry = true -> length (callsOf fx) = length failed)
      | ExitReturn result =>
          exists succ,
            rr_attempts result = acc ++ failed ++ [succ] /\
            att_success succ = true /\ att_error succ = None /\
            namesEntry entry succ /\
            meta_failoverAttempts (resp_meta (rr_response result))
              = arrayLength (acc ++ failed) /\
            (S (length failed) <= attemptsPerEntry cfg)%nat /\
            length (callsOf fx) = S (length failed)
      | ExitThrow error attempts =>
          attempts = acc ++ failed /\
          (exists v, error = typeErrorReading v "code") /\
          length (callsOf fx) = S (length failed)
      end.
Proof.
  intros acc w exit w' fx. unfold tryEntry, attemptsPerEntry, configured.
  destruct (providers router !! _) as [adapter|].
  - intros Hrun.
    destruct (retryLoop_log router adapter request entry _ _ _ _ _ _ _ Hrun)
      as (failed & Hf & Hn & Hs & Hls & Hc & Hcn & Hexit).
    exists failed. repeat (split; [done|]).
    destruct exit as [result|attempts|thrown attempts].
    + destruct Hexit as (succ & Hatts & Hs1 & Hs2 & Hs3 & Hmeta & Hcalls).
      exists succ. repeat (split; [done|]). split; [lia|done].
    + destruct Hexit as (Hatts & Hcalls). split; [done|]. split; [lia|done].
    + done.
  - intros Hrun. injection Hrun as <- <- <-.
    exists [notConfiguredAttempt entry].
    split; [repeat constructor; by eexists|]. split; [by repeat constructor|].
    split; [constructor|]. split; [simpl; lia|]. split; [constructor|].
    split; [simpl; lia|]. split; [done|].
    split; [done|]. split; [simpl; lia|done].
Qed.

(** When every entry fails, the chain loop throws the whole log. *)
Lemma routeChain_fails (models : list ChainEntry) (w w' : World)
    (segs : list (list Attempt)) :
  chainFails router request models w segs w' ->
  forall acc, exists fx,
    routeChain router request models acc w =
    (Throws (ThrowAllProvidersFailed
               (newAllProvidersFailedError (failureAttempts (acc ++ concat segs)))),
     w', fx).
Proof.
  induction 1 as [w|entry rest w seg w1 fx segs w2 Hentry _ IH]; intros acc; simpl.
  - exists []. by rewrite app_nil_r.
  - rewrite (tryEntry_break _ acc _ _ _ _ Hentry).
    destruct (IH (acc ++ seg)) as [fx' Hrest]. rewrite Hrest.
    exists (fx ++ fx'). by rewrite <- app_assoc.
Qed.

(** The chain loop throws the all-failed error only when every entry
    failed; the only other thing it throws is the [TypeError] of a
    [catch] block. *)
Lemma routeChain_throws (models : list ChainEntry) :
  forall acc w thrown w' fx,
    routeChain router request models acc w = (Throws thrown, w', fx) ->
    (exists v, thrown = ThrowError (typeErrorReading v "code")) \/
    exists segs,
      chainFails router request models w segs w' /\
      thrown = ThrowAllProvidersFailed
                 (newAllProvidersFailedError (failureAttempts (acc ++ concat segs))).
Proof.
  induction models as [|entry rest IH]; intros acc w thrown w' fx Hrun; simpl in Hrun.
  - injection Hrun as <- <- <-. right. exists []. split; [constructor|].
    by rewrite app_nil_r.
  - rewrite <- (app_nil_r acc) in Hrun at 1. rewrite tryEntry_earlier in Hrun.
    destruct (tryEntry router request entry [] w)
      as [[[result|seg|error log] w1] fx1] eqn:Hentry; simpl in Hrun; [done| |].
    + destruct (routeChain router request rest (acc ++ seg) w1)
        as [[outcome w2] fx2] eqn:Hrest.
      injection Hrun as -> <- <-.
      destruct (IH _ _ _ _ _ Hrest) as [Htype|(segs & Hfails & ->)]; [by left|].
      right. exists (seg :: segs). split; [by econstructor|].
      simpl. by rewrite app_assoc.
    + injection Hrun as <- <- <-. left.
      destruct (tryEntry_log entry _ _ _ _ _ Hentry) as (? & _ & _ & _ & _ & _ & _ & _ & Hexit).
      destruct Hexit as (_ & [v ->] & _). by exists v.
Qed.

Lemma length_concat_sum (segs : list (list Attempt)) :
  length (concat segs) = sum_list (length <$> segs).
Proof.
  induction segs as [|seg segs IH]; simpl; [done|].
  by rewrite length_app, IH.
Qed.

(** The attempts of entries that failed are failures that carry their
    error, each on the entry it was made for. *)
Lemma chainFails_failed (models : list ChainEntry) (w w' : World)
    (segs : list (list Attempt)) :
  chainFails router request models w segs w' ->
  Forall failedAttempt (concat segs) /\
  Forall2 (fun entry seg => Forall (namesEntry entry) seg) models segs.
Proof.
  induction 1 as [w|entry rest w seg w1 fx segs w2 Hentry _ [IHf IHn]]; simpl.
  - by split.
  - destruct (tryEntry_log entry _ _ _ _ _ Hentry)
      as (failed & Hf & Hn & _ & _ & _ & _ & _ & Hexit).
    destruct Hexit as (-> & _). simpl.
    split; [by apply Forall_app | by constructor].
Qed.

(** C4: when every chain entry leaves its retry loop without a success,
    [route] throws [AllProvidersFailedError].  The attempts of the error
    are the attempts of all the entries, entry after entry and in the
    order they were made: each carries the provider, the model, the
    error and the latency of the attempt it stands for and is marked as
    failed; so there are as many as the entries made altogether, and the
    message lists them in that order. *)
Theorem route_all_failed (w w' : World) (segs : list (list Attempt))
    (Hfail : chainFails router request (buildModelChain request) w segs w') :
  exists err fx,
    route router request w = (Throws (ThrowAllProvidersFailed err), w', fx) /\
    apf_name err = "AllProvidersFailedError"%string /\
    Forall2 (fun failed attempt =>
               fa_provider failed = att_provider attempt /\
               fa_model failed = att_model attempt /\
               att_error attempt = Some (fa_error failed) /\
               fa_latencyMs failed = att_latencyMs attempt /\
               fa_success failed = false /\
               att_success attempt = false)
            (apf_attempts err) (concat segs) /\
    length (apf_attempts err) = sum_list (length <$> segs) /\
    Forall2 (fun entry seg => Forall (namesEntry entry) seg)
            (buildModelChain request) segs /\
    apf_message err =
      ("All providers failed: " +:+
       join ", " (map (fun a => providerString (att_provider a) +:+ "/" +:+ att_model a)
                      (concat segs)))%string.
Proof.
  destruct (routeChain_fails _ _ _ _ Hfail []) as [fx Hrun].
  destruct (chainFails_failed _ _ _ _ Hfail) as [Hfailed Hnames].
  eexists _, fx. split; [exact Hrun|]. simpl.
  split; [done|].
  split.
  { unfold failureAttempts. apply Forall2_fmap_l, Forall_Forall2_diag.
    eapply Forall_impl; [exact Hfailed|].
    intros a [Hsuccess [error Herror]]. simpl. rewrite Herror. by repeat split. }
  split; [unfold failureAttempts; by rewrite length_map, length_concat_sum|].
  split; [done|].
  unfold failureAttempts. by rewrite map_map.
Qed.

(** C5: an entry whose adapter is configured and whose call always
    fails with a retryable error gets as many attempts as the budget
    allows, [floor(maxRetries) + 1], which is [maxRetries + 1] for the
    integer a count of retries is; all of them failed and all made on its
    adapter, and [route] then goes on with the next entry. *)
Theorem always_retryable_uses_budget (adapter : ProviderAdapter)
    (entry : ChainEntry) (attempts : list Attempt) (w : World)
    (Hconfigured : providers router !! entry_provider entry = Some adapter)
    (Hbudget : (0 <= maxRetries cfg)%Q)
    (Hfails : alwaysFailsRetryable router adapter request entry) :
  exists seg w' fx,
    tryEntry router request entry attempts w = (ExitBreak (attempts ++ seg), w', fx) /\
    Z.of_nat (length seg) = Qfloor (maxRetries cfg) + 1 /\
    (forall m : Z, (maxRetries cfg == inject_Z m)%Q ->
       Z.of_nat (length seg) = m + 1) /\
    Forall (fun a => att_success a = false /\
                     att_provider a = entry_provider entry /\
                     att_model a = entry_model entry) seg /\
    callsOf fx = replicate (length seg)
                   (CallComplete (entry_provider entry)
                      (withModel request (entry_model entry))) /\
    forall rest,
      routeChain router request (entry :: rest) attempts w =
      let '(outcome, w2, fx') :=
        routeChain router request rest (attempts ++ seg) w' in
      (outcome, w2, fx ++ fx').
Proof.
  pose proof (iterations_nonnegative cfg Hbudget) as Hiter.
  destruct (retryLoop_always_fails router adapter request entry
              (iterations cfg) Hfails 0 attempts w)
    as (seg & w' & fx & Hloop & Hlen & Hall & Hcalls); [lia|].
  assert (Hentry : tryEntry router request entry attempts w
                   = (ExitBreak (attempts ++ seg), w', fx)).
  { unfold tryEntry. by rewrite Hconfigured. }
  exists seg, w', fx. split; [done|].
  split; [lia|].
  split.
  { intros m Hm. rewrite Hlen, Hiter, (Qfloor_comp _ _ Hm), Qfloor_Z. done. }
  split; [done|].
  split; [by rewrite Hlen|].
  intros rest. simpl. by rewrite Hentry.
Qed.
End Route.

(** ** Backoff, classification and the empty chain *)

Section Policy.
Context `{Runtime}.
Variables (router : Router) (request : CompletionRequest).

Local Abbreviation cfg := (retryConfig router).
Local Abbreviation callOf := (fun entry : ChainEntry =>
  CallComplete (entry_provider entry) (withModel request (entry_model entry))).
Local Abbreviation delayFormula := (fun k : nat =>
  Qmin (initialDelayMs cfg * backoffMultiplier cfg ^ Z.of_nat k) (maxDelayMs cfg)).




(** C7: an error is retryable exactly when one of the configured tokens
    occurs in [String(code)] (when there is a [code]), in
    [String(status ?? statusCode)] (when there is one of them), or in the
    message (when it is a string); the empty token occurs in every
    string, also in the empty one that stands for an absent field.
    Numbers are printed in full, as the source prints those below
    [10^21].  So with no token configured no error is retryable, and an
    entry is tried once: at most one call is made, one attempt is logged
    and nothing is slept. *)
Theorem retryable_iff_token_found (entry : ChainEntry) (attempts : list Attempt)
    (w : World) (error : JsError)
    (Hcode : plainValue (err_code error))
    (Hstatus : plainValue (nullish (err_status error) (err_statusCode error))) :
  (isRetryable cfg error = true <->
   exists token, In token (retryableErrors cfg) /\
     (token = EmptyString \/
      (err_code error <> JsUndefined /\
       Substring token (JsString_of (err_code error))) \/
      (nullish (err_status error) (err_statusCode error) <> JsUndefined /\
       Substring token
         (JsString_of (nullish (err_status error) (err_statusCode error)))) \/
      (exists message, err_message error = JsString message /\
                       Substring token message))) /\
  (retryableErrors cfg = [] -> isRetryable cfg error = false) /\
  (retryableErrors cfg = [] -> (0 <= maxRetries cfg)%Q ->
   exists exit w' fx,
     tryEntry router request entry attempts w = (exit, w', fx) /\
     sleepsOf fx = [] /\
     callsOf fx =
       match providers router !! entry_provider entry with
       | Some _ => [callOf entry]
       | None => []
       end /\
     match exit with
     | ExitThrow _ log => log = attempts
     | _ => exists a, exitAttempts exit = attempts ++ [a]
     end).
Proof.
  assert (Hempty : forall s token, s = EmptyString ->
            (Substring token s <-> token = EmptyString)).
  { intros s token ->. split.
    - intros ([|c pre] & post & Heq); [|discriminate].
      rewrite append_nil in Heq. by destruct token.
    - intros ->. by exists EmptyString, EmptyString. }
  assert (Hany : forall s, Substring EmptyString s)
    by (intros s; by exists EmptyString, s).
  split.
  { rewrite isRetryable_Substring.
    split; intros (token & Hin & Hfound); exists token; (split; [done|]).
    - destruct (decide (token = EmptyString)) as [->|Hne]; [by left|right].
      destruct Hfound as [Hc|[Hs|Hm]].
      + left. unfold errorCode in Hc.
        destruct (err_code error) eqn:Hraw; try (split; [done|exact Hc]).
        by apply Hempty in Hc.
      + right. left. unfold errorStatus in Hs.
        destruct (nullish _ _) eqn:Hraw; try (split; [done|exact Hs]).
        by apply Hempty in Hs.
      + right. right. unfold errorMessage in Hm.
        destruct (err_message error) eqn:Hraw;
          try (by apply Hempty in Hm). by exists s.
    - destruct Hfound as [->|[[Hdef Hc]|[[Hdef Hs]|(message & Hraw & Hm)]]].
      + left. apply Hany.
      + left. unfold errorCode. by destruct (err_code error).
      + right. left. unfold errorStatus. by destruct (nullish _ _).
      + right. right. unfold errorMessage. by rewrite Hraw. }
  assert (Hnever : retryableErrors cfg = [] -> forall e, isRetryable cfg e = false).
  { intros Hnone e. unfold isRetryable. by rewrite Hnone. }
  split; [intros Hnone; by apply Hnever|].
  intros Hnone Hbudget. specialize (Hnever Hnone).
  pose proof (iterations_nonnegative cfg Hbudget) as Hiter.
  pose proof (Qfloor_resp_le 0 _ Hbudget) as Hfloor. change (Qfloor 0) with 0 in Hfloor.
  unfold tryEntry. destruct (providers router !! _) as [adapter|].
  - destruct (iterations cfg) as [|n]; [lia|].
    simpl. destruct (complete adapter _ w) as [promise w0].
    destruct (executeWithTimeout promise _ w0) as [[response|failure0|v] w1].
    + eexists _, _, _. repeat split; try done. by eexists.
    + rewrite Hnever. simpl. eexists _, _, _. repeat split; try done. by eexists.
    + by eexists _, _, _.
  - eexists _, _, _. repeat split; try done. by eexists.
Qed.

(** C10: when the resolver knows neither the model of the request nor
    any of its fallbacks, the chain is empty and [route] throws
    [AllProvidersFailedError] with no attempt, having called no adapter
    and left the world as it was.  (The names are not property names
    inherited from [Object.prototype]: for those the lookup in the
    source's table yields a value, so that the model is not
    unresolvable.) *)
Theorem unresolvable_chain_throws_empty (w : World)
    (Hown : Forall ownName (req_model request :: default [] (req_fallback request)))
    (Hprimary : getProviderForModel (req_model request) = None)
    (Hfallback : forall models, req_fallback request = Some models ->
                   Forall (fun m => getProviderForModel m = None) models) :
  buildModelChain request = [] /\
  route router request w =
    (Throws (ThrowAllProvidersFailed (newAllProvidersFailedError [])), w, []) /\
  apf_attempts (newAllProvidersFailedError []) = [] /\
  apf_name (newAllProvidersFailedError []) = "AllProvidersFailedError"%string.
Proof.
  assert (Hchain : buildModelChain request = []).
  { unfold buildModelChain. rewrite Hprimary. simpl.
    destruct (req_fallback request) as [models|]; [|done].
    specialize (Hfallback models eq_refl). clear Hown.
    induction Hfallback as [|m models Hm _ IH]; [done|].
    simpl. by rewrite Hm. }
  split; [done|]. unfold route. by rewrite Hchain.
Qed.
End Policy.

(** ** Entries without an adapter, and streams *)

Section Streams.
Context `{Runtime}.
Variables (router : Router) (request : CompletionRequest).

(** [route] logs one failed attempt for an entry without an adapter and
    calls nothing. *)
Lemma route_unconfigured_entry (entry : ChainEntry) (attempts : list Attempt)
    (w : World) :
  providers router !! entry_provider entry = None ->
  tryEntry router request entry attempts w =
  (ExitBreak
     (attempts ++
      [mkAttempt (entry_provider entry) (entry_model entry) false
         (Some (newError ("Provider " +:+ providerString (entry_provider entry)
                          +:+ " not configured")%string)) 0]),
   w, []).
Proof. intros Hnone. unfold tryEntry. by rewrite Hnone. Qed.

(** [routeStream] passes over such an entry and logs nothing. *)
Lemma routeStream_unconfigured_entry (entry : ChainEntry) (rest : list ChainEntry)
    (attempts : list Attempt) (w : World) :
  providers router !! entry_provider entry = None ->
  routeStreamChain router request (entry :: rest) attempts w =
  routeStreamChain router request rest attempts w.
Proof. intros Hnone. simpl. by rewrite Hnone. Qed.

(** A stream that fails is followed by the next entry, whether or not
    it had produced chunks: they stay yielded and the chunks of the
    later entries come after them. *)
Lemma routeStream_failed_stream (adapter : ProviderAdapter) (entry : ChainEntry)
    (rest : list ChainEntry) (attempts : list Attempt) (w w1 : World)
    (chunks : list StreamChunk) (error : JsError) :
  providers router !! entry_provider entry = Some adapter ->
  stream adapter (withModel request (entry_model entry)) w
    = (mkStreamRun chunks (Some error), w1) ->
  let next :=
    routeStreamChain router request rest
      (attempts ++ [mkAttempt (entry_provider entry) (entry_model entry) false
                      (Some error) (now w1 - now w)]) w1 in
  let out := routeStreamChain router request (entry :: rest) attempts w in
  yielded out = map (stampChunk (arrayLength attempts)) chunks ++ yielded next /\
  ending out = ending next.
Proof. intros Hsome Hstream. simpl. by rewrite Hsome, Hstream. Qed.

(** The generator never rethrows the error of a stream: it ends by
    returning or by throwing the all-failed error. *)
Lemma routeStream_never_rethrows (models : list ChainEntry) :
  forall attempts w error,
    ending (routeStreamChain router request models attempts w)
    <> StreamThrew (ThrowError error).
Proof.
  induction models as [|entry rest IH]; intros attempts w error; simpl; [done|].
  destruct (providers router !! _) as [adapter|]; [|apply IH].
  destruct (stream adapter _ w) as [run w1].
  destruct (failure run); simpl; [apply IH | done].
Qed.
End Streams.

(** ** The properties on the example runtime *)

Lemma flakyAnthropic_always_fails (router : Router) (request : CompletionRequest)
    (entry : ChainEntry) :
  retryableErrors (retryConfig router) = retryableErrors DEFAULT_RETRY_CONFIG ->
  alwaysFailsRetryable router flakyAnthropic request entry.
Proof.
  intros Htokens w. exists rateLimitError.
  unfold flakyAnthropic, scripted. simpl.
  split.
  - by destruct (sim_calls w).
  - unfold isRetryable. by rewrite Htokens.
Qed.

Lemma ownName_unknownModels :
  Forall ownName (req_model unknownModels :: default [] (req_fallback unknownModels)).
Proof.
  repeat constructor; intros Hin; simpl in Hin;
    repeat (destruct Hin as [Hin|Hin]; [discriminate|]); exact Hin.
Qed.

Lemma route_all_failed_witness :
  chainFails timeoutThenRateLimitRouter claudeThenGpt (buildModelChain claudeThenGpt)
    startWorld
    [replicate 3 (mkAttempt anthropic "claude-3-sonnet" false
                    (Some (timeoutError 5000)) 5000);
     replicate 3 (mkAttempt openai "gpt-4" false (Some rateLimitError) 7)]
    (mkSim 15081 6) /\
  exists err fx,
    route timeoutThenRateLimitRouter claudeThenGpt startWorld
      = (Throws (ThrowAllProvidersFailed err), mkSim 15081 6, fx) /\
    length (apf_attempts err) = 6%nat /\
    apf_message err =
      ("All providers failed: anthropic/claude-3-sonnet, anthropic/claude-3-sonnet, "
       +:+ "anthropic/claude-3-sonnet, openai/gpt-4, openai/gpt-4, openai/gpt-4")%string.
Proof.
  assert (Hfail :
    chainFails timeoutThenRateLimitRouter claudeThenGpt (buildModelChain claudeThenGpt)
      startWorld
      [replicate 3 (mkAttempt anthropic "claude-3-sonnet" false
                      (Some (timeoutError 5000)) 5000);
       replicate 3 (mkAttempt openai "gpt-4" false (Some rateLimitError) 7)]
      (mkSim 15081 6)).
  { change (buildModelChain claudeThenGpt) with [claudeEntry; gptEntry].
    eapply chainFails_cons; [vm_compute; reflexivity|].
    eapply chainFails_cons; [vm_compute; reflexivity|].
    apply chainFails_nil. }
  split; [exact Hfail|].
  destruct (route_all_failed timeoutThenRateLimitRouter claudeThenGpt _ _ _ Hfail)
    as (err & fx & Hroute & _ & _ & Hlen & _ & Hmessage).
  exists err, fx. split; [exact Hroute|]. split; [exact Hlen|].
  rewrite Hmessage. reflexivity.
Defined.

Lemma always_retryable_uses_budget_witness :
  providers rateLimitedRouter !! entry_provider claudeEntry = Some flakyAnthropic /\
  (0 <= maxRetries (retryConfig rateLimitedRouter))%Q /\
  exists seg w' fx,
    tryEntry rateLimitedRouter claudeThenGpt claudeEntry [] startWorld
      = (ExitBreak ([] ++ seg), w', fx) /\
    Z.of_nat (length seg) = 3.
Proof.
  assert (Hconfigured :
    providers rateLimitedRouter !! entry_provider claudeEntry = Some flakyAnthropic)
    by (vm_compute; reflexivity).
  assert (Hbudget : (0 <= maxRetries (retryConfig rateLimitedRouter))%Q)
    by (vm_compute; discriminate).
  split; [exact Hconfigured|]. split; [exact Hbudget|].
  destruct (always_retryable_uses_budget rateLimitedRouter claudeThenGpt
              flakyAnthropic claudeEntry [] startWorld Hconfigured Hbudget
              (flakyAnthropic_always_fails rateLimitedRouter claudeThenGpt
                 claudeEntry eq_refl))
    as (seg & w' & fx & Hrun & _ & Hcount & _).
  exists seg, w', fx. split; [exact Hrun|].
  apply (Hcount 2). reflexivity.
Defined.


Lemma retryable_iff_token_found_witness :
  plainValue (err_code serviceUnavailable) /\
  plainValue (nullish (err_status serviceUnavailable)
                (err_statusCode serviceUnavailable)) /\
  isRetryable (retryConfig rateLimitedRouter) serviceUnavailable = true /\
  isRetryable (retryConfig noRetryRouter) serviceUnavailable = false /\
  exists exit w' fx,
    tryEntry noRetryRouter claudeThenGpt claudeEntry [] startWorld = (exit, w', fx) /\
    sleepsOf fx = [].
Proof.
  assert (Hcode : plainValue (err_code serviceUnavailable)) by exact I.
  assert (Hstatus : plainValue (nullish (err_status serviceUnavailable)
                                  (err_statusCode serviceUnavailable)))
    by (vm_compute; reflexivity).
  split; [exact Hcode|]. split; [exact Hstatus|].
  destruct (retryable_iff_token_found rateLimitedRouter claudeThenGpt claudeEntry []
              startWorld serviceUnavailable Hcode Hstatus) as ([_ Hfound] & _).
  split.
  { apply Hfound. exists "503"%string. split; [simpl; tauto|].
    right. right. left. split; [discriminate|].
    by exists EmptyString, EmptyString. }
  destruct (retryable_iff_token_found noRetryRouter claudeThenGpt claudeEntry []
              startWorld serviceUnavailable Hcode Hstatus) as (_ & Hnone & Honce).
  split; [exact (Hnone eq_refl)|].
  assert (Hbudget : (0 <= maxRetries (retryConfig noRetryRouter))%Q)
    by (vm_compute; discriminate).
  destruct (Honce eq_refl Hbudget) as (exit & w' & fx & Hrun & Hsleeps & _).
  by exists exit, w', fx.
Defined.

Lemma unresolvable_chain_throws_empty_witness :
  Forall ownName (req_model unknownModels :: default [] (req_fallback unknownModels)) /\
  getProviderForModel (req_model unknownModels) = None /\
  route rateLimitedRouter unknownModels startWorld =
    (Throws (ThrowAllProvidersFailed (newAllProvidersFailedError [])), startWorld, []).
Proof.
  assert (Hprimary : getProviderForModel (req_model unknownModels) = None)
    by reflexivity.
  split; [exact ownName_unknownModels|]. split; [exact Hprimary|].
  apply (unresolvable_chain_throws_empty rateLimitedRouter unknownModels startWorld
           ownName_unknownModels Hprimary).
  intros models Hmodels. injection Hmodels as <-.
  repeat constructor.
Defined.

(** C1: what [routeStream] does when a stream fails after it has yielded
    a chunk: the chunk stays with the caller, the failure is logged as an
    attempt, the stream of the next entry is opened and its chunks are
    yielded after it, and the generator returns normally; the error of
    the first stream is not thrown. *)
Theorem midstream_failure_fails_over :
  let out := routeStream rateLimitedRouter claudeThenGpt startWorld in
  produced (fst (stream flakyAnthropic (withModel claudeThenGpt "claude-3-sonnet")
                   startWorld)) = [textChunk "partial"] /\
  failure (fst (stream flakyAnthropic (withModel claudeThenGpt "claude-3-sonnet")
                  startWorld)) = Some networkError /\
  yielded out =
    [textChunk "partial"; textChunk "Fallback"; stampChunk 1 (finalChunk openai)] /\
  ending out = StreamReturned /\
  ending out <> StreamThrew (ThrowError networkError) /\
  effects out =
    [CallStream anthropic (withModel claudeThenGpt "claude-3-sonnet");
     CallStream openai (withModel claudeThenGpt "gpt-4")].
Proof. vm_compute. repeat split; try reflexivity. discriminate. Qed.

(** C3: for an entry whose provider has no adapter, [route] logs one
    failed attempt "Provider openai not configured" and calls nothing,
    whereas [routeStream] passes over the entry without logging anything:
    its all-failed error carries no attempt. *)
Theorem unconfigured_entry_in_stream_leaves_no_attempt :
  buildModelChain gptOnly = [gptEntry] /\
  providers anthropicOnlyRouter !! openai = None /\
  route anthropicOnlyRouter gptOnly startWorld =
    (Throws (ThrowAllProvidersFailed
               (newAllProvidersFailedError
                  [mkFailed openai "gpt-4" (newError "Provider openai not configured")
                     0 false])),
     startWorld, []) /\
  ending (routeStream anthropicOnlyRouter gptOnly startWorld) =
    StreamThrew (ThrowAllProvidersFailed (newAllProvidersFailedError [])) /\
  yielded (routeStream anthropicOnlyRouter gptOnly startWorld) = [] /\
  effects (routeStream anthropicOnlyRouter gptOnly startWorld) = [].
Proof. vm_compute. repeat split; reflexivity. Qed.

(** ** The span store *)

Section SpanStore.
Implicit Types (st : Store) (r : SpanRef) (env : Env) (d : SpanData).

Lemma heap_flush st : heap (flush st) = heap st.
Proof.
  unfold flush. destruct (truthyString _); [|done]. by destruct (exportQueue st).
Qed.

Lemma spans_flush st : spans (flush st) = spans st.
Proof.
  unfold flush. destruct (truthyString _); [|done]. by destruct (exportQueue st).
Qed.

Lemma config_flush st : config (flush st) = config st.
Proof.
  unfold flush. destruct (truthyString _); [|done]. by destruct (exportQueue st).
Qed.

Lemma heap_recordSpan env r st : heap (recordSpan env r st) = heap st.
Proof.
  unfold recordSpan. destruct (shouldSample _ env); [|done].
  destruct (_ <=? _)%nat; [by rewrite heap_flush | done].
Qed.

Lemma spans_recordSpan env r st :
  spans (recordSpan env r st)
  = if shouldSample (config st) env then spans st ++ [r] else spans st.
Proof.
  unfold recordSpan. destruct (shouldSample _ env); [|done].
  destruct (_ <=? _)%nat; [by rewrite spans_flush | done].
Qed.

Lemma heap_fetchSettled rejected st : heap (fetchSettled rejected st) = heap st.
Proof. unfold fetchSettled. by destruct (inflight st). Qed.

(** [end()] writes [endTime] and settles the status of the span's data
    in place ... *)
Lemma heap_Span_end env r st :
  heap (Span_end env r st)
  = alter (onData (fun d =>
             match status d with
             | StatusUnset => assignStatus StatusOk (setEndTime (clock env) d)
             | _ => setEndTime (clock env) d
             end)) r (heap st).
Proof. unfold Span_end. simpl. by rewrite heap_recordSpan. Qed.

(** ... and hands the tracer a reference to that very object. *)
Lemma spans_Span_end env r st :
  spans (Span_end env r st)
  = if shouldSample (config st) env then spans st ++ [r] else spans st.
Proof. unfold Span_end. simpl. by rewrite spans_recordSpan. Qed.

Lemma getData_alter r r' (f : SpanData -> SpanData) (l : list Span) :
  data <$> alter (onData f) r l !! r'
  = (if decide (r = r') then f else id) <$> (data <$> l !! r').
Proof.
  destruct (decide (r = r')) as [->|Hne].
  - rewrite list_lookup_alter_eq. by destruct (l !! _).
  - rewrite list_lookup_alter_ne by done. by destruct (l !! _).
Qed.

(** The five mutators leave the tracer's list of recorded references
    alone and allocate nothing. *)
Lemma mutation_keeps_spans env (op : SpanOp) st :
  isMutation op = true ->
  spans (exec (env, op) st) = spans st /\
  length (heap (exec (env, op) st)) = length (heap st).
Proof.
  destruct op; try discriminate; intros _; simpl;
    by rewrite ?length_alter.
Qed.

Lemma mutations_keep_spans (steps : list (Env * SpanOp)) :
  forall st,
    Forall (fun step => isMutation (snd step) = true) steps ->
    spans (run steps st) = spans st /\
    length (heap (run steps st)) = length (heap st).
Proof.
  induction steps as [|[env op] steps IH]; intros st Hsteps; [done|].
  inversion Hsteps as [|? ? Hop Hrest]; subst. simpl in Hop.
  destruct (mutation_keeps_spans env op st Hop) as [Hspans Hlen].
  destruct (IH (exec (env, op) st) Hrest) as [Hspans' Hlen'].
  change (run ((env, op) :: steps) st) with (run steps (exec (env, op) st)).
  split; congruence.
Qed.

Lemma getData_is_Some r st : is_Some (getData r st) <-> (r < length (heap st))%nat.
Proof. unfold getData. rewrite fmap_is_Some. apply lookup_lt_is_Some. Qed.

(** Reading the recorded list goes through the store: its last entry
    is whatever the last recorded object holds now. *)
Lemma last_getSpans st (refs : list SpanRef) r :
  spans st = refs ++ [r] -> is_Some (getData r st) ->
  last (getSpans st) = getData r st.
Proof.
  intros Hspans [d Hd]. unfold getSpans, readAll.
  rewrite Hspans, omap_app. simpl. rewrite Hd. simpl. apply last_snoc.
Qed.
End SpanStore.

(** ** Recorded spans *)

Section Recorded.
Implicit Types (st : Store) (r : SpanRef) (env : Env) (d : SpanData).

(** C2 (amended): [end()] hands the tracer the span's own data object,
    not a copy: on a tracer that samples the call, a reference to it is
    appended to the recorded list.  The five mutators called afterwards
    leave the recorded list alone, and the recorded entry reads, at every
    later moment, as the span's current data: after [setStatus] it has
    the status that was set, and after [setAttribute] with a key other
    than [__proto__] it holds the value under the key. *)
Theorem recorded_span_is_shared st env r (steps : list (Env * SpanOp))
    (Hspan : is_Some (getData r st))
    (Hsampled : shouldSample (config st) env = true)
    (Hsteps : Forall (fun step => isMutation (snd step) = true) steps) :
  let st1 := Span_end env r st in
  let st2 := run steps st1 in
  spans st1 = spans st ++ [r] /\
  spans st2 = spans st1 /\
  is_Some (getData r st2) /\
  last (getSpans st2) = getData r st2 /\
  (forall s message,
      status <$> last (getSpans (setStatus r s message st2)) = Some (statusOf s)) /\
  (forall key value,
      key <> "__proto__"%string ->
      (fun d => attributes d !! key)
        <$> last (getSpans (setAttribute r key value st2)) = Some (Some value)).
Proof.
  intros st1 st2.
  assert (Hspans1 : spans st1 = spans st ++ [r]).
  { subst st1. by rewrite spans_Span_end, Hsampled. }
  assert (Hlen1 : length (heap st1) = length (heap st)).
  { subst st1. by rewrite heap_Span_end, length_alter. }
  destruct (mutations_keep_spans steps st1 Hsteps) as [Hspans2 Hlen2].
  fold st2 in Hspans2, Hlen2.
  assert (Hsome2 : is_Some (getData r st2)).
  { apply getData_is_Some. apply getData_is_Some in Hspan. lia. }
  split; [done|]. split; [done|]. split; [done|].
  split; [apply (last_getSpans st2 (spans st)); congruence|].
  destruct Hsome2 as [d2 Hd2].
  split.
  - intros s message.
    rewrite (last_getSpans _ (spans st) r).
    + unfold getData in *. simpl. rewrite getData_alter, Hd2. simpl.
      destruct (decide (r = r)); [|done]. by destruct (truthy _).
    + simpl. congruence.
    + apply getData_is_Some. simpl. rewrite length_alter.
      apply getData_is_Some. by exists d2.
  - intros key value Hkey.
    assert (Hplain : assignAttribute key value
                     = onData (fun d => assignAttributes (<[key := value]> (attributes d)) d)).
    { unfold assignAttribute. apply String.eqb_neq in Hkey. by rewrite Hkey. }
    rewrite (last_getSpans _ (spans st) r).
    + unfold getData, setAttribute in *. rewrite Hplain. simpl.
      rewrite getData_alter, Hd2. simpl.
      destruct (decide (r = r)); [|done]. simpl. by rewrite lookup_insert_eq.
    + simpl. congruence.
    + apply getData_is_Some. simpl. rewrite length_alter.
      apply getData_is_Some. by exists d2.
Qed.

(** C8: a child made by [startChild] carries the trace id of its parent
    and has the parent's span id as its [parentSpanId]; the parent's
    data is untouched and the child is added to its children. *)
Theorem startChild_shares_trace st env r (parent : Span) (name : string)
    (attrs : option (gmap string JsValue))
    (Hparent : heap st !! r = Some parent) :
  exists c st' child parent',
    startChild env r name attrs st = Some (c, st') /\
    heap st' !! c = Some child /\
    traceId (context (data child)) = traceId (context (data parent)) /\
    parentSpanId (context (data child)) = Some (spanId (context (data parent))) /\
    heap st' !! r = Some parent' /\
    data parent' = data parent /\
    children parent' = children parent ++ [c].
Proof.
  unfold startChild. rewrite Hparent. simpl.
  assert (Hlt : (r < length (heap st))%nat) by (by eapply lookup_lt_Some).
  eexists _, _, _, _. split; [reflexivity|]. simpl.
  rewrite list_lookup_alter_ne by lia.
  rewrite list_lookup_middle by done.
  rewrite list_lookup_alter_eq. rewrite lookup_app_l by done.
  rewrite Hparent. simpl. by repeat split.
Qed.
End Recorded.

Lemma recorded_span_is_shared_witness :
  let st0 := snd (startSpan (testEnv 0) "s" None None None enabledTracer) in
  let later := [(testEnv 9, OpSetStatus 0%nat FinalError (Some "boom"%string))] in
  is_Some (getData 0%nat st0) /\
  shouldSample (config st0) (testEnv 5) = true /\
  Forall (fun step => isMutation (snd step) = true) later /\
  last (getSpans (run later (Span_end (testEnv 5) 0%nat st0)))
  = getData 0%nat (run later (Span_end (testEnv 5) 0%nat st0)).
Proof.
  intros st0 later.
  assert (Hspan : is_Some (getData 0%nat st0)) by (by eexists).
  assert (Hsampled : shouldSample (config st0) (testEnv 5) = true) by reflexivity.
  assert (Hsteps : Forall (fun step => isMutation (snd step) = true) later)
    by (by repeat constructor).
  split; [exact Hspan|]. split; [exact Hsampled|]. split; [exact Hsteps|].
  apply (recorded_span_is_shared st0 (testEnv 5) 0%nat later Hspan Hsampled Hsteps).
Defined.

(** C2 as stated fails: a span is started at time 0 and ended at time 5
    on an enabled tracer without sampling rate, then its status is set to
    [error].  The recorded entry read [ok] when [end()] returned and
    reads [error] afterwards. *)
Lemma recorded_span_changes_after_end :
  let st0 := snd (startSpan (testEnv 0) "s" None None None enabledTracer) in
  let st1 := Span_end (testEnv 5) 0%nat st0 in
  let st2 := setStatus 0%nat FinalError (Some "boom"%string) st1 in
  (status <$> last (getSpans st1)) = Some StatusOk /\
  (status <$> last (getSpans st2)) = Some StatusError /\
  ~ recordedCopyFrozen.
Proof.
  intros st0 st1 st2. split; [reflexivity|]. split; [reflexivity|].
  intros Hfrozen.
  assert (Hspan : is_Some (getData 0%nat st0)) by (by eexists).
  specialize (Hfrozen st0 (testEnv 5) 0%nat
                [(testEnv 9, OpSetStatus 0%nat FinalError (Some "boom"%string))]
                Hspan eq_refl).
  assert (Hlast : status <$> last (getSpans st2) = status <$> last (getSpans st1)).
  { f_equal. apply Hfrozen. by repeat constructor. }
  vm_compute in Hlast. discriminate.
Qed.

Lemma startChild_shares_trace_witness :
  let st0 := snd (startSpan (testEnv 0) "root" None None None enabledTracer) in
  heap st0 !! 0%nat
  = Some (newSpan (testEnv 0) "root" None None None) /\
  exists c st' child,
    startChild (testEnv 3) 0%nat "child" None st0 = Some (c, st') /\
    heap st' !! c = Some child /\
    traceId (context (data child)) = "id-a"%string /\
    parentSpanId (context (data child)) = Some "id-b"%string.
Proof.
  intros st0.
  assert (Hparent : heap st0 !! 0%nat
                    = Some (newSpan (testEnv 0) "root" None None None))
    by reflexivity.
  split; [exact Hparent|].
  destruct (startChild_shares_trace st0 (testEnv 3) 0%nat _ "child" None Hparent)
    as (c & st' & child & parent' & Hchild & Hlookup & Htrace & Hpid & _).
  by exists c, st', child.
Defined.

(** ** Start and end times *)

Section Times.
Implicit Types (st : Store) (r : SpanRef) (env : Env) (d : SpanData).

Lemma timesOrdered_later (t t' : Z) (s : Span) :
  t <= t' -> timesOrdered t s -> timesOrdered t' s.
Proof. intros Hle [Hstart Hend]. split; [lia | done]. Qed.

(** An update that touches neither time keeps the order. *)
Lemma timesOrdered_alter (t : Z) (f : Span -> Span) r (l : list Span) :
  (forall s, startTime (data (f s)) = startTime (data s) /\
             endTime (data (f s)) = endTime (data s)) ->
  Forall (timesOrdered t) l -> Forall (timesOrdered t) (alter f r l).
Proof.
  intros Hf Hall. apply Forall_alter; [done|].
  intros s _ [Hstart Hend]. destruct (Hf s) as [Hs He].
  split; rewrite Hs; [done|]. intros e. rewrite He. apply Hend.
Qed.

Lemma timesOrdered_newSpan env (name : string) (pc : option SpanContext)
    (attrs : option (gmap string JsValue)) (tid : option string) :
  timesOrdered (clock env) (newSpan env name pc attrs tid).
Proof.
  unfold newSpan. destruct tid, pc; simpl; (split; simpl; [lia | done]).
Qed.

(** Every call keeps the order, as long as the clock does not go
    back. *)
Lemma exec_timesOrdered (t : Z) env (op : SpanOp) st :
  t <= clock env ->
  Forall (timesOrdered t) (heap st) ->
  Forall (timesOrdered (clock env)) (heap (exec (env, op) st)).
Proof.
  intros Hle Hall.
  assert (Hnow : Forall (timesOrdered (clock env)) (heap st)).
  { eapply Forall_impl; [done|]. intros s. by apply timesOrdered_later. }
  destruct op; cbn [exec];
    try (match goal with |- context [Span_end] => idtac | _ => simpl end).
  - apply Forall_app. split; [done|].
    apply Forall_singleton, timesOrdered_newSpan.
  - unfold startChild. destruct (heap st !! r) as [parent|]; simpl; [|done].
    apply timesOrdered_alter; [done|].
    apply Forall_app. split; [done|].
    apply Forall_singleton, timesOrdered_newSpan.
  - apply timesOrdered_alter; [|done].
    intros s0. unfold assignAttribute. by repeat case_match.
  - apply timesOrdered_alter; [|done].
    intros s0. unfold assignAll. by repeat case_match.
  - by apply timesOrdered_alter.
  - apply timesOrdered_alter; [|done].
    intros s0. simpl. by destruct (truthy _).
  - apply timesOrdered_alter; [done|].
    apply timesOrdered_alter; [|done].
    intros s0. simpl. by repeat case_match.
  - rewrite heap_Span_end. apply Forall_alter; [done|].
    intros s0 _ [Hstart Hend].
    unfold timesOrdered, onData. simpl.
    destruct (status (data s0)); simpl; (split; [done|]);
      intros e He; injection He as <-; done.
  - by rewrite heap_flush.
  - by rewrite heap_fetchSettled.
  - done.
Qed.

Lemma run_timesOrdered (steps : list (Env * SpanOp)) :
  forall t st,
    clockOrdered t steps ->
    Forall (timesOrdered t) (heap st) ->
    exists t', Forall (timesOrdered t') (heap (run steps st)).
Proof.
  induction steps as [|[env op] steps IH]; intros t st Hclock Hall.
  - by exists t.
  - destruct Hclock as [Hle Hrest].
    change (run ((env, op) :: steps) st) with (run steps (exec (env, op) st)).
    apply (IH (clock env)); [done|]. by apply (exec_timesOrdered t).
Qed.

(** [end()] assigns [endTime] each time it is called ... *)
Lemma Span_end_assigns env r st d :
  getData r st = Some d ->
  exists d', getData r (Span_end env r st) = Some d' /\
             endTime d' = Some (clock env) /\
             startTime d' = startTime d.
Proof.
  intros Hd. unfold getData in *. rewrite heap_Span_end, getData_alter, Hd.
  destruct (decide (r = r)); [|done]. simpl.
  eexists. split; [done|]. by destruct (status d).
Qed.

(** An update that keeps a projection of every span keeps it at every
    address. *)
Lemma alter_keeps {A} (proj : Span -> A) (f : Span -> Span) (r r0 : SpanRef)
    (l : list Span) (s : Span) :
  (forall s0, proj (f s0) = proj s0) -> l !! r = Some s ->
  exists s', alter f r0 l !! r = Some s' /\ proj s' = proj s.
Proof.
  intros Hf Hr. destruct (decide (r0 = r)) as [->|Hne].
  - rewrite list_lookup_alter_eq, Hr. simpl. by eexists.
  - rewrite list_lookup_alter_ne, Hr by done. by eexists.
Qed.

(** ... and no other call assigns it. *)
Lemma exec_keeps_times env (op : SpanOp) r st d :
  getData r st = Some d ->
  op <> OpEnd r ->
  exists d', getData r (exec (env, op) st) = Some d' /\
             endTime d' = endTime d /\
             startTime d' = startTime d.
Proof.
  intros Hd Hop. unfold getData in *.
  destruct (heap st !! r) as [s0|] eqn:Hr; [|done].
  simpl in Hd. injection Hd as <-.
  assert (Hlt : (r < length (heap st))%nat) by (by eapply lookup_lt_Some).
  assert (Hkeep : forall s', heap (exec (env, op) st) !! r = Some s' ->
            (endTime (data s'), startTime (data s'))
            = (endTime (data s0), startTime (data s0)) ->
            exists d', data <$> heap (exec (env, op) st) !! r = Some d' /\
                       endTime d' = endTime (data s0) /\
                       startTime d' = startTime (data s0)).
  { intros s' -> Heq. injection Heq as He Hs. by eexists. }
  set (times := fun s : Span => (endTime (data s), startTime (data s))).
  assert (Hone : forall f r0,
            (forall s, times (f s) = times s) ->
            exists s', alter f r0 (heap st) !! r = Some s' /\ times s' = times s0)
    by (intros f r0 Hf; by apply alter_keeps).
  destruct op; cbn [exec] in *;
    try (match goal with |- context [Span_end] => idtac | _ => simpl in * end).
  - apply (Hkeep s0); [|done]. by rewrite lookup_app_l.
  - unfold startChild in *. destruct (heap st !! r0) as [parent|] eqn:Hr0; simpl in *.
    + match goal with |- context [alter ?f r0 ?l] =>
        destruct (alter_keeps times f r r0 l s0) as (s' & Hs' & Htimes);
          [done|by rewrite lookup_app_l|] end.
      by apply (Hkeep s').
    + by apply (Hkeep s0).
  - destruct (Hone (assignAttribute key value) r0) as (s' & Hs' & Htimes).
    { intros s. unfold assignAttribute. by repeat case_match. }
    by apply (Hkeep s').
  - destruct (Hone (assignAll attrs) r0) as (s' & Hs' & Htimes).
    { intros s. unfold assignAll. by repeat case_match. }
    by apply (Hkeep s').
  - match goal with |- context [alter ?f r0 (heap st)] =>
      destruct (Hone f r0) as (s' & Hs' & Htimes); [done|] end.
    by apply (Hkeep s').
  - match goal with |- context [alter ?f r0 (heap st)] =>
      destruct (Hone f r0) as (s' & Hs' & Htimes) end.
    { intros sp. unfold times. simpl. by destruct (truthy _). }
    by apply (Hkeep s').
  - match goal with |- context [alter ?f r0 (alter ?g r0 (heap st))] =>
      destruct (Hone g r0) as (s1 & Hs1 & Htimes1);
      [|destruct (alter_keeps times f r r0 (alter g r0 (heap st)) s1)
          as (s' & Hs' & Htimes); [done|done|]] end.
    { intros sp. unfold times. simpl. by destruct (truthy _). }
    apply (Hkeep s'); [done|]. unfold times in *. congruence.
  - rewrite heap_Span_end in *.
    destruct (decide (r0 = r)) as [->|Hne]; [done|].
    apply (Hkeep s0); [|done]. by rewrite list_lookup_alter_ne.
  - rewrite heap_flush in *. by apply (Hkeep s0).
  - rewrite heap_fetchSettled in *. by apply (Hkeep s0).
  - by apply (Hkeep s0).
Qed.

(** C9 (amended): while the clock does not go back, every span that
    has an [endTime] has it at or after its [startTime].  [endTime] is
    written by every call of [end()], to the clock reading of that
    call, and by no other call: a span ended once has it set once, and
    each further [end()] overwrites it. *)
Theorem endTime_set_by_each_end (cfg : TracingConfig) (t0 : Z)
    (steps : list (Env * SpanOp)) (Hclock : clockOrdered t0 steps) :
  (forall r d e,
      getData r (run steps (newTracer cfg)) = Some d ->
      endTime d = Some e -> startTime d <= e) /\
  (forall st env r d,
      getData r st = Some d ->
      exists d', getData r (Span_end env r st) = Some d' /\
                 endTime d' = Some (clock env) /\
                 startTime d' = startTime d) /\
  (forall st env op r d,
      getData r st = Some d -> op <> OpEnd r ->
      exists d', getData r (exec (env, op) st) = Some d' /\
                 endTime d' = endTime d /\
                 startTime d' = startTime d).
Proof.
  split; [|split].
  - intros r d e Hd He.
    destruct (run_timesOrdered steps t0 (newTracer cfg) Hclock) as [t' Hall];
      [by constructor|].
    unfold getData in Hd.
    destruct (heap (run steps (newTracer cfg)) !! r) as [s0|] eqn:Hr; [|done].
    injection Hd as <-.
    destruct (Forall_lookup_1 _ _ _ _ Hall Hr) as [_ Hend]. by apply Hend.
  - intros st env r d. apply Span_end_assigns.
  - intros st env op r d. apply exec_keeps_times.
Qed.
End Times.

Lemma endTime_set_by_each_end_witness :
  let steps := [(testEnv 0, OpStartSpan "s" None None None);
                (testEnv 5, OpEnd 0%nat);
                (testEnv 9, OpEnd 0%nat)] in
  clockOrdered 0 steps /\
  forall d e, getData 0%nat (run steps enabledTracer) = Some d ->
              endTime d = Some e -> startTime d <= e.
Proof.
  intros steps.
  assert (Hclock : clockOrdered 0 steps) by (simpl; lia).
  split; [exact Hclock|].
  destruct (endTime_set_by_each_end (mkTracingConfig true None None None) 0 steps
              Hclock) as [Hordered _].
  apply (Hordered 0%nat).
Defined.

(** C9 as stated fails: a span is started at time 0 and [end()] is called
    on it at time 5 and again at time 9.  Its [endTime] reads 5 after the
    first call and 9 after the second, and the span is recorded twice. *)
Lemma repeated_end_reassigns_endTime :
  let before := [(testEnv 0, OpStartSpan "s" None None None);
                 (testEnv 5, OpEnd 0%nat)] in
  let after := [(testEnv 9, OpEnd 0%nat)] in
  clockOrdered 0 (before ++ after) /\
  (endTime <$> getData 0%nat (run before enabledTracer)) = Some (Some 5) /\
  (endTime <$> getData 0%nat (run (before ++ after) enabledTracer)) = Some (Some 9) /\
  spans (run (before ++ after) enabledTracer) = [0%nat; 0%nat] /\
  ~ endTimeSetOnce.
Proof.
  intros before after.
  assert (Hclock : clockOrdered 0 (before ++ after)) by (simpl; lia).
  split; [exact Hclock|]. split; [reflexivity|]. split; [reflexivity|].
  split; [reflexivity|].
  intros Honce.
  destruct (getData 0%nat (run before enabledTracer)) as [d1|] eqn:Hd1;
    [|discriminate].
  destruct (getData 0%nat (run (before ++ after) enabledTracer)) as [d2|] eqn:Hd2;
    [|discriminate].
  assert (He1 : endTime d1 = Some 5).
  { vm_compute in Hd1. by injection Hd1 as <-. }
  assert (He2 : endTime d2 = Some 9).
  { vm_compute in Hd2. by injection Hd2 as <-. }
  pose proof (Honce (mkTracingConfig true None None None) 0 before after 0%nat
                d1 d2 5 Hclock Hd1 He1 Hd2) as Hsame.
  congruence.
Qed.


(** ** The router on the cases of its test suite *)

(** "should_retryOnRetryableError": one rate-limited call, then a
    success: two attempts, one sleep of the initial delay, and
    [failoverAttempts = 1]. *)
Example retry_then_success :
  let router :=
    testRouter [(anthropic,
                 scripted anthropic [Rejects rateLimitError]
                   (Resolves (sampleResponse anthropic)) (mkStreamRun [] None))] in
  exists result w,
    route router (sampleRequest "claude-3-sonnet" None) startWorld
      = (Returns result, w,
         [CallComplete anthropic (sampleRequest "claude-3-sonnet" None);
          Sleep 10%Q;
          CallComplete anthropic (sampleRequest "claude-3-sonnet" None)]) /\
    map att_success (rr_attempts result) = [false; true] /\
    meta_failoverAttempts (resp_meta (rr_response result)) = 1.
Proof. eexists _, _. vm_compute. by repeat split. Qed.

(** "should_notRetry_when_errorNotRetryable": a 400 is not retried, the
    fallback answers. *)
Example bad_request_is_not_retried :
  let router :=
    testRouter [(anthropic,
                 scripted anthropic [Rejects badRequestError]
                   (Resolves (sampleResponse openai)) (mkStreamRun [] None));
                (openai,
                 scripted openai [] (Resolves (sampleResponse openai))
                   (mkStreamRun [] None))] in
  exists result w fx,
    route router claudeThenGpt startWorld = (Returns result, w, fx) /\
    map att_provider (rr_attempts result) = [anthropic; openai] /\
    map att_success (rr_attempts result) = [false; true] /\
    sleepsOf fx = [].
Proof. eexists _, _, _. vm_compute. by repeat split. Qed.

(** "should_identifyRetryableErrors_when_checkingStatus": a [statusCode]
    of 503 is retryable under the default tokens; a [status], when there
    is one, is the field that is read. *)
Example status_code_503_is_retryable :
  isRetryable DEFAULT_RETRY_CONFIG
    (mkError "Error" (JsString "Service unavailable") JsUndefined JsUndefined
       (JsNumber 503) None) = true /\
  isRetryable DEFAULT_RETRY_CONFIG
    (mkError "Error" (JsString "Bad request") JsUndefined (JsNumber 400)
       (JsNumber 503) None) = false.
Proof. by vm_compute. Qed.

(** The delays of the specification's example, as they are slept: six
    attempts on one entry, five sleeps. *)
Example five_retries_sleeps :
  sleepsOf (snd (route fiveRetriesRouter (sampleRequest "claude-3-sonnet" None)
                   startWorld))
  = [10; 20; 40; 50; 50]%Q.
Proof. by vm_compute. Qed.

(** A multiplier of 1.5, as in the configuration test: the delays
    before retries 0 to 4 and the cap, reached at retry 8. *)
Example delays_with_multiplier_1_5 :
  map (fun retry => Qred (backoffDelay suiteRetry retry)) [0; 1; 2; 3; 4]
    = [500; 750; 1125; 3375 # 2; 10125 # 4]%Q /\
  Qred (backoffDelay suiteRetry 7) = (273375 # 32)%Q /\
  backoffDelay suiteRetry 8 = 10000%Q.
Proof. by vm_compute. Qed.

(** A budget that is no whole number: with [maxRetries = 1.5] the loop
    runs for retries 0 and 1 and no retry equals the budget, so the last
    attempt too is followed by its sleep. *)
Example fractional_budget_sleeps_last :
  snd (route fractionalBudgetRouter (sampleRequest "claude-3-sonnet" None)
         startWorld)
  = [CallComplete anthropic (sampleRequest "claude-3-sonnet" None); Sleep 10%Q;
     CallComplete anthropic (sampleRequest "claude-3-sonnet" None); Sleep 20%Q].
Proof. by vm_compute. Qed.

(** A timed-out call is rejected with the timeout object, whose code is
    among the default tokens, once the timeout has passed. *)
Example timeout_is_retryable :
  executeWithTimeout Pending 5000 startWorld
    = (Rejected (timeoutError 5000), mkSim 5000 0) /\
  err_message (timeoutError 5000) = JsString "Request timed out after 5000ms" /\
  isRetryable DEFAULT_RETRY_CONFIG (timeoutError 5000) = true.
Proof. by vm_compute. Qed.

(** ** The attempt log of [route] *)

Section RouteLog.
Context `{Runtime}.
Variables (router : Router) (request : CompletionRequest).

Local Abbreviation cfg := (retryConfig router).
Local Abbreviation callOf := (fun entry : ChainEntry =>
  CallComplete (entry_provider entry) (withModel request (entry_model entry))).
Local Abbreviation unconfigured := (fun entry => negb (configured router entry)).

Lemma callsOf_app (fx fx' : list Effect) : callsOf (fx ++ fx') = callsOf fx ++ callsOf fx'.
Proof. apply omap_app. Qed.

Lemma sleepsOf_app (fx fx' : list Effect) :
  sleepsOf (fx ++ fx') = sleepsOf fx ++ sleepsOf fx'.
Proof. apply omap_app. Qed.

Lemma namesEntry_entryOf (entry : ChainEntry) (a : Attempt) :
  namesEntry entry a -> entryOf a = entry.
Proof.
  destruct entry as [m p]. intros [Hp Hm]. unfold entryOf. simpl in *.
  by rewrite Hp, Hm.
Qed.

(** The calls made for one entry count for that entry only. *)
Lemma callsOn_entry (entry entry0 : ChainEntry) (fx : list Effect) :
  Forall (fun e => e = callOf entry0) (callsOf fx) ->
  (length (List.filter (isCallOn entry) fx)
   <= if bool_decide (entry0 = entry) then length (callsOf fx) else 0)%nat.
Proof.
  induction fx as [|e fx IH]; intros Hall; [by destruct (bool_decide _)|].
  destruct e as [p r|p r|ms].
  - change (callsOf (CallComplete p r :: fx)) with (CallComplete p r :: callsOf fx) in *.
    apply Forall_cons in Hall as [Hcall Hall]. specialize (IH Hall).
    injection Hcall as -> ->. cbn [List.filter isCallOn].
    destruct entry as [m p], entry0 as [m0 p0]. simpl in *.
    destruct (bool_decide (mkEntry m0 p0 = mkEntry m p)) eqn:Hsame.
    + destruct (_ && _); simpl; lia.
    + apply bool_decide_eq_false in Hsame.
      destruct (bool_decide (p0 = p)) eqn:Hp; simpl; [|done].
      destruct (String.eqb m0 m) eqn:Hm; simpl; [|done].
      apply bool_decide_eq_true in Hp. apply String.eqb_eq in Hm. congruence.
  - change (callsOf (CallStream p r :: fx)) with (CallStream p r :: callsOf fx) in *.
    apply Forall_cons in Hall as [Hcall _]. discriminate.
  - change (callsOf (Sleep ms :: fx)) with (callsOf fx) in *.
    cbn [List.filter isCallOn]. by apply IH.
Qed.

(** The attempts logged for one entry count for that entry only. *)
Lemma attemptsOn_entry (entry entry0 : ChainEntry) (l : list Attempt) :
  Forall (namesEntry entry0) l ->
  (length (List.filter (isAttemptOn entry) l)
   <= if bool_decide (entry0 = entry) then length l else 0)%nat.
Proof.
  induction 1 as [|a l Ha _ IH]; [by destruct (bool_decide _)|].
  cbn [List.filter]. unfold isAttemptOn at 1.
  rewrite (namesEntry_entryOf _ _ Ha).
  destruct (bool_decide (entry0 = entry)); simpl; lia.
Qed.

Lemma filter_app_length {A} (f : A -> bool) (l k : list A) :
  length (List.filter f (l ++ k))
  = (length (List.filter f l) + length (List.filter f k))%nat.
Proof. by rewrite List.filter_app, length_app. Qed.

(** What the chain loop adds to the log and does to the world.
    [logged] are the attempts it appends to the log it was given. *)
Lemma routeChain_log (models : list ChainEntry) :
  forall acc w outcome w' fx,
    routeChain router request models acc w = (outcome, w', fx) ->
    exists logged,
      Forall (fun a => In (entryOf a) models) logged /\
      Forall (fun d => (d <= maxDelayMs cfg)%Q) (sleepsOf fx) /\
      Forall (fun e => exists entry,
                In entry models /\ configured router entry = true /\ e = callOf entry)
             (callsOf fx) /\
      (length (callsOf fx) <= length models * iterations cfg)%nat /\
      (forall entry,
         (length (List.filter (isCallOn entry) fx)
          <= occurrences entry models * iterations cfg)%nat) /\
      (forall entry,
         (length (List.filter (isAttemptOn entry) logged)
          <= occurrences entry models * attemptsPerEntry cfg)%nat) /\
      (length logged
       <= length (callsOf fx) + length (List.filter unconfigured models))%nat /\
      match outcome with
      | Returns result =>
          exists failed succ,
            logged = failed ++ [succ] /\
            Forall failedAttempt failed /\
            rr_attempts result = acc ++ logged /\
            att_success succ = true /\ att_error succ = None /\
            meta_failoverAttempts (resp_meta (rr_response result))
              = arrayLength (acc ++ failed) /\
            (length (sleepsOf fx) <= length failed)%nat
      | Throws (ThrowAllProvidersFailed err) =>
          Forall failedAttempt logged /\
          err = newAllProvidersFailedError (failureAttempts (acc ++ logged)) /\
          (length (sleepsOf fx) <= length logged)%nat
      | Throws (ThrowError error) =>
          Forall failedAttempt logged /\
          (exists v, error = typeErrorReading v "code") /\
          (length (sleepsOf fx) <= length logged)%nat /\
          (length (sleepsOf fx) < length (callsOf fx))%nat
      end.
Proof.
  induction models as [|entry rest IH]; intros acc w outcome w' fx Hrun; simpl in Hrun.
  { injection Hrun as <- <- <-. exists []. rewrite app_nil_r.
    repeat split; try done; try (by constructor); intros; simpl; lia. }
  destruct (tryEntry router request entry acc w) as [[exit w1] fx1] eqn:Htry.
  destruct (tryEntry_log router request entry _ _ _ _ _ Htry)
    as (failed & Hf & Hn & Hs & Hls & Hc & Hcn & Hnone & Hexit).
  pose proof (callsOn_entry) as HcallsOn.
  assert (Hcalls1 : forall e0, (length (List.filter (isCallOn e0) fx1)
            <= (if bool_decide (entry = e0) then 1 else 0) * iterations cfg)%nat).
  { intros e0. pose proof (callsOn_entry e0 entry fx1 Hc) as Hle.
    destruct (bool_decide (entry = e0)); lia. }
  assert (Hper : (1 <= attemptsPerEntry cfg)%nat) by (unfold attemptsPerEntry; lia).
  assert (Hatts1 : forall e0 (l : list Attempt),
            Forall (namesEntry entry) l -> (length l <= attemptsPerEntry cfg)%nat ->
            (length (List.filter (isAttemptOn e0) l)
             <= (if bool_decide (entry = e0) then 1 else 0) * attemptsPerEntry cfg)%nat).
  { intros e0 l Hl Hlen. pose proof (attemptsOn_entry e0 entry l Hl) as Hle.
    destruct (bool_decide (entry = e0)); lia. }
  assert (Hwhere : Forall (fun e => exists entry0,
              In entry0 (entry :: rest) /\ configured router entry0 = true /\
              e = callOf entry0) (callsOf fx1)).
  { destruct (configured router entry) eqn:Hconf.
    - eapply Forall_impl; [exact Hc|]. intros e ->. exists entry.
      split; [by left|done].
    - destruct (Hnone eq_refl) as [_ ->]. constructor. }
  assert (Hunconf : (length failed
            <= length (callsOf fx1) + (if unconfigured entry then 1 else 0))%nat
            \/ exists r, exit = ExitReturn r).
  { destruct exit as [result|attempts|thrown attempts].
    - right. by eexists.
    - left. destruct Hexit as (_ & _ & Hcalls).
      destruct (configured router entry) eqn:Hconf; simpl.
      + rewrite Hcalls by done. lia.
      + destruct (Hnone eq_refl) as [-> ->]. simpl. lia.
    - left. destruct Hexit as (_ & _ & Hcalls). lia. }
  assert (Hin : Forall (fun a => In (entryOf a) (entry :: rest)) failed).
  { eapply Forall_impl; [exact Hn|]. intros a Ha. left. symmetry.
    by apply namesEntry_entryOf. }
  destruct exit as [result|attempts|thrown attempts].
  - injection Hrun as <- <- <-.
    destruct Hexit as (succ & Hatts & Hs1 & Hs2 & Hs3 & Hmeta & Hlen & Hcalls).
    exists (failed ++ [succ]).
    split.
    { apply Forall_app. split; [done|]. constructor; [|done].
      left. symmetry. by apply namesEntry_entryOf. }
    split; [done|]. split; [done|]. split; [simpl; lia|].
    split.
    { intros e0. specialize (Hcalls1 e0). cbn [occurrences List.filter].
      unfold occurrences in *. cbn [List.filter].
      destruct (bool_decide (entry = e0)); simpl in *; lia. }
    split.
    { intros e0. unfold occurrences. cbn [List.filter].
      assert (Hall : Forall (namesEntry entry) (failed ++ [succ]))
        by (apply Forall_app; split; [done|by constructor]).
      pose proof (Hatts1 e0 _ Hall) as Hle. rewrite length_app in Hle. simpl in Hle.
      specialize (Hle ltac:(lia)).
      destruct (bool_decide (entry = e0)); simpl in *; lia. }
    split; [rewrite length_app; simpl; lia|].
    exists failed, succ. by repeat split.
  - destruct Hexit as (-> & Hlen & Hcalls).
    destruct (routeChain router request rest (acc ++ failed) w1)
      as [[outcome2 w2] fx2] eqn:Hrest.
    injection Hrun as <- <- <-.
    destruct (IH _ _ _ _ _ Hrest)
      as (logged2 & Hin2 & Hs2 & Hwhere2 & Hc2 & Hcalls2 & Hatts2 & Hlog2 & Hout).
    exists (failed ++ logged2).
    rewrite sleepsOf_app, callsOf_app, !length_app.
    split.
    { apply Forall_app. split; [done|].
      eapply Forall_impl; [exact Hin2|]. intros a Ha. by right. }
    split; [by apply Forall_app|].
    split.
    { apply Forall_app. split; [done|].
      eapply Forall_impl; [exact Hwhere2|].
      intros e (entry0 & Hin0 & Hconf0 & ->). exists entry0. split; [by right|done]. }
    split; [simpl; lia|].
    split.
    { intros e0. rewrite filter_app_length. unfold occurrences in *.
      cbn [List.filter]. specialize (Hcalls1 e0). specialize (Hcalls2 e0).
      destruct (bool_decide (entry = e0)); simpl in *; lia. }
    split.
    { intros e0. rewrite filter_app_length. unfold occurrences in *.
      cbn [List.filter]. pose proof (Hatts1 e0 failed Hn Hlen) as Hle.
      specialize (Hatts2 e0).
      destruct (bool_decide (entry = e0)); simpl in *; lia. }
    split.
    { cbn [List.filter]. destruct Hunconf as [Hle|[r Hr]]; [|done].
      destruct (unconfigured entry); simpl in *; lia. }
    destruct outcome2 as [result|[err|thrown]].
    + destruct Hout as (failed2 & succ & -> & Hf2 & Hatts & Hs1 & Hs3 & Hmeta & Hsl).
      exists (failed ++ failed2), succ. rewrite <- !app_assoc in *.
      split; [done|]. split; [by apply Forall_app|]. split; [done|].
      split; [done|]. split; [done|]. split; [done|]. rewrite length_app. lia.
    + destruct Hout as (Hf2 & -> & Hsl). rewrite <- app_assoc.
      split; [by apply Forall_app|]. split; [done|]. lia.
    + destruct Hout as (Hf2 & Hv & Hsl & Hlt).
      split; [by apply Forall_app|]. split; [done|]. split; [lia|].
      destruct Hunconf as [Hle|[r Hr]]; [|done].
      destruct (configured router entry) eqn:Hconf; simpl in *.
      * rewrite Hcalls by done. lia.
      * destruct (Hnone eq_refl) as [-> ->]. simpl in *. lia.
  - injection Hrun as <- <- <-.
    destruct Hexit as (-> & Hv & Hcalls).
    exists failed.
    split; [done|]. split; [done|]. split; [done|]. split; [simpl; lia|].
    split.
    { intros e0. specialize (Hcalls1 e0). unfold occurrences. cbn [List.filter].
      destruct (bool_decide (entry = e0)); simpl in *; lia. }
    split.
    { intros e0. unfold occurrences. cbn [List.filter].
      assert (Hlen : (length failed <= attemptsPerEntry cfg)%nat)
        by (unfold attemptsPerEntry; lia).
      pose proof (Hatts1 e0 failed Hn Hlen) as Hle.
      destruct (bool_decide (entry = e0)); simpl in *; lia. }
    split; [lia|].
    split; [done|]. split; [done|]. split; lia.
Qed.

(** What [route] returns on success: the failed attempts in order, then
    the one that answered, made on an entry of the chain; the response's
    [failoverAttempts] counts the failed ones. *)
Theorem route_success_log (w w' : World) (result : RouteResult) (fx : list Effect)
    (Hreturn : route router request w = (Returns result, w', fx)) :
  exists failed succ,
    rr_attempts result = failed ++ [succ] /\
    Forall failedAttempt failed /\
    Forall (fun a => In (entryOf a) (buildModelChain request)) failed /\
    att_success succ = true /\ att_error succ = None /\
    In (entryOf succ) (buildModelChain request) /\
    meta_failoverAttempts (resp_meta (rr_response result)) = Z.of_nat (length failed) /\
    Z.of_nat (length (rr_attempts result))
      = meta_failoverAttempts (resp_meta (rr_response result)) + 1.
Proof.
  destruct (routeChain_log _ _ _ _ _ _ Hreturn)
    as (logged & Hin & _ & _ & _ & _ & _ & _ & failed & succ & -> & Hf & Hatts
        & Hs1 & Hs2 & Hmeta & _).
  simpl in Hatts, Hmeta. apply Forall_app in Hin as [Hin Hsucc].
  apply (proj1 (Forall_singleton _ _)) in Hsucc.
  exists failed, succ.
  split; [exact Hatts|]. split; [exact Hf|]. split; [exact Hin|].
  split; [exact Hs1|]. split; [exact Hs2|]. split; [exact Hsucc|].
  split; [by rewrite Hmeta|].
  rewrite Hatts, Hmeta, length_app. unfold arrayLength. simpl. lia.
Qed.

(** How much [route] can do, whatever the adapters answer.  For each
    entry it makes at most as many calls as the retry loop has
    iterations, [floor(maxRetries) + 1], for each time the entry stands
    in the chain, and logs at most as many attempts (one for an entry
    without adapter); every call is on a configured entry of the chain;
    there is at most one logged attempt for each call or unconfigured
    entry; no sleep is longer than [maxDelayMs] and there are fewer
    sleeps than attempts when [route] returns, and no more sleeps than
    attempts when it throws.  [route] throws either the all-failed error
    or the [TypeError] of reading the [code] of a rejection with
    [undefined] or [null]. *)
Theorem route_effort_bounded (w : World) :
  let '(outcome, _, fx) := route router request w in
  let chain := buildModelChain request in
  (forall entry,
     (length (List.filter (isCallOn entry) fx)
      <= occurrences entry chain * iterations cfg)%nat) /\
  (length (callsOf fx) <= length chain * iterations cfg)%nat /\
  Forall (fun e => exists entry,
            In entry chain /\ configured router entry = true /\ e = callOf entry)
         (callsOf fx) /\
  Forall (fun d => (d <= maxDelayMs cfg)%Q) (sleepsOf fx) /\
  match outcome with
  | Returns result =>
      (forall entry,
         (length (List.filter (isAttemptOn entry) (rr_attempts result))
          <= occurrences entry chain * attemptsPerEntry cfg)%nat) /\
      (length (rr_attempts result)
       <= length (callsOf fx) + length (List.filter unconfigured chain))%nat /\
      (length (sleepsOf fx) < length (rr_attempts result))%nat /\
      Forall (fun a => In (entryOf a) chain) (rr_attempts result)
  | Throws (ThrowAllProvidersFailed err) =>
      (forall entry,
         (length (List.filter (fun a => bool_decide
                                  (mkEntry (fa_model a) (fa_provider a) = entry))
                              (apf_attempts err))
          <= occurrences entry chain * attemptsPerEntry cfg)%nat) /\
      (length (apf_attempts err)
       <= length (callsOf fx) + length (List.filter unconfigured chain))%nat /\
      (length (sleepsOf fx) <= length (apf_attempts err))%nat /\
      Forall (fun a => In (mkEntry (fa_model a) (fa_provider a)) chain)
             (apf_attempts err)
  | Throws (ThrowError error) =>
      (exists v, error = typeErrorReading v "code") /\
      (length (sleepsOf fx) < length (callsOf fx))%nat
  end.
Proof.
  destruct (route router request w) as [[outcome w'] fx] eqn:Hrun.
  destruct (routeChain_log _ _ _ _ _ _ Hrun)
    as (logged & Hin & Hs & Hwhere & Hc & Hcalls & Hatts & Hlog & Hout).
  split; [done|]. split; [done|]. split; [done|]. split; [done|].
  destruct outcome as [result|[err|thrown]].
  - destruct Hout as (failed & succ & -> & Hf & Hrr & Hs1 & Hs2 & Hmeta & Hsl).
    simpl in Hrr. rewrite Hrr.
    split; [done|]. split; [done|]. split; [rewrite length_app; simpl; lia|done].
  - destruct Hout as (Hf & -> & Hsl). simpl.
    unfold failureAttempts. rewrite length_map.
    split.
    { intros entry. specialize (Hatts entry).
      assert (Hsame : forall l,
                length (List.filter
                          (fun a => bool_decide
                             (mkEntry (fa_model a) (fa_provider a) = entry))
                          (map (fun attempt =>
                                  {| fa_provider := att_provider attempt;
                                     fa_model := att_model attempt;
                                     fa_error := default (newError "Unknown error")
                                                         (att_error attempt);
                                     fa_latencyMs := att_latencyMs attempt;
                                     fa_success := att_success attempt |}) l))
                = length (List.filter (isAttemptOn entry) l)).
      { induction l as [|a l IH]; [done|]. cbn [map List.filter].
        unfold isAttemptOn at 1, entryOf. simpl.
        destruct (bool_decide _); simpl; by rewrite IH. }
      by rewrite Hsame. }
    split; [done|]. split; [done|].
    rewrite Forall_map. simpl. exact Hin.
  - destruct Hout as (_ & Hv & _ & Hlt). by split.
Qed.
End RouteLog.

Lemma route_success_log_witness :
  exists result w' fx failed succ,
    route recoveringRouter (sampleRequest "claude-3-sonnet" None) startWorld
      = (Returns result, w', fx) /\
    rr_attempts result = failed ++ [succ] /\
    meta_failoverAttempts (resp_meta (rr_response result)) = Z.of_nat (length failed).
Proof.
  destruct (route recoveringRouter (sampleRequest "claude-3-sonnet" None) startWorld)
    as [[[result|thrown] w'] fx] eqn:Hrun; [|vm_compute in Hrun; discriminate].
  destruct (route_success_log recoveringRouter (sampleRequest "claude-3-sonnet" None)
              startWorld w' result fx Hrun)
    as (failed & succ & Hatts & _ & _ & _ & _ & _ & Hmeta & _).
  by exists result, w', fx, failed, succ.
Defined.

(** A rejection with [undefined] on the second call: [route] throws the
    [TypeError] after two calls and one sleep, and the attempt it had
    logged is lost. *)
Lemma route_effort_bounded_witness :
  route nullishRouter (sampleRequest "claude-3-sonnet" None) startWorld
  = (Throws (ThrowError (typeErrorReading NullishUndefined "code")),
     mkSim 24 2,
     [CallComplete anthropic (sampleRequest "claude-3-sonnet" None);
      Sleep 10%Q;
      CallComplete anthropic (sampleRequest "claude-3-sonnet" None)]) /\
  (length (List.filter (isCallOn claudeEntry)
             (snd (route nullishRouter (sampleRequest "claude-3-sonnet" None)
                     startWorld)))
   <= 1 * 3)%nat.
Proof.
  split; [by vm_compute|].
  pose proof (route_effort_bounded nullishRouter (sampleRequest "claude-3-sonnet" None)
                startWorld) as Hbound.
  destruct (route nullishRouter (sampleRequest "claude-3-sonnet" None) startWorld)
    as [[outcome w'] fx].
  destruct Hbound as [Hcalls _]. exact (Hcalls claudeEntry).
Defined.

(** ** Budgets, timeouts and the chain *)

Section Budget.
Context `{Runtime}.
Variables (router : Router) (request : CompletionRequest).

Local Abbreviation cfg := (retryConfig router).

(** With a negative [maxRetries] the retry loop never runs: [route] calls
    no adapter and sleeps nothing, and throws the all-failed error whose
    only attempts are those of the entries without an adapter. *)
Theorem negative_budget_calls_nothing (w : World)
    (Hnegative : (maxRetries cfg < 0)%Q) :
  route router request w =
  (Throws (ThrowAllProvidersFailed
             (newAllProvidersFailedError
                (failureAttempts
                   (map notConfiguredAttempt
                      (List.filter (fun entry => negb (configured router entry))
                                   (buildModelChain request)))))),
   w, []).
Proof.
  unfold route.
  assert (Hgen : forall models acc,
    routeChain router request models acc w =
    (Throws (ThrowAllProvidersFailed
               (newAllProvidersFailedError
                  (failureAttempts
                     (acc ++ map notConfiguredAttempt
                        (List.filter (fun entry => negb (configured router entry))
                                     models))))),
     w, [])).
  { induction models as [|entry rest IH]; intros acc; simpl.
    - by rewrite app_nil_r.
    - unfold tryEntry, configured.
      destruct (providers router !! entry_provider entry) as [adapter|]; simpl.
      + rewrite (iterations_negative cfg Hnegative). simpl.
        by rewrite IH.
      + rewrite IH. by rewrite <- app_assoc. }
  apply (Hgen _ []).
Qed.

(** An adapter whose calls never settle within the timeout gets the
    whole budget when [TIMEOUT] is a retryable token:
    [floor(maxRetries) + 1] attempts, that is [maxRetries + 1] for an
    integer [maxRetries], each failed with the timeout error that names
    the request's own timeout or else the router's default. *)
Theorem pending_calls_time_out (adapter : ProviderAdapter) (entry : ChainEntry)
    (attempts : list Attempt) (w : World)
    (Hconfigured : providers router !! entry_provider entry = Some adapter)
    (Hbudget : (0 <= maxRetries cfg)%Q)
    (Htoken : In "TIMEOUT"%string (retryableErrors cfg))
    (Hpending : forall call w0, fst (complete adapter call w0) = Pending) :
  exists seg w' fx,
    tryEntry router request entry attempts w = (ExitBreak (attempts ++ seg), w', fx) /\
    Z.of_nat (length seg) = Qfloor (maxRetries cfg) + 1 /\
    (forall m : Z, (maxRetries cfg == inject_Z m)%Q ->
       Z.of_nat (length seg) = m + 1) /\
    Forall (fun a =>
              att_success a = false /\
              att_error a = Some (timeoutError
                                    (default (defaultTimeout router)
                                             (req_timeout request)))) seg /\
    errorCode (timeoutError (default (defaultTimeout router) (req_timeout request)))
      = "TIMEOUT"%string.
Proof.
  set (t := default (defaultTimeout router) (req_timeout request)).
  assert (Hretryable : isRetryable cfg (timeoutError t) = true).
  { apply isRetryable_Substring. exists "TIMEOUT"%string. split; [done|].
    left. by exists EmptyString, EmptyString. }
  assert (Hloop : forall n retry acc w0,
    Z.of_nat n = Qfloor (maxRetries cfg) + 1 - retry ->
    exists seg w' fx,
      retryLoop router adapter request entry n retry acc w0
        = (ExitBreak (acc ++ seg), w', fx) /\
      length seg = n /\
      Forall (fun a => att_success a = false /\
                       att_error a = Some (timeoutError t)) seg).
  { induction n as [|n IH]; intros retry acc w0 Hn.
    { exists [], w0, []. by rewrite app_nil_r. }
    simpl. pose proof (Hpending (withModel request (entry_model entry)) w0) as Hcall.
    destruct (complete adapter _ w0) as [promise w1]. simpl in Hcall. subst promise.
    simpl. fold t. rewrite Hretryable. simpl.
    destruct (Qeq_bool (inject_Z retry) (maxRetries cfg)) eqn:Hlast.
    - apply lastAllowed_floor in Hlast. assert (n = 0%nat) as -> by lia.
      eexists [_], _, _. split; [done|]. by repeat constructor.
    - match goal with |- context [retryLoop _ _ _ _ n (retry + 1) ?acc1 ?w2] =>
        destruct (IH (retry + 1) acc1 w2)
          as (seg & w' & fx & Hrun & Hlen & Hall); [lia|] end.
      rewrite Hrun, <- app_assoc.
      eexists (_ :: seg), w', _. split; [done|].
      split; [simpl; lia|]. by repeat constructor. }
  pose proof (iterations_nonnegative cfg Hbudget) as Hiter.
  destruct (Hloop (iterations cfg) 0 attempts w) as (seg & w' & fx & Hrun & Hlen & Hall).
  { lia. }
  exists seg, w', fx. unfold tryEntry. rewrite Hconfigured.
  split; [done|]. split; [lia|].
  split.
  { intros m Hm. rewrite Hlen, Hiter, (Qfloor_comp _ _ Hm), Qfloor_Z. done. }
  by split.
Qed.

(** The chain holds the request's model and its fallbacks, in that
    order, without those the resolver does not know, each with the
    provider the resolver gives it (for model names that are not
    inherited property names). *)
Theorem buildModelChain_resolvable_in_order
    (Hown : Forall ownName (req_model request :: default [] (req_fallback request))) :
  map entry_model (buildModelChain request)
    = List.filter resolvable (req_model request :: default [] (req_fallback request)) /\
  Forall (fun entry => getProviderForModel (entry_model entry)
                       = Some (entry_provider entry))
         (buildModelChain request) /\
  (length (buildModelChain request)
     <= S (length (default [] (req_fallback request))))%nat.
Proof.
  assert (Hfallback : forall models,
    let entries :=
      omap (fun model => match getProviderForModel model with
                         | Some provider => Some (mkEntry model provider)
                         | None => None
                         end) models in
    map entry_model entries = List.filter resolvable models /\
    Forall (fun entry => getProviderForModel (entry_model entry)
                         = Some (entry_provider entry)) entries /\
    (length entries <= length models)%nat).
  { induction models as [|m models (IH1 & IH2 & IH3)]; [done|].
    cbn [omap list_omap List.filter]. unfold resolvable at 1.
    destruct (getProviderForModel m) as [p|] eqn:Hm; cbn [map length entry_model].
    - rewrite IH1. split; [done|]. split; [by constructor|lia].
    - split; [done|]. split; [done|lia]. }
  unfold buildModelChain.
  destruct (Hfallback (default [] (req_fallback request))) as (H1 & H2 & H3).
  assert (Hsame :
    match req_fallback request with
    | Some models =>
        omap (fun model => match getProviderForModel model with
                           | Some provider => Some (mkEntry model provider)
                           | None => None
                           end) models
    | None => []
    end
    = omap (fun model => match getProviderForModel model with
                         | Some provider => Some (mkEntry model provider)
                         | None => None
                         end) (default [] (req_fallback request)))
    by (by destruct (req_fallback request)).
  rewrite Hsame. simpl List.filter. unfold resolvable at 1.
  destruct (getProviderForModel (req_model request)) as [p|] eqn:Hp; simpl.
  - rewrite H1. split; [done|]. split; [by constructor|lia].
  - split; [done|]. split; [done|lia].
Qed.
End Budget.

Lemma negative_budget_calls_nothing_witness :
  (maxRetries (retryConfig noBudgetRouter) < 0)%Q /\
  route noBudgetRouter claudeThenGpt startWorld =
  (Throws (ThrowAllProvidersFailed
             (newAllProvidersFailedError
                (failureAttempts [notConfiguredAttempt gptEntry]))),
   startWorld, []).
Proof.
  assert (Hnegative : (maxRetries (retryConfig noBudgetRouter) < 0)%Q) by reflexivity.
  split; [exact Hnegative|].
  apply (negative_budget_calls_nothing noBudgetRouter claudeThenGpt startWorld Hnegative).
Defined.

Lemma pending_calls_time_out_witness :
  providers hangingRouter !! entry_provider claudeEntry = Some hangingAnthropic /\
  (0 <= maxRetries (retryConfig hangingRouter))%Q /\
  In "TIMEOUT"%string (retryableErrors (retryConfig hangingRouter)) /\
  exists seg w' fx,
    tryEntry hangingRouter claudeThenGpt claudeEntry [] startWorld
      = (ExitBreak ([] ++ seg), w', fx) /\
    Z.of_nat (length seg) = 3 /\
    Forall (fun a => att_error a = Some (timeoutError 5000)) seg.
Proof.
  assert (Hconfigured :
    providers hangingRouter !! entry_provider claudeEntry = Some hangingAnthropic)
    by (vm_compute; reflexivity).
  assert (Hbudget : (0 <= maxRetries (retryConfig hangingRouter))%Q)
    by (vm_compute; discriminate).
  assert (Htoken : In "TIMEOUT"%string (retryableErrors (retryConfig hangingRouter)))
    by (simpl; tauto).
  assert (Hpending : forall call w0, fst (complete hangingAnthropic call w0) = Pending).
  { intros call w0. simpl. by destruct (sim_calls w0). }
  split; [exact Hconfigured|]. split; [exact Hbudget|]. split; [exact Htoken|].
  destruct (pending_calls_time_out hangingRouter claudeThenGpt hangingAnthropic
              claudeEntry [] startWorld Hconfigured Hbudget Htoken Hpending)
    as (seg & w' & fx & Hrun & _ & Hlen & Hall & _).
  exists seg, w', fx. split; [exact Hrun|]. split; [apply (Hlen 2); reflexivity|].
  eapply Forall_impl; [exact Hall|]. intros a [_ Ha]. exact Ha.
Defined.

(** ** The registry *)

Lemma getProviderForModel_prefixRule (model : string) :
  getProviderForModel model = prefixRule model.
Proof.
  unfold getProviderForModel.
  destruct (tableLookup MODEL_PROVIDER_MAP model) as [p|] eqn:Hlookup; [|done].
  unfold MODEL_PROVIDER_MAP in Hlookup. cbn [tableLookup] in Hlookup.
  repeat match type of Hlookup with
         | (if String.eqb ?k model then _ else _) = _ =>
             destruct (String.eqb_spec k model) as [<-|_];
               [by injection Hlookup as <-|]
         end.
  discriminate.
Qed.

(** The table never contradicts the prefix patterns.  A model whose name
    is not an inherited property name resolves exactly as its prefix
    says: to a provider when its name starts with [claude], [gpt],
    [gemini] or [mistral] (the first of them that matches,
    case-sensitively), and to nothing otherwise. *)
Theorem getProviderForModel_by_prefix (model : string) (Hown : ownName model) :
  getProviderForModel model = prefixRule model /\
  (getProviderForModel model = None <->
   ~ exists prefix rest,
       In prefix ["claude"; "gpt"; "gemini"; "mistral"]%string /\
       model = (prefix +:+ rest)%string).
Proof.
  pose proof (getProviderForModel_prefixRule model) as Hsame.
  split; [done|]. rewrite Hsame. unfold prefixRule, startsWith. split.
  - intros Hnone (prefix & rest & Hin & ->).
    assert (Hprefix : String.prefix prefix (prefix +:+ rest) = true)
      by (apply prefix_append; by exists rest).
    simpl in Hin.
    destruct Hin as [<-|[<-|[<-|[<-|[]]]]]; rewrite ?Hprefix in Hnone;
      repeat (destruct (String.prefix _ _); try discriminate).
  - intros Hno.
    destruct (String.prefix "claude" model) eqn:H1.
    { exfalso. apply Hno. apply prefix_append in H1 as [rest ->].
      exists "claude"%string, rest. simpl. tauto. }
    destruct (String.prefix "gpt" model) eqn:H2.
    { exfalso. apply Hno. apply prefix_append in H2 as [rest ->].
      exists "gpt"%string, rest. simpl. tauto. }
    destruct (String.prefix "gemini" model) eqn:H3.
    { exfalso. apply Hno. apply prefix_append in H3 as [rest ->].
      exists "gemini"%string, rest. simpl. tauto. }
    destruct (String.prefix "mistral" model) eqn:H4; [|done].
    exfalso. apply Hno. apply prefix_append in H4 as [rest ->].
    exists "mistral"%string, rest. simpl. tauto.
Qed.

(** Every model [getModelsForProvider] lists for a provider resolves
    back to that provider, and no model is listed twice; the converse
    fails, for [mistral] has no listed model although [mistral-]names
    resolve to it. *)
Theorem getModelsForProvider_resolve_back (provider : ProviderName) :
  Forall (fun model => getProviderForModel model = Some provider)
         (getModelsForProvider provider) /\
  NoDup (getModelsForProvider provider) /\
  getModelsForProvider mistral = [] /\
  getProviderForModel "mistral-large" = Some mistral /\
  length (getModelsForProvider anthropic) = 10%nat /\
  length (getModelsForProvider openai) = 7%nat /\
  length (getModelsForProvider google) = 5%nat.
Proof.
  split.
  { destruct provider; vm_compute; repeat constructor. }
  split.
  { apply NoDup_ListNoDup. destruct provider; vm_compute;
      repeat (constructor; [intros Hin; repeat (destruct Hin as [Hin|Hin];
                              [discriminate|]); exact Hin|]);
      constructor. }
  by vm_compute.
Qed.

Section Providers.
Context `{Runtime}.
Variable construct : ProviderName -> ProviderCredentials -> ProviderAdapter.

(** [createProviders] configures a provider exactly when its credentials
    are given with a non-empty key, and never [mistral], whatever the
    configuration says. *)
Lemma createProviders_lookup (config : ProvidersConfig) (provider : ProviderName) :
  createProviders construct config !! provider =
  match provider with
  | anthropic => construct anthropic <$> usable (pc_anthropic config)
  | openai => construct openai <$> usable (pc_openai config)
  | google => construct google <$> usable (pc_google config)
  | mistral => None
  end.
Proof.
  unfold createProviders.
  destruct (usable (pc_anthropic config)), (usable (pc_openai config)),
    (usable (pc_google config)), provider; simpl;
    by simplify_map_eq.
Qed.

(** So a model named [mistral...] is resolved but never served: on a
    router over [createProviders], [route] logs "Provider mistral not
    configured" for it and calls nothing. *)
Theorem mistral_is_never_configured (config : ProvidersConfig)
    (retry : option PartialRetryConfig) (timeout : option Z)
    (request : CompletionRequest) (rest : string)
    (attempts : list Attempt) (w : World) :
  let router :=
    newRouter (mkRouterConfig _ (createProviders construct config) retry timeout) in
  let model := ("mistral" +:+ rest)%string in
  getProviderForModel model = Some mistral /\
  tryEntry router request (mkEntry model mistral) attempts w =
  (ExitBreak (attempts ++ [notConfiguredAttempt (mkEntry model mistral)]), w, []) /\
  att_error (notConfiguredAttempt (mkEntry model mistral))
    = Some (newError "Provider mistral not configured").
Proof.
  intros router model. split.
  - rewrite getProviderForModel_prefixRule. subst model.
    assert (Hother : forall p, In p ["claude"; "gpt"; "gemini"]%string ->
                       String.prefix p ("mistral" +:+ rest) = false).
    { intros p Hp. destruct (String.prefix p _) eqn:Hpre; [|done].
      apply prefix_append in Hpre as [post Hpost]. simpl in Hp.
      destruct Hp as [<-|[<-|[<-|[]]]]; rewrite !append_cons in Hpost; discriminate. }
    assert (Hmistral : String.prefix "mistral" ("mistral" +:+ rest) = true)
      by (apply prefix_append; by exists rest).
    unfold prefixRule, startsWith.
    rewrite !Hother by (simpl; tauto). by rewrite Hmistral.
  - split; [|done]. unfold tryEntry. simpl.
    by rewrite createProviders_lookup.
Qed.
End Providers.

(** ** The streams [routeStream] opens *)

Section StreamRuns.
Context `{Runtime}.
Variables (router : Router) (request : CompletionRequest).

Local Abbreviation opened :=
  (fun entry => CallStream (entry_provider entry) (withModel request (entry_model entry))).

Lemma routeStreamChain_runs (models : list ChainEntry) :
  forall acc w,
    let out := routeStreamChain router request models acc w in
    let runs := streamRuns router request models w in
    let candidates := List.filter (configured router) models in
    yielded out = stampedFrom (arrayLength acc) runs /\
    effects out = map opened (take (length runs) candidates) /\
    match ending out with
    | StreamReturned =>
        exists failed final,
          runs = failed ++ [final] /\ failure final = None /\
          Forall (fun run => is_Some (failure run)) failed
    | StreamThrew thrown =>
        exists attempts,
          thrown = ThrowAllProvidersFailed
                     (newAllProvidersFailedError (failureAttempts (acc ++ attempts))) /\
          map entryOf attempts = candidates /\
          map att_error attempts = map failure runs /\
          Forall failedAttempt attempts /\
          length runs = length candidates
    end.
Proof.
  induction models as [|[model provider] rest IH]; intros acc w.
  { simpl. repeat split. exists []. by rewrite app_nil_r. }
  cbn [routeStreamChain streamRuns List.filter entry_provider entry_model].
  destruct (providers router !! provider) as [adapter|] eqn:Hadapter.
  2: { assert (Hc : configured router (mkEntry model provider) = false)
         by (unfold configured; simpl; by rewrite Hadapter).
       rewrite Hc. apply IH. }
  assert (Hc : configured router (mkEntry model provider) = true)
    by (unfold configured; simpl; by rewrite Hadapter).
  rewrite Hc.
  destruct (stream adapter _ w) as [[chunks [error|]] w1]; simpl.
  - specialize (IH (acc ++ [mkAttempt provider model false (Some error)
                              (now w1 - now w)]) w1).
    simpl in IH. destruct IH as (Hy & Hfx & Hend).
    rewrite arrayLength_app in Hy. change (arrayLength [_]) with 1 in Hy.
    split; [by rewrite Hy|]. split; [by rewrite Hfx|].
    destruct (ending (routeStreamChain router request rest _ w1)) as [|thrown].
    + destruct Hend as (failed & final & -> & Hnone & Hall).
      exists (mkStreamRun chunks (Some error) :: failed), final.
      split; [done|]. split; [done|]. constructor; [by eexists | done].
    + destruct Hend as (attempts & -> & Hentries & Herrors & Hall & Hlen).
      exists (mkAttempt provider model false (Some error) (now w1 - now w) :: attempts).
      rewrite <- app_assoc. split; [done|]. simpl.
      split; [by rewrite Hentries|]. split; [by rewrite Herrors|].
      split; [constructor; [split; [done | by eexists] | done]|].
      by rewrite Hlen.
  - rewrite app_nil_r. repeat split.
    exists [], (mkStreamRun chunks None). by repeat split.
Qed.

(** What [routeStream] yields and does, from the streams it opens: it
    opens the stream of each configured entry at most once, in chain
    order, and stops at the first that completes; it yields the chunks
    of every opened stream, those of a failed one included, each
    meta-bearing chunk stamped with the number of streams that failed
    before its own; it throws the all-failed error, with one attempt per
    opened stream, exactly when every configured entry's stream
    failed. *)
Theorem routeStream_yields_opened_streams (w : World) :
  let out := routeStream router request w in
  let runs := streamRuns router request (buildModelChain request) w in
  let candidates := List.filter (configured router) (buildModelChain request) in
  yielded out = stampedFrom 0 runs /\
  effects out = map opened (take (length runs) candidates) /\
  match ending out with
  | StreamReturned =>
      exists failed final,
        runs = failed ++ [final] /\ failure final = None /\
        Forall (fun run => is_Some (failure run)) failed
  | StreamThrew thrown =>
      exists attempts,
        thrown = ThrowAllProvidersFailed
                   (newAllProvidersFailedError (failureAttempts attempts)) /\
        map entryOf attempts = candidates /\
        map att_error attempts = map failure runs /\
        Forall failedAttempt attempts /\
        length runs = length candidates
  end.
Proof. apply (routeStreamChain_runs (buildModelChain request) [] w). Qed.

(** A chunk without [meta] is yielded as the stream produced it, and
    stamping touches nothing but [meta.failoverAttempts]. *)
Theorem stampChunk_only_failoverAttempts (n : Z) (chunk : StreamChunk) :
  chunk_content (stampChunk n chunk) = chunk_content chunk /\
  chunk_finishReason (stampChunk n chunk) = chunk_finishReason chunk /\
  (chunk_meta chunk = None -> stampChunk n chunk = chunk) /\
  (forall m, chunk_meta chunk = Some m ->
     exists m', chunk_meta (stampChunk n chunk) = Some m' /\
                pm_failoverAttempts m' = Some n /\
                pm_provider m' = pm_provider m /\
                pm_model m' = pm_model m /\
                pm_latencyMs m' = pm_latencyMs m) /\
  stampChunk n (stampChunk 0 chunk) = stampChunk n chunk.
Proof.
  unfold stampChunk. destruct chunk as [content reason [m|]]; simpl.
  - repeat split; try done. intros m0 [= <-]. by eexists.
  - repeat split; try done.
Qed.
End StreamRuns.

(** ** Sampling and the export queue *)

Section Sampling.
Implicit Types (st : Store) (r : SpanRef) (env : Env) (op : SpanOp).

(** The tracer's own fields, the stack apart, are the same in two
    stores. *)
Local Abbreviation sameFields st' st :=
  (config st' = config st /\ spans st' = spans st /\
   exportQueue st' = exportQueue st /\ inflight st' = inflight st /\
   posted st' = posted st).

Lemma config_flush_fetch st rejected :
  config (flush st) = config st /\ config (fetchSettled rejected st) = config st.
Proof.
  split; [apply config_flush|]. unfold fetchSettled. by destruct (inflight st).
Qed.

(** The calls on spans, [end()] apart, leave them alone. *)
Lemma sameFields_span_calls env op st :
  match op with
  | OpEnd _ | OpFlush | OpFetchSettled _ | OpClearSpans => True
  | _ => sameFields (exec (env, op) st) st
  end.
Proof.
  destruct op; cbn [exec]; try done.
  unfold startChild. by destruct (heap st !! r).
Qed.

Lemma Span_end_unsampled env r st :
  shouldSample (config st) env = false ->
  sameFields (Span_end env r st) st.
Proof. intros Hs. unfold Span_end, recordSpan. simpl. by rewrite Hs. Qed.

Lemma config_recordSpan env r st : config (recordSpan env r st) = config st.
Proof.
  unfold recordSpan. destruct (shouldSample _ env); [|done].
  destruct (_ <=? _)%nat; [by rewrite config_flush | done].
Qed.

Lemma config_exec env op st : config (exec (env, op) st) = config st.
Proof.
  destruct op; cbn [exec]; try done.
  - unfold startChild. by destruct (heap st !! r).
  - unfold Span_end, endSpan. cbn [config]. by rewrite config_recordSpan.
  - apply config_flush.
  - apply config_flush_fetch.
Qed.

Lemma config_run (steps : list (Env * SpanOp)) :
  forall st, config (run steps st) = config st.
Proof.
  induction steps as [|[env op] steps IH]; intros st; [done|].
  change (run ((env, op) :: steps) st) with (run steps (exec (env, op) st)).
  by rewrite IH, config_exec.
Qed.

Lemma samplesNone_shouldSample (cfg : TracingConfig) env op
    (steps : list (Env * SpanOp)) :
  samplesNone cfg ((env, op) :: steps) ->
  shouldSample cfg env = false /\ samplesNone cfg steps.
Proof.
  intros [Hoff|(rate & Hrate & Hle & Hdraws)].
  - split; [|by left]. unfold shouldSample. by rewrite Hoff.
  - inversion Hdraws as [|? ? Hdraw Hrest]; subst. simpl in Hdraw.
    split; [|right; by exists rate].
    unfold shouldSample. destruct (cfg_enabled cfg); [|done]. simpl.
    rewrite Hrate. destruct (Qlt_le_dec (draw env) rate) as [Hlt|]; [|done].
    exfalso. apply (Qlt_not_le (draw env) 0); [|done].
    by apply Qlt_le_trans with rate.
Qed.

(** A tracer that is disabled, or whose sampling rate is 0, records and
    exports nothing, however many spans are started and ended on it. *)
Theorem unsampled_tracer_records_nothing (cfg : TracingConfig)
    (steps : list (Env * SpanOp)) (Hnone : samplesNone cfg steps) :
  let st := run steps (newTracer cfg) in
  getSpans st = [] /\ spans st = [] /\ exportQueue st = [] /\
  inflight st = [] /\ posted st = [].
Proof.
  assert (Hgen : forall st,
    config st = cfg -> spans st = [] -> exportQueue st = [] ->
    inflight st = [] -> posted st = [] ->
    spans (run steps st) = [] /\ exportQueue (run steps st) = [] /\
    inflight (run steps st) = [] /\ posted (run steps st) = []).
  { induction steps as [|[env op] steps IH]; intros st Hc H1 H2 H3 H4; [done|].
    destruct (samplesNone_shouldSample _ _ _ _ Hnone) as [Hs Hrest].
    change (run ((env, op) :: steps) st) with (run steps (exec (env, op) st)).
    assert (Hstep : sameFields (exec (env, op) st) st).
    { pose proof (sameFields_span_calls env op st) as Hfields.
      destruct op; try done; cbn [exec].
      - apply Span_end_unsampled. by rewrite Hc.
      - unfold flush. destruct (truthyString _); [|done].
        destruct (exportQueue st) eqn:Hq; [by rewrite ?Hq | discriminate].
      - unfold fetchSettled.
        destruct (inflight st) eqn:Hi; [by rewrite ?Hi | discriminate]. }
    destruct Hstep as (Hc' & H1' & H2' & H3' & H4').
    apply (IH Hrest); congruence. }
  intros st. destruct (Hgen (newTracer cfg)) as (H1 & H2 & H3 & H4); try done.
  subst st. unfold getSpans. by rewrite H1.
Qed.

Lemma samplesAll_shouldSample (cfg : TracingConfig) env op
    (steps : list (Env * SpanOp)) :
  samplesAll cfg ((env, op) :: steps) ->
  shouldSample cfg env = true /\ samplesAll cfg steps.
Proof.
  intros [Hon Hrate]. unfold shouldSample, samplesAll. rewrite Hon. simpl.
  destruct (cfg_sampleRate cfg) as [rate|]; [|done].
  inversion Hrate as [|? ? Hdraw Hrest]; subst. simpl in Hdraw.
  split; [|done]. destruct (Qlt_le_dec (draw env) rate) as [|Hle]; [done|].
  exfalso. by apply (Qlt_not_le (draw env) rate).
Qed.

Lemma falsy_endpoint_flush st :
  truthyString (cfg_exportEndpoint (config st)) = None -> flush st = st.
Proof. intros Hfalsy. unfold flush. by rewrite Hfalsy. Qed.

Lemma recordSpan_no_endpoint env r st :
  shouldSample (config st) env = true ->
  truthyString (cfg_exportEndpoint (config st)) = None ->
  recordSpan env r st =
  mkStore (heap st) (config st) (spans st ++ [r]) (spanStack st)
          (exportQueue st ++ [r]) (inflight st) (posted st).
Proof.
  intros Hs Hfalsy. unfold recordSpan. rewrite Hs.
  destruct (_ <=? _)%nat; [by apply falsy_endpoint_flush | done].
Qed.

(** A tracer that samples everything and has no export endpoint records
    one entry for each call of [end()], in call order, and its export
    queue keeps every one of them: neither [flush], nor the automatic
    flush at 100 entries, nor [clearSpans] ever takes an entry out. *)
Theorem queue_without_endpoint_only_grows (cfg : TracingConfig)
    (steps : list (Env * SpanOp))
    (Hall : samplesAll cfg steps)
    (Hfalsy : truthyString (cfg_exportEndpoint cfg) = None) :
  let st := run steps (newTracer cfg) in
  exportQueue st = endedRefs steps /\
  inflight st = [] /\ posted st = [] /\
  (noClearSpans steps -> spans st = endedRefs steps).
Proof.
  assert (Hgen : forall st,
    config st = cfg -> inflight st = [] -> posted st = [] ->
    exportQueue (run steps st) = exportQueue st ++ endedRefs steps /\
    inflight (run steps st) = [] /\ posted (run steps st) = [] /\
    (noClearSpans steps -> spans (run steps st) = spans st ++ endedRefs steps)).
  { induction steps as [|[env op] steps IH]; intros st Hc H3 H4.
    { simpl. by rewrite !app_nil_r. }
    destruct (samplesAll_shouldSample _ _ _ _ Hall) as [Hs Hrest].
    change (run ((env, op) :: steps) st) with (run steps (exec (env, op) st)).
    assert (Hstep :
      config (exec (env, op) st) = cfg /\
      inflight (exec (env, op) st) = [] /\ posted (exec (env, op) st) = [] /\
      exportQueue (exec (env, op) st) = exportQueue st ++ endedRefs [(env, op)] /\
      (op <> OpClearSpans ->
       spans (exec (env, op) st) = spans st ++ endedRefs [(env, op)])).
    { split; [by rewrite config_exec|].
      pose proof (sameFields_span_calls env op st) as Hfields.
      destruct op;
        try (destruct Hfields as (_ & -> & -> & -> & ->);
             unfold endedRefs; simpl; by rewrite !app_nil_r); cbn [exec].
      - unfold Span_end. rewrite recordSpan_no_endpoint by (simpl; by rewrite Hc).
        simpl. by rewrite H3, H4.
      - rewrite falsy_endpoint_flush by (by rewrite Hc).
        unfold endedRefs. simpl. by rewrite !app_nil_r.
      - unfold fetchSettled. rewrite H3.
        unfold endedRefs. simpl. by rewrite !app_nil_r.
      - unfold endedRefs. simpl. rewrite !app_nil_r. by repeat split. }
    destruct Hstep as (Hc' & H3' & H4' & Hq & Hsp).
    destruct (IH Hrest _ Hc' H3' H4') as (IHq & IH3 & IH4 & IHsp).
    assert (Hcons : endedRefs ((env, op) :: steps)
                    = endedRefs [(env, op)] ++ endedRefs steps)
      by apply (omap_app _ [(env, op)] steps).
    rewrite Hcons, IHq, Hq, <- !app_assoc. repeat split; try done.
    intros Hnoclear. inversion Hnoclear as [|? ? Hop Hsteps]; subst. simpl in Hop.
    rewrite (IHsp Hsteps), (Hsp Hop). by rewrite <- app_assoc. }
  intros st. destruct (Hgen (newTracer cfg)) as (H1 & H2 & H3 & H4); try done.
Qed.
End Sampling.

Lemma unsampled_tracer_records_nothing_witness :
  let steps := [(testEnv 0, OpStartSpan "s" None None None);
                (testEnv 5, OpEnd 0%nat)] in
  samplesNone unsampledTracerConfig steps /\
  getSpans (run steps (newTracer unsampledTracerConfig)) = [].
Proof.
  intros steps.
  assert (Hnone : samplesNone unsampledTracerConfig steps).
  { right. exists 0%Q. split; [reflexivity|]. split; [apply Qle_refl|].
    repeat constructor; apply Qle_refl. }
  split; [exact Hnone|].
  apply (unsampled_tracer_records_nothing unsampledTracerConfig steps Hnone).
Defined.

Lemma queue_without_endpoint_only_grows_witness :
  let cfg := mkTracingConfig true None None None in
  let steps := [(testEnv 0, OpStartSpan "s" None None None);
                (testEnv 5, OpEnd 0%nat);
                (testEnv 6, OpClearSpans);
                (testEnv 7, OpFlush);
                (testEnv 9, OpEnd 0%nat)] in
  samplesAll cfg steps /\
  truthyString (cfg_exportEndpoint cfg) = None /\
  exportQueue (run steps (newTracer cfg)) = [0%nat; 0%nat].
Proof.
  intros cfg steps.
  assert (Hall : samplesAll cfg steps) by (by split).
  assert (Hfalsy : truthyString (cfg_exportEndpoint cfg) = None) by reflexivity.
  split; [exact Hall|]. split; [exact Hfalsy|].
  apply (queue_without_endpoint_only_grows cfg steps Hall Hfalsy).
Defined.

(** ** Exporting *)

Section Exporting.
Implicit Types (st : Store) (r : SpanRef) (env : Env) (op : SpanOp).

(** A batch as [flush] hands it to [fetch]. *)
Local Abbreviation batchOk := (fun batch : list SpanRef =>
  (0 < length batch <= 100)%nat).

Lemma flush_with_endpoint st (url : string) :
  truthyString (cfg_exportEndpoint (config st)) = Some url ->
  flush st =
  match exportQueue st with
  | [] => st
  | toExport =>
      mkStore (heap st) (config st) (spans st) (spanStack st) []
              (inflight st ++ [toExport]) (posted st ++ [readAll st toExport])
  end.
Proof. intros Hurl. unfold flush. rewrite Hurl. by destruct (exportQueue st). Qed.

Lemma flush_bounded st (url : string) :
  truthyString (cfg_exportEndpoint (config st)) = Some url ->
  (length (exportQueue st) <= 100)%nat ->
  Forall batchOk (inflight st) ->
  exportQueue st <> [] ->
  exportQueue (flush st) = [] /\ Forall batchOk (inflight (flush st)).
Proof.
  intros Hurl Hlen Hbatches Hne. rewrite (flush_with_endpoint st url Hurl).
  destruct (exportQueue st) as [|x queue] eqn:Hq; [done|]. simpl.
  split; [done|]. apply Forall_app. split; [done|].
  apply Forall_singleton. simpl in *. lia.
Qed.

Lemma recordSpan_bounded env r st (url : string) :
  truthyString (cfg_exportEndpoint (config st)) = Some url ->
  (length (exportQueue st) < 100)%nat ->
  Forall batchOk (inflight st) ->
  (length (exportQueue (recordSpan env r st)) < 100)%nat /\
  Forall batchOk (inflight (recordSpan env r st)).
Proof.
  intros Hurl Hlen Hbatches. unfold recordSpan.
  destruct (shouldSample (config st) env); [|done].
  set (st1 := mkStore _ _ _ _ _ _ _).
  assert (Hlen1 : length (exportQueue st1) = S (length (exportQueue st))).
  { subst st1. simpl. rewrite length_app. simpl. lia. }
  destruct (Nat.leb_spec 100 (length (exportQueue st1))) as [Hfull|Hroom].
  - destruct (flush_bounded st1 url) as [Hq Hb]; try done; try lia.
    { intros Hnil. rewrite Hnil in Hlen1. discriminate. }
    rewrite Hq. simpl. split; [lia|done].
  - split; [lia|done].
Qed.

(** With an export endpoint, and as long as no export fails, the queue
    never holds 100 entries: the entry that would be the hundredth
    triggers a flush.  Every batch handed to [fetch] has between 1 and
    100 entries. *)
Theorem export_queue_stays_below_100 (cfg : TracingConfig) (url : string)
    (steps : list (Env * SpanOp))
    (Hendpoint : truthyString (cfg_exportEndpoint cfg) = Some url)
    (Hfetch : noRejectedFetch steps) :
  let st := run steps (newTracer cfg) in
  (length (exportQueue st) < 100)%nat /\
  Forall (fun batch => (0 < length batch <= 100)%nat) (inflight st).
Proof.
  assert (Hgen : forall st,
    config st = cfg -> (length (exportQueue st) < 100)%nat ->
    Forall batchOk (inflight st) ->
    (length (exportQueue (run steps st)) < 100)%nat /\
    Forall batchOk (inflight (run steps st))).
  { induction steps as [|[env op] steps IH]; intros st Hc Hlen Hb; [done|].
    apply Forall_cons in Hfetch as [Hop Hrest]. simpl in Hop.
    change (run ((env, op) :: steps) st) with (run steps (exec (env, op) st)).
    assert (Hurl : truthyString (cfg_exportEndpoint (config st)) = Some url)
      by (by rewrite Hc).
    assert (Hstep : (length (exportQueue (exec (env, op) st)) < 100)%nat /\
                    Forall batchOk (inflight (exec (env, op) st))).
    { pose proof (sameFields_span_calls env op st) as Hfields.
      destruct op; try (destruct Hfields as (_ & _ & -> & -> & _); done);
        cbn [exec].
      - unfold Span_end, endSpan. cbn [exportQueue inflight].
        by apply (recordSpan_bounded env r _ url).
      - destruct (exportQueue st) as [|x queue] eqn:Hq.
        + assert (flush st = st) as ->
            by (rewrite (flush_with_endpoint st url Hurl); by rewrite Hq).
          rewrite Hq. simpl. split; [lia|done].
        + destruct (flush_bounded st url) as [Hq' Hb'];
            [done | rewrite Hq; simpl in *; lia | done | by rewrite Hq |].
          rewrite Hq'. simpl. split; [lia|done].
      - destruct rejected; [done|]. unfold fetchSettled.
        destruct (inflight st) as [|batch others] eqn:Hi; [by rewrite Hi|].
        simpl. split; [done|]. by inversion Hb.
      - done. }
    destruct Hstep as [Hlen' Hb'].
    apply (IH Hrest); [by rewrite config_exec | done | done]. }
  intros st. apply Hgen; [done | simpl; lia | constructor].
Qed.

(** A flush empties the queue into one batch whose serialization holds
    the spans as they read at that moment; if the export fails the batch
    goes back in front of whatever was queued meanwhile, in its own
    order, and if it succeeds the batch is gone. *)
Theorem failed_export_is_requeued_in_front st env r (url : string)
    (Hendpoint : truthyString (cfg_exportEndpoint (config st)) = Some url)
    (Hqueued : exportQueue st <> [])
    (Hidle : inflight st = []) :
  let st1 := flush st in
  let st2 := recordSpan env r st1 in
  exportQueue st1 = [] /\
  inflight st1 = [exportQueue st] /\
  posted st1 = posted st ++ [readAll st (exportQueue st)] /\
  spans st1 = spans st /\
  exportQueue (fetchSettled true st1) = exportQueue st /\
  exportQueue (fetchSettled false st1) = [] /\
  inflight (fetchSettled true st1) = [] /\
  exportQueue (fetchSettled true st2)
    = exportQueue st ++ (if shouldSample (config st) env then [r] else []).
Proof.
  intros st1 st2. subst st2 st1.
  rewrite (flush_with_endpoint st url Hendpoint).
  destruct (exportQueue st) as [|x queue] eqn:Hq; [done|].
  rewrite Hidle. simpl. repeat (split; [by rewrite ?app_nil_r|]).
  unfold recordSpan. simpl.
  destruct (shouldSample (config st) env); simpl; [done|].
  by rewrite app_nil_r.
Qed.
End Exporting.

Lemma export_queue_stays_below_100_witness :
  let steps := [(testEnv 0, OpStartSpan "s" None None None);
                (testEnv 5, OpEnd 0%nat);
                (testEnv 6, OpFlush);
                (testEnv 7, OpFetchSettled false)] in
  truthyString (cfg_exportEndpoint (config exportingTracer))
    = Some "http://collector/spans"%string /\
  noRejectedFetch steps /\
  (length (exportQueue (run steps exportingTracer)) < 100)%nat.
Proof.
  intros steps.
  assert (Hendpoint : truthyString (cfg_exportEndpoint (config exportingTracer))
                      = Some "http://collector/spans"%string) by reflexivity.
  assert (Hfetch : noRejectedFetch steps) by (by repeat constructor).
  split; [exact Hendpoint|]. split; [exact Hfetch|].
  apply (export_queue_stays_below_100 (config exportingTracer) _ steps
           Hendpoint Hfetch).
Defined.

Lemma failed_export_is_requeued_in_front_witness :
  let st := run [(testEnv 0, OpStartSpan "s" None None None);
                 (testEnv 5, OpEnd 0%nat)] exportingTracer in
  exportQueue st <> [] /\ inflight st = [] /\
  exportQueue (flush st) = [] /\
  exportQueue (fetchSettled true (flush st)) = exportQueue st.
Proof.
  intros st.
  assert (Hendpoint : truthyString (cfg_exportEndpoint (config st))
                      = Some "http://collector/spans"%string) by reflexivity.
  assert (Hqueued : exportQueue st <> []) by (vm_compute; discriminate).
  assert (Hidle : inflight st = []) by reflexivity.
  split; [exact Hqueued|]. split; [exact Hidle|].
  destruct (failed_export_is_requeued_in_front st (testEnv 6) 0%nat _
              Hendpoint Hqueued Hidle) as (H1 & _ & _ & _ & H5 & _).
  by split.
Defined.

(** ** The span stack *)

Section Stack.
Implicit Types (st : Store) (r : SpanRef) (env : Env) (op : SpanOp).

Lemma removeLast_absent r (l : list SpanRef) : r ∉ l -> removeLast r l = l.
Proof.
  induction l as [|x l IH]; intros Hnot; [done|]. simpl.
  apply not_elem_of_cons in Hnot as [Hne Hnot].
  rewrite bool_decide_eq_false_2 by done.
  by rewrite bool_decide_eq_false_2 by done.
Qed.

Lemma removeLast_middle r (l1 l2 : list SpanRef) :
  r ∉ l2 -> removeLast r (l1 ++ r :: l2) = l1 ++ l2.
Proof.
  intros Hnot. induction l1 as [|x l1 IH]; simpl.
  - rewrite bool_decide_eq_false_2 by done.
    by rewrite bool_decide_eq_true_2 by done.
  - rewrite bool_decide_eq_true_2; [by rewrite IH|].
    apply elem_of_app. right. by left.
Qed.

Lemma spanStack_recordSpan env r st : spanStack (recordSpan env r st) = spanStack st.
Proof.
  unfold recordSpan. destruct (shouldSample _ env); [|done].
  destruct (_ <=? _)%nat; [|done].
  unfold flush. destruct (truthyString _); [|done]. simpl.
  by destruct (exportQueue st ++ [r]).
Qed.

Lemma spanStack_Span_end env r st :
  spanStack (Span_end env r st) = removeLast r (spanStack st).
Proof. unfold Span_end, endSpan. cbn [spanStack]. by rewrite spanStack_recordSpan. Qed.

Lemma spanStack_mutations (steps : list (Env * SpanOp)) :
  forall st,
    Forall (fun step => isMutation (snd step) = true) steps ->
    spanStack (run steps st) = spanStack st.
Proof.
  induction steps as [|[env op] steps IH]; intros st Hsteps; [done|].
  apply Forall_cons in Hsteps as [Hop Hrest]. simpl in Hop.
  change (run ((env, op) :: steps) st) with (run steps (exec (env, op) st)).
  rewrite (IH _ Hrest). by destruct op.
Qed.

(** [end()] takes the span off the tracer's stack wherever it sits (its
    last occurrence), keeping the others in order; a span that is not on
    the stack (a child made by [startChild], or a span already ended)
    leaves the stack as it is. *)
Theorem end_takes_span_off_stack st env r (l1 l2 : list SpanRef)
    (Hstack : spanStack st = l1 ++ r :: l2) (Hlast : r ∉ l2) :
  spanStack (Span_end env r st) = l1 ++ l2 /\
  (forall r', r' ∉ spanStack st ->
     spanStack (Span_end env r' st) = spanStack st) /\
  (forall name attrs c st',
     startChild env r name attrs st = Some (c, st') ->
     spanStack st' = spanStack st) /\
  (r ∉ l1 -> spanStack (Span_end env r (Span_end env r st)) = l1 ++ l2).
Proof.
  split; [by rewrite spanStack_Span_end, Hstack, removeLast_middle|].
  split; [intros r' Hnot; by rewrite spanStack_Span_end, removeLast_absent|].
  split.
  - intros name attrs c st'. unfold startChild.
    destruct (heap st !! r); [|done]. by intros [= <- <-].
  - intros Hfirst. rewrite !spanStack_Span_end, Hstack, removeLast_middle by done.
    apply removeLast_absent. rewrite not_elem_of_app. by split.
Qed.

(** A span started by [startSpan] is the current span until it ends,
    whatever is written to spans meanwhile, and its [end()] leaves the
    stack as it was before the span was started. *)
Theorem started_span_is_current_until_end st envStart envEnd (name : string)
    (attrs : option (gmap string JsValue)) (parentContext : option SpanContext)
    (traceIdOption : option string) (steps : list (Env * SpanOp))
    (Hsteps : Forall (fun step => isMutation (snd step) = true) steps) :
  let '(r, st1) := startSpan envStart name attrs parentContext traceIdOption st in
  r = length (heap st) /\
  currentSpan st1 = Some r /\
  currentSpan (run steps st1) = Some r /\
  spanStack (Span_end envEnd r (run steps st1)) = spanStack st /\
  currentSpan (Span_end envEnd r (run steps st1)) = currentSpan st.
Proof.
  destruct (startSpan envStart name attrs parentContext traceIdOption st)
    as [r st1] eqn:Hstart.
  assert (Hr : r = length (heap st) /\ spanStack st1 = spanStack st ++ [r]).
  { unfold startSpan, allocSpan in Hstart. simpl in Hstart.
    by injection Hstart as <- <-. }
  destruct Hr as [Hr Hs1].
  assert (Hend : spanStack (Span_end envEnd r (run steps st1)) = spanStack st).
  { rewrite spanStack_Span_end, spanStack_mutations, Hs1 by done.
    rewrite (removeLast_middle r (spanStack st) []) by apply not_elem_of_nil.
    apply app_nil_r. }
  unfold currentSpan.
  rewrite Hend, spanStack_mutations, Hs1 by done.
  by rewrite last_snoc.
Qed.
End Stack.

Lemma end_takes_span_off_stack_witness :
  let st := run [(testEnv 0, OpStartSpan "outer" None None None);
                 (testEnv 1, OpStartSpan "inner" None None None)] enabledTracer in
  spanStack st = [] ++ 0%nat :: [1%nat] /\
  spanStack (Span_end (testEnv 2) 0%nat st) = [1%nat].
Proof.
  intros st.
  assert (Hstack : spanStack st = [] ++ 0%nat :: [1%nat]) by reflexivity.
  assert (Hlast : 0%nat ∉ [1%nat]).
  { intros Hin. apply list_elem_of_In in Hin. simpl in Hin.
    destruct Hin as [Hin|[]]. discriminate. }
  split; [exact Hstack|].
  destruct (end_takes_span_off_stack st (testEnv 2) 0%nat [] [1%nat] Hstack Hlast)
    as [Hoff _].
  exact Hoff.
Defined.

Lemma started_span_is_current_until_end_witness :
  let later := [(testEnv 1, OpSetAttribute 0%nat "k" (JsNumber 1))] in
  Forall (fun step => isMutation (snd step) = true) later /\
  currentSpan
    (Span_end (testEnv 2) 0%nat
       (run later (snd (startSpan (testEnv 0) "s" None None None enabledTracer))))
  = currentSpan enabledTracer.
Proof.
  intros later.
  assert (Hsteps : Forall (fun step => isMutation (snd step) = true) later)
    by (by repeat constructor).
  split; [exact Hsteps|].
  pose proof (started_span_is_current_until_end enabledTracer (testEnv 0) (testEnv 2)
                "s" None None None later Hsteps) as Hcurrent.
  simpl in Hcurrent. destruct Hcurrent as (_ & _ & _ & _ & Hend). exact Hend.
Defined.

(** ** What a span keeps *)

Section SpanLife.
Implicit Types (st : Store) (r : SpanRef) (env : Env) (op : SpanOp) (d : SpanData).

(** [d'] is [d] some calls later: same identity, more events, no
    attribute lost. *)
Local Abbreviation extends d d' :=
  (context d' = context d /\ name d' = name d /\ kind d' = kind d /\
   startTime d' = startTime d /\ links d' = links d /\
   (exists more, events d' = events d ++ more) /\
   dom (attributes d) ⊆ dom (attributes d')).

Lemma extends_refl d : extends d d.
Proof. repeat split; try done. exists []. by rewrite app_nil_r. Qed.

Lemma extends_trans d1 d2 d3 : extends d1 d2 -> extends d2 d3 -> extends d1 d3.
Proof.
  intros (H1 & H2 & H3 & H4 & H5 & [m1 H6] & H7)
         (K1 & K2 & K3 & K4 & K5 & [m2 K6] & K7).
  repeat split; try congruence; [|by etrans].
  exists (m1 ++ m2). by rewrite K6, H6, app_assoc.
Qed.

Lemma extends_setStatusTo d (s : FinalStatus) (message : JsValue) :
  extends d
    (let d1 := assignStatus (statusOf s) d in
     if truthy message
     then assignAttributes (<["error.message"%string := message]> (attributes d1)) d1
     else d1).
Proof.
  destruct (truthy message); simpl; repeat split; try done;
    try (exists []; by rewrite app_nil_r).
  apply dom_insert_subseteq.
Qed.

Lemma extends_Span_end env d :
  extends d
    (match status d with
     | StatusUnset => assignStatus StatusOk (setEndTime (clock env) d)
     | _ => setEndTime (clock env) d
     end).
Proof.
  destruct (status d); simpl; repeat split; try done;
    exists []; by rewrite app_nil_r.
Qed.

Lemma extends_assignAttribute (key : string) (value : JsValue) (s : Span) :
  extends (data s) (data (assignAttribute key value s)).
Proof.
  unfold assignAttribute. repeat case_match; simpl; try apply extends_refl.
  repeat split; try done; [exists []; by rewrite app_nil_r|].
  apply dom_insert_subseteq.
Qed.

Lemma extends_assignAll (attrs : gmap string JsValue) (s : Span) :
  extends (data s) (data (assignAll attrs s)).
Proof.
  unfold assignAll. repeat case_match; simpl; repeat split; try done;
    try (exists []; by rewrite app_nil_r);
    rewrite dom_union_L; apply union_subseteq_r.
Qed.

Lemma lookup_alter_span (f : Span -> Span) r0 r (l : list Span) (s : Span) :
  l !! r = Some s ->
  alter f r0 l !! r = Some (if decide (r0 = r) then f s else s).
Proof.
  intros Hr. destruct (decide (r0 = r)) as [->|Hne].
  - by rewrite list_lookup_alter_eq, Hr.
  - by rewrite list_lookup_alter_ne, Hr.
Qed.

Lemma alter_extends (f : Span -> Span) r0 r (l : list Span) d :
  (forall s0, extends (data s0) (data (f s0))) ->
  data <$> l !! r = Some d ->
  exists d', data <$> alter f r0 l !! r = Some d' /\ extends d d'.
Proof.
  intros Hf Hd. destruct (l !! r) as [s0|] eqn:Hr; [|done].
  simpl in Hd. injection Hd as <-.
  rewrite (lookup_alter_span f r0 r l s0 Hr). simpl. eexists. split; [done|].
  destruct (decide (r0 = r)); [apply Hf | apply extends_refl].
Qed.

Lemma exec_extends env op r st d :
  getData r st = Some d ->
  exists d', getData r (exec (env, op) st) = Some d' /\ extends d d'.
Proof.
  intros Hd. unfold getData in *.
  assert (Hlt : (r < length (heap st))%nat).
  { destruct (heap st !! r) eqn:Hr; [by eapply lookup_lt_Some | done]. }
  assert (Hsame : exists d', Some d = Some d' /\ extends d d')
    by (exists d; split; [done | apply extends_refl]).
  destruct op; cbn [exec].
  - simpl. by rewrite lookup_app_l, Hd by done.
  - unfold startChild. destruct (heap st !! r0) as [parent|] eqn:Hr0; simpl.
    + apply alter_extends; [intros s0; apply extends_refl|].
      by rewrite lookup_app_l.
    + by rewrite Hd.
  - apply alter_extends; [|done]. intros s0. apply extends_assignAttribute.
  - apply alter_extends; [|done]. intros s0. apply extends_assignAll.
  - apply alter_extends; [|done]. intros s0. simpl.
    repeat split; try done. by eexists.
  - apply alter_extends; [|done]. intros s0. apply extends_setStatusTo.
  - unfold recordException, addEvent, setStatusTo, updateSpan. cbn [heap].
    match goal with |- context [alter ?f r0 (alter ?g r0 (heap st))] =>
      destruct (alter_extends g r0 r (heap st) d) as (d1 & Hd1 & Hext1);
        [intros s0; apply extends_setStatusTo|done|];
      destruct (alter_extends f r0 r (alter g r0 (heap st)) d1)
        as (d2 & Hd2 & Hext2);
        [intros s0; simpl; repeat split; try done; by eexists|done|] end.
    exists d2. split; [exact Hd2|]. by apply (extends_trans d d1 d2).
  - rewrite heap_Span_end. apply alter_extends; [|done].
    intros s0. apply extends_Span_end.
  - by rewrite heap_flush, Hd.
  - by rewrite heap_fetchSettled, Hd.
  - simpl. by rewrite Hd.
Qed.

(** No call ever changes the identity of a span: over any sequence of
    calls its reference stays valid and its context (trace id, span id,
    parent span id), name, kind, start time and links stay what they
    were; its events are only appended to and no attribute key is ever
    removed. *)
Theorem span_identity_is_kept (steps : list (Env * SpanOp)) st r d
    (Hspan : getData r st = Some d) :
  exists d',
    getData r (run steps st) = Some d' /\
    context d' = context d /\ name d' = name d /\ kind d' = kind d /\
    startTime d' = startTime d /\ links d' = links d /\
    (exists more, events d' = events d ++ more) /\
    dom (attributes d) ⊆ dom (attributes d').
Proof.
  revert st d Hspan. induction steps as [|[env op] steps IH]; intros st d Hspan.
  { exists d. split; [done|]. apply extends_refl. }
  change (run ((env, op) :: steps) st) with (run steps (exec (env, op) st)).
  destruct (exec_extends env op r st d Hspan) as (d1 & Hd1 & Hext1).
  destruct (IH _ _ Hd1) as (d2 & Hd2 & Hext2).
  exists d2. split; [done|]. by apply (extends_trans d d1 d2).
Qed.

(** The status of a span changes only when it is asked to: [setStatus]
    and [recordException] on the span set it, at any time, also after
    [end()] and also from [error] back to [ok]; [end()] turns [unset]
    into [ok] and keeps [ok] and [error]; every other call, and every
    call on another span, leaves it alone. *)
Theorem status_changes_only_on_request env op st r d
    (Hspan : getData r st = Some d) :
  exists d',
    getData r (exec (env, op) st) = Some d' /\
    (forall s message, op = OpSetStatus r s message -> status d' = statusOf s) /\
    (forall error, op = OpRecordException r error -> status d' = StatusError) /\
    (op = OpEnd r ->
     status d' = match status d with StatusUnset => StatusOk | other => other end) /\
    (~ setsStatusOf r op -> op <> OpEnd r -> status d' = status d).
Proof.
  unfold getData in *.
  destruct (heap st !! r) as [s0|] eqn:Hr; [|done].
  simpl in Hspan. injection Hspan as <-.
  assert (Hlt : (r < length (heap st))%nat) by (by eapply lookup_lt_Some).
  destruct op; cbn [exec].
  - simpl. rewrite lookup_app_l, Hr by done. by eexists.
  - unfold startChild. destruct (heap st !! r0) as [parent|] eqn:Hr0; simpl.
    + rewrite (lookup_alter_span _ r0 r _ s0) by (by rewrite lookup_app_l).
      simpl. eexists. split; [done|]. repeat split; try done.
      by destruct (decide _).
    + rewrite Hr. by eexists.
  - simpl. rewrite (lookup_alter_span _ r0 r _ s0 Hr). simpl.
    eexists. split; [done|]. repeat split; try done.
    destruct (decide _); [|done]. unfold assignAttribute. by repeat case_match.
  - simpl. rewrite (lookup_alter_span _ r0 r _ s0 Hr). simpl.
    eexists. split; [done|]. repeat split; try done.
    destruct (decide _); [|done]. unfold assignAll. by repeat case_match.
  - simpl. rewrite (lookup_alter_span _ r0 r _ s0 Hr). simpl.
    eexists. split; [done|]. repeat split; try done. by destruct (decide _).
  - simpl. rewrite (lookup_alter_span _ r0 r _ s0 Hr). simpl.
    eexists. split; [done|].
    split.
    { intros s1 m0 [= -> -> ->]. destruct (decide (r = r)); [|done]. simpl.
      by destruct (truthy _). }
    repeat split; try done.
    intros Hnot _. simpl in Hnot. by destruct (decide (r0 = r)).
  - unfold recordException, addEvent, setStatusTo, updateSpan. cbn [heap].
    erewrite (lookup_alter_span _ r0 r _ _);
      [|by apply (lookup_alter_span _ r0 r _ s0 Hr)].
    simpl. eexists. split; [done|].
    split; [done|]. split.
    { intros e0 [= -> ->]. destruct (decide (r = r)); [|done]. simpl.
      by destruct (truthy _). }
    split; [done|].
    intros Hnot _. simpl in Hnot. by destruct (decide (r0 = r)).
  - rewrite heap_Span_end, (lookup_alter_span _ r0 r _ s0 Hr). simpl.
    eexists. split; [done|].
    split; [done|]. split; [done|]. split.
    + intros [= ->]. destruct (decide (r = r)); [|done].
      by destruct s0 as [[? ? ? ? ? [] ? ? ?] ? ?].
    + intros _ Hne. destruct (decide (r0 = r)) as [->|]; [done|done].
  - rewrite heap_flush, Hr. by eexists.
  - rewrite heap_fetchSettled, Hr. by eexists.
  - simpl. rewrite Hr. by eexists.
Qed.
End SpanLife.

Lemma span_identity_is_kept_witness :
  let st := snd (startSpan (testEnv 0) "s" None None None enabledTracer) in
  let steps := [(testEnv 1, OpSetStatus 0%nat FinalError (Some "boom"%string));
                (testEnv 2, OpEnd 0%nat);
                (testEnv 3, OpAddEvent 0%nat "late" None)] in
  getData 0%nat st = Some (data (newSpan (testEnv 0) "s" None None None)) /\
  exists d', getData 0%nat (run steps st) = Some d' /\
             context d' = mkContext "id-a" "id-b" None /\ startTime d' = 0.
Proof.
  intros st steps.
  assert (Hspan : getData 0%nat st
                  = Some (data (newSpan (testEnv 0) "s" None None None)))
    by reflexivity.
  split; [exact Hspan|].
  destruct (span_identity_is_kept steps st 0%nat _ Hspan)
    as (d' & Hd' & Hcontext & _ & _ & Hstart & _).
  exists d'. by repeat split.
Defined.

Lemma status_changes_only_on_request_witness :
  let st := setStatus 0%nat FinalError None
              (snd (startSpan (testEnv 0) "s" None None None enabledTracer)) in
  is_Some (getData 0%nat st) /\
  exists d', getData 0%nat (exec (testEnv 5, OpEnd 0%nat) st) = Some d' /\
             status d' = StatusError.
Proof.
  intros st.
  destruct (getData 0%nat st) as [d|] eqn:Hspan; [|vm_compute in Hspan; discriminate].
  split; [by eexists|].
  destruct (status_changes_only_on_request (testEnv 5) (OpEnd 0%nat) st 0%nat d Hspan)
    as (d' & Hd' & _ & _ & Hend & _).
  exists d'. split; [exact Hd'|]. rewrite (Hend eq_refl).
  vm_compute in Hspan. by injection Hspan as <-.
Defined.

(** ** Starting spans and tracing a callback *)

Section Starting.
Implicit Types (st : Store) (r : SpanRef) (env : Env) (d : SpanData).

Lemma newSpan_data env (name : string) (parent : option SpanContext)
    (attrs : option (gmap string JsValue)) (tid : option string) :
  let d := data (newSpan env name parent attrs tid) in
  parentSpanId (context d) = spanId <$> parent /\
  traceId (context d)
    = default (default (id1 env) (traceId <$> parent)) tid /\
  spanId (context d)
    = match tid, parent with None, None => id2 env | _, _ => id1 env end /\
  startTime d = clock env /\ endTime d = None /\ status d = StatusUnset /\
  events d = [] /\ attributes d = default ∅ attrs /\ kind d = KindClient.
Proof. unfold newSpan. by destruct tid, parent. Qed.

(** Where [startSpan] hangs the new span.  An explicit parent context
    wins; without it a non-empty [traceId] makes the span a root of that
    trace even while another span is current; otherwise the span becomes
    a child of the current span, and a root of a new trace when there is
    none.  Whatever the parent, an explicit [traceId] is the span's trace
    id, also when it differs from the parent's and also when it is the
    empty string. *)
Theorem startSpan_parent_rules st env (name : string)
    (attrs : option (gmap string JsValue)) (parentContext : option SpanContext)
    (traceIdOption : option string) :
  let '(r, st1) := startSpan env name attrs parentContext traceIdOption st in
  exists d,
    getData r st1 = Some d /\ r = length (heap st) /\
    startTime d = clock env /\ endTime d = None /\ status d = StatusUnset /\
    events d = [] /\ attributes d = default ∅ attrs /\
    (forall t, traceIdOption = Some t -> traceId (context d) = t) /\
    (forall p, parentContext = Some p ->
       parentSpanId (context d) = Some (spanId p) /\
       (traceIdOption = None -> traceId (context d) = traceId p)) /\
    (parentContext = None ->
     forall t, traceIdOption = Some t -> t <> EmptyString ->
       parentSpanId (context d) = None) /\
    (parentContext = None -> truthyString traceIdOption = None ->
     forall c current, currentSpan st = Some c -> getContext c st = Some current ->
       parentSpanId (context d) = Some (spanId current) /\
       (traceIdOption = None -> traceId (context d) = traceId current)) /\
    (parentContext = None -> traceIdOption = None -> currentSpan st = None ->
     parentSpanId (context d) = None /\
     traceId (context d) = id1 env /\ spanId (context d) = id2 env).
Proof.
  unfold startSpan, allocSpan. simpl.
  set (parent := match parentContext with
                 | Some pc => Some pc
                 | None => match truthyString traceIdOption with
                           | Some _ => None
                           | None => currentSpan st ≫= fun r => getContext r st
                           end
                 end).
  destruct (newSpan_data env name parent attrs traceIdOption)
    as (Hparent & Htrace & Hspan & Hstart & Hend & Hstatus & Hevents & Hattrs & _).
  exists (data (newSpan env name parent attrs traceIdOption)).
  split; [unfold getData; simpl; by rewrite list_lookup_middle|].
  split; [done|]. repeat (split; [done|]).
  rewrite Hparent, Htrace, Hspan. subst parent. clear.
  split; [by intros t ->|].
  split; [intros p ->; split; [done | by intros ->]|].
  split.
  { intros -> t -> Hne. by destruct t. }
  split.
  { intros -> Hfalsy c current Hc Hcontext. rewrite Hfalsy, Hc. simpl.
    rewrite Hcontext. split; [done|]. by intros ->. }
  intros -> -> Hnone. by rewrite Hnone.
Qed.

(** [tracer.trace]: the span is ended whether the callback returns or
    throws; the value it returns and the object it throws are passed on
    as they are.  After a normal return the status is [ok] even if the
    callback had set [error]; after a throw of an object it is [error],
    the last event is the [exception] event with the error's type,
    message and stack, and a truthy message, of whatever type, is stored
    under [error.message].  When the callback throws [undefined] or
    [null], [trace] throws the [TypeError] of reading its [message]
    instead, and neither status nor event is written: the span ends with
    the status the callback left, [ok] when it left none.  In every case
    the span is recorded if sampled and taken off the stack. *)
Theorem trace_always_ends_span {A : Type} st (envStart envCatch envEnd : Env)
    (name : string) (fn : SpanRef -> Store -> FnOutcome A * Store)
    (attrs : option (gmap string JsValue)) (parentContext : option SpanContext)
    (traceIdOption : option string)
    (Hfn : forall r st0,
       (length (heap st0) <= length (heap (snd (fn r st0))))%nat) :
  let started := startSpan envStart name attrs parentContext traceIdOption st in
  let called := fn (fst started) (snd started) in
  let '(outcome, st') := trace envStart envCatch envEnd name fn attrs parentContext
                           traceIdOption st in
  outcome = match fst called with
            | FnThrowsNullish v => FnThrows (typeErrorReading v "message")
            | other => other
            end /\
  spanStack st' = removeLast (fst started) (spanStack (snd called)) /\
  spans st' = spans (snd called)
              ++ (if shouldSample (config (snd called)) envEnd
                  then [fst started] else []) /\
  exists d before,
    getData (fst started) (snd called) = Some before /\
    getData (fst started) st' = Some d /\
    endTime d = Some (clock envEnd) /\
    match fst called with
    | FnReturns _ => status d = StatusOk
    | FnThrows error =>
        status d = StatusError /\
        last (events d)
          = Some (mkEvent "exception" (clock envCatch)
                    (Some (<["exception.type"%string := JsString (err_name error)]>
                           (<["exception.message"%string := err_message error]>
                            (<["exception.stacktrace"%string :=
                                 from_option JsString JsUndefined (err_stack error)]>
                               ∅))))) /\
        (truthy (err_message error) = true ->
         attributes d !! "error.message"%string = Some (err_message error)) /\
        (truthy (err_message error) = false -> attributes d = attributes before)
    | FnThrowsNullish _ =>
        status d = match status before with
                   | StatusUnset => StatusOk
                   | other => other
                   end /\
        events d = events before /\
        attributes d = attributes before
    end.
Proof.
  intros started called. subst called started. unfold trace.
  destruct (startSpan envStart name attrs parentContext traceIdOption st)
    as [r st1] eqn:Hstart.
  cbn [fst snd]. destruct (fn r st1) as [outcome st2] eqn:Hcall. cbn [fst snd].
  assert (Hr : (r < length (heap st2))%nat).
  { pose proof (Hfn r st1) as Hgrow. rewrite Hcall in Hgrow.
    simpl in Hgrow. unfold startSpan, allocSpan in Hstart. simpl in Hstart.
    injection Hstart as <- <-. simpl in Hgrow. rewrite length_app in Hgrow.
    simpl in Hgrow. lia. }
  destruct (lookup_lt_is_Some_2 _ _ Hr) as [s2 Hs2].
  set (st3 := match outcome with
              | FnReturns _ => setStatus r FinalOk None st2
              | FnThrows error => recordException envCatch r error st2
              | FnThrowsNullish _ => st2
              end).
  assert (Hshape :
    (let '(outcome', st3') :=
       match outcome with
       | FnReturns _ => (outcome, setStatus r FinalOk None st2)
       | FnThrows error => (outcome, recordException envCatch r error st2)
       | FnThrowsNullish v => (FnThrows (typeErrorReading v "message"), st2)
       end in
     (outcome', Span_end envEnd r st3'))
    = (match outcome with
       | FnThrowsNullish v => FnThrows (typeErrorReading v "message")
       | other => other
       end, Span_end envEnd r st3)) by (by destruct outcome).
  rewrite Hshape. clear Hshape. lazy beta iota.
  split; [by destruct outcome|].
  assert (Hfields : config st3 = config st2 /\ spans st3 = spans st2 /\
                    spanStack st3 = spanStack st2)
    by (subst st3; by destruct outcome).
  destruct Hfields as (Hconfig & Hspans & Hstack).
  split; [by rewrite spanStack_Span_end, Hstack|].
  split.
  { rewrite spans_Span_end, Hconfig, Hspans.
    destruct (shouldSample (config st2) envEnd); [done | by rewrite app_nil_r]. }
  unfold getData. rewrite Hs2, heap_Span_end. subst st3.
  destruct outcome as [value|error|v].
  - unfold setStatus, setStatusTo, updateSpan. cbn [heap].
    erewrite (lookup_alter_span _ r r _ _);
      [|by apply (lookup_alter_span _ r r _ s2 Hs2)].
    destruct (decide (r = r)); [|done]. simpl.
    eexists _, _. split; [done|]. split; [done|]. by split.
  - unfold recordException, addEvent, setStatusTo, updateSpan. cbn [heap].
    erewrite (lookup_alter_span _ r r _ _);
      [|erewrite (lookup_alter_span _ r r _ _);
         [reflexivity|by apply (lookup_alter_span _ r r _ s2 Hs2)]].
    destruct (decide (r = r)); [|done]. simpl.
    eexists _, _. split; [done|]. split; [done|].
    destruct (truthy (err_message error)) eqn:Hmessage; simpl.
    + split; [done|]. split; [done|]. split; [apply last_snoc|].
      split; [|done]. intros _. by rewrite lookup_insert_eq.
    + split; [done|]. split; [done|]. split; [apply last_snoc|]. by split.
  - rewrite (lookup_alter_span _ r r _ s2 Hs2).
    destruct (decide (r = r)); [|done]. simpl.
    eexists _, _. split; [done|]. split; [done|].
    by destruct s2 as [[? ? ? ? ? [] ? ? ?] ? ?].
Qed.
End Starting.

Lemma startSpan_parent_rules_witness :
  let st := snd (startSpan (testEnv 0) "current" None None None enabledTracer) in
  exists r st1 d,
    startSpan (testEnv 1) "scoped" None None (Some "trace-x"%string) st = (r, st1) /\
    getData r st1 = Some d /\
    currentSpan st = Some 0%nat /\
    parentSpanId (context d) = None /\ traceId (context d) = "trace-x"%string.
Proof.
  intros st.
  pose proof (startSpan_parent_rules st (testEnv 1) "scoped" None None
                (Some "trace-x"%string)) as Hrules.
  destruct (startSpan (testEnv 1) "scoped" None None (Some "trace-x"%string) st)
    as [r st1] eqn:Hstart.
  destruct Hrules as (d & Hd & _ & _ & _ & _ & _ & _ & Htrace & _ & Hroot & _).
  exists r, st1, d. split; [done|]. split; [exact Hd|]. split; [reflexivity|].
  split; [by apply (Hroot eq_refl "trace-x"%string) | by apply Htrace].
Defined.

Lemma trace_always_ends_span_witness :
  (forall r st0,
     (length (heap st0) <= length (heap (snd (failingCallback r st0))))%nat) /\
  exists st' d,
    trace (testEnv 0) (testEnv 4) (testEnv 5) "op" failingCallback None None None
          enabledTracer = (FnThrows networkError, st') /\
    getData 0%nat st' = Some d /\
    endTime d = Some 5 /\ status d = StatusError.
Proof.
  assert (Hfn : forall r st0,
     (length (heap st0) <= length (heap (snd (failingCallback r st0))))%nat).
  { intros r st0. simpl. by rewrite length_alter. }
  split; [exact Hfn|].
  pose proof (trace_always_ends_span enabledTracer (testEnv 0) (testEnv 4) (testEnv 5)
                "op" failingCallback None None None Hfn) as Htrace.
  destruct (trace (testEnv 0) (testEnv 4) (testEnv 5) "op" failingCallback None None
              None enabledTracer) as [outcome st'] eqn:Hrun.
  simpl in Htrace.
  destruct Htrace as (-> & _ & _ & d & before & _ & Hd & Hend & Hstatus & _).
  by exists st', d.
Defined.

(** A callback that throws [undefined]: [trace] throws the [TypeError],
    and the span, on which nothing was recorded, ends as [ok]. *)
Example trace_of_nullish_throw :
  let '(outcome, st') :=
    @trace unit (testEnv 0) (testEnv 4) (testEnv 5) "op"
      (fun _ st0 => (FnThrowsNullish NullishUndefined, st0)) None None None
      enabledTracer in
  outcome = FnThrows (typeErrorReading NullishUndefined "message") /\
  (status <$> getData 0%nat st') = Some StatusOk /\
  (events <$> getData 0%nat st') = Some [].
Proof. by vm_compute. Qed.

(** ** Durations *)

Section Durations.
Implicit Types (st : Store) (r : SpanRef) (env : Env) (d : SpanData).

Lemma run_timesOrdered_last (steps : list (Env * SpanOp)) :
  forall t st,
    clockOrdered t steps ->
    Forall (timesOrdered t) (heap st) ->
    Forall (timesOrdered (lastClock t steps)) (heap (run steps st)).
Proof.
  induction steps as [|[env op] steps IH]; intros t st Hclock Hall; [done|].
  destruct Hclock as [Hle Hrest].
  change (run ((env, op) :: steps) st) with (run steps (exec (env, op) st)).
  change (lastClock t ((env, op) :: steps)) with (lastClock (clock env) steps).
  apply IH; [done|]. by apply (exec_timesOrdered t).
Qed.

(** While the clock does not go back, [getDuration] is never negative;
    for a span that has ended it is [endTime - startTime], whenever it is
    asked, and for an open span it is the time since its start. *)
Theorem duration_is_not_negative (cfg : TracingConfig) (t0 : Z)
    (steps : list (Env * SpanOp)) env r d
    (Hclock : clockOrdered t0 steps)
    (Hlater : lastClock t0 steps <= clock env)
    (Hspan : getData r (run steps (newTracer cfg)) = Some d) :
  exists duration,
    getDuration env r (run steps (newTracer cfg)) = Some duration /\
    0 <= duration /\
    (forall e, endTime d = Some e -> duration = e - startTime d) /\
    (endTime d = None -> duration = clock env - startTime d).
Proof.
  pose proof (run_timesOrdered_last steps t0 (newTracer cfg) Hclock) as Hall.
  assert (Hall' : Forall (timesOrdered (lastClock t0 steps))
                         (heap (run steps (newTracer cfg))))
    by (apply Hall; constructor).
  clear Hall. rename Hall' into Hall.
  unfold getDuration. rewrite Hspan. simpl. eexists. split; [done|].
  unfold getData in Hspan.
  destruct (heap (run steps (newTracer cfg)) !! r) as [s0|] eqn:Hr; [|done].
  injection Hspan as <-.
  destruct (Forall_lookup_1 _ _ _ _ Hall Hr) as [Hstart Hend].
  destruct (endTime (data s0)) as [e|] eqn:He; simpl.
  - specialize (Hend e eq_refl). split; [lia|]. split; [by intros ? [= <-] | done].
  - split; [lia|]. by split.
Qed.
End Durations.

Lemma duration_is_not_negative_witness :
  let steps := [(testEnv 0, OpStartSpan "s" None None None);
                (testEnv 5, OpEnd 0%nat)] in
  clockOrdered 0 steps /\ lastClock 0 steps <= clock (testEnv 9) /\
  exists d duration,
    getData 0%nat (run steps enabledTracer) = Some d /\
    getDuration (testEnv 9) 0%nat (run steps enabledTracer) = Some duration /\
    0 <= duration.
Proof.
  intros steps.
  assert (Hclock : clockOrdered 0 steps) by (simpl; lia).
  assert (Hlater : lastClock 0 steps <= clock (testEnv 9)) by (vm_compute; discriminate).
  split; [exact Hclock|]. split; [exact Hlater|].
  destruct (getData 0%nat (run steps enabledTracer)) as [d|] eqn:Hspan;
    [|vm_compute in Hspan; discriminate].
  destruct (duration_is_not_negative (mkTracingConfig true None None None) 0 steps
              (testEnv 9) 0%nat d Hclock Hlater Hspan)
    as (duration & Hduration & Hpos & _).
  by exists d, duration.
Defined.

(** ** Usage statistics *)

Lemma roundToDouble_safe (z : Z) :
  Z.abs z <= MAX_SAFE_INTEGER -> roundToDouble z = z.
Proof.
  unfold MAX_SAFE_INTEGER. intros Hz. unfold roundToDouble.
  destruct (Z.leb_spec (Z.log2 (Z.abs z) + 1) 53) as [|Hbits]; [reflexivity|].
  exfalso. destruct (Z.eq_dec (Z.abs z) 0) as [H0|Hne].
  - rewrite H0 in Hbits. simpl in Hbits. lia.
  - assert (Z.log2 (Z.abs z) < 53); [|lia].
    apply Z.log2_lt_pow2; lia.
Qed.

Lemma jsAdd_safe (a b : Z) :
  0 <= a -> 0 <= b -> a + b <= MAX_SAFE_INTEGER -> jsAdd a b = a + b.
Proof. intros Ha Hb Hsum. apply roundToDouble_safe. lia. Qed.

(** Above [MAX_SAFE_INTEGER] a sum is rounded: the next double after
    [2^53] is [2^53 + 2]. *)
Example jsAdd_rounds :
  jsAdd (2 ^ 53) 1 = 2 ^ 53 /\ jsAdd (2 ^ 53) 2 = 2 ^ 53 + 2 /\
  jsAdd (2 ^ 53 + 2) 1 = 2 ^ 53 + 4.
Proof. by vm_compute. Qed.

Section Stats.
Implicit Types (stats : OrchestraStats) (meta : CompletionMeta)
  (metas : list CompletionMeta).

Local Abbreviation tokensIn := (fun meta => inputTokens (meta_tokens meta)).
Local Abbreviation tokensOut := (fun meta => outputTokens (meta_tokens meta)).

Lemma sumOf_snoc (f : CompletionMeta -> Z) metas meta :
  sumOf f (metas ++ [meta]) = sumOf f metas + f meta.
Proof. induction metas as [|m metas IH]; simpl; [lia|]. rewrite IH. lia. Qed.

Lemma sumOf_filter (f : CompletionMeta -> Z) (keep : CompletionMeta -> bool) metas :
  Forall (fun meta => 0 <= f meta) metas ->
  0 <= sumOf f (List.filter keep metas) <= sumOf f metas.
Proof.
  induction 1 as [|meta metas Hmeta _ IH]; simpl; [lia|].
  destruct (keep meta); simpl; lia.
Qed.

Lemma sumOf_nonnegative (f : CompletionMeta -> Z) metas :
  Forall (fun meta => 0 <= f meta) metas -> 0 <= sumOf f metas.
Proof. induction 1 as [|meta metas Hmeta _ IH]; simpl; lia. Qed.

Lemma countersOf_snoc metas meta :
  countersOf (metas ++ [meta])
  = Some (Z.of_nat (length metas) + 1,
          sumOf tokensIn metas + tokensIn meta,
          sumOf tokensOut metas + tokensOut meta).
Proof.
  assert (Hsome : countersOf (metas ++ [meta])
                  = Some (Z.of_nat (length (metas ++ [meta])),
                          sumOf tokensIn (metas ++ [meta]),
                          sumOf tokensOut (metas ++ [meta])))
    by (by destruct metas).
  rewrite Hsome, !sumOf_snoc, length_app. simpl. do 3 f_equal. lia.
Qed.

(** The statistics agree with the completions [metas] counted so far. *)
Local Abbreviation agrees stats metas :=
  (stats_totalRequests stats = Z.of_nat (length metas) /\
   stats_tokensInput stats = sumOf tokensIn metas /\
   stats_tokensOutput stats = sumOf tokensOut metas /\
   (forall provider,
      providerCounters stats provider = countersOf (byProviderOf provider metas)) /\
   (forall model,
      modelCounters stats model = countersOf (byModelOf model metas))).

Lemma counters_default (counters : option (Z * Z * Z)) metas :
  counters = countersOf metas ->
  default (0, 0, 0) counters
  = (Z.of_nat (length metas), sumOf tokensIn metas, sumOf tokensOut metas).
Proof. intros ->. by destruct metas. Qed.

(** The counters of some of the completions, one more counted: no sum
    is rounded while the totals are safe. *)
Lemma counters_step (keep : CompletionMeta -> bool) metas meta :
  safeTotals (metas ++ [meta]) ->
  let kept := List.filter keep metas in
  jsAdd (Z.of_nat (length kept)) 1 = Z.of_nat (length kept) + 1 /\
  jsAdd (sumOf tokensIn kept) (tokensIn meta) = sumOf tokensIn kept + tokensIn meta /\
  jsAdd (sumOf tokensOut kept) (tokensOut meta)
    = sumOf tokensOut kept + tokensOut meta.
Proof.
  intros (Hcounts & Hlen & Hin & Hout) kept.
  apply Forall_app in Hcounts as [Hmetas Hmeta].
  apply (proj1 (Forall_singleton _ _)) in Hmeta. destruct Hmeta as [Hmi Hmo].
  rewrite length_app in Hlen. rewrite sumOf_snoc in Hin, Hout. simpl in Hlen.
  pose proof (List.filter_length_le keep metas) as Hkept. fold kept in Hkept.
  assert (Hi : 0 <= sumOf tokensIn kept <= sumOf tokensIn metas).
  { apply sumOf_filter. eapply Forall_impl; [exact Hmetas|]. by intros m [? ?]. }
  assert (Ho : 0 <= sumOf tokensOut kept <= sumOf tokensOut metas).
  { apply sumOf_filter. eapply Forall_impl; [exact Hmetas|]. by intros m [? ?]. }
  split; [apply jsAdd_safe; lia|]. split; apply jsAdd_safe; lia.
Qed.

Lemma filter_all {A} (l : list A) : List.filter (fun _ => true) l = l.
Proof. induction l as [|x l IH]; simpl; [done|]. by rewrite IH. Qed.

Lemma updateStats_agrees stats metas meta :
  safeTotals (metas ++ [meta]) ->
  agrees stats metas -> agrees (updateStats meta stats) (metas ++ [meta]).
Proof.
  intros Hsafe (Htotal & Hin & Hout & Hprovider & Hmodel).
  pose proof (counters_step (fun _ => true) metas meta Hsafe) as Hall.
  simpl in Hall. rewrite filter_all in Hall. destruct Hall as (Ha1 & Ha2 & Ha3).
  rewrite length_app, !sumOf_snoc. simpl.
  rewrite Htotal, Hin, Hout, Ha1, Ha2, Ha3.
  split; [lia|]. split; [done|]. split; [done|]. split.
  - intros provider. unfold providerCounters, byProviderOf in *. simpl.
    rewrite List.filter_app. simpl.
    destruct (decide (meta_provider meta = provider)) as [<-|Hne].
    + rewrite lookup_insert_eq, bool_decide_eq_true_2 by done. simpl.
      rewrite countersOf_snoc.
      pose proof (counters_default _ _ (Hprovider (meta_provider meta))) as Hold.
      pose proof (counters_step
                    (fun m => bool_decide (meta_provider m = meta_provider meta))
                    metas meta Hsafe) as Hstep.
      simpl in Hstep. destruct Hstep as (Hs1 & Hs2 & Hs3).
      destruct (stats_byProvider stats !! meta_provider meta) as [ps|];
        simpl in Hold; cbn [default fmap option_fmap option_map
          ps_requests ps_tokensInput ps_tokensOutput]; unfold id; injection Hold as H1 H2 H3;
        rewrite <- H1 in Hs1 |- *; rewrite <- H2 in Hs2 |- *;
        rewrite <- H3 in Hs3 |- *; by rewrite Hs1, Hs2, Hs3.
    + rewrite lookup_insert_ne, bool_decide_eq_false_2, app_nil_r by done.
      apply Hprovider.
  - intros model. unfold modelCounters, byModelOf in *. simpl.
    rewrite List.filter_app. simpl.
    destruct (decide (meta_model meta = model)) as [<-|Hne].
    + rewrite lookup_insert_eq, bool_decide_eq_true_2 by done. simpl.
      rewrite countersOf_snoc.
      pose proof (counters_default _ _ (Hmodel (meta_model meta))) as Hold.
      pose proof (counters_step
                    (fun m => bool_decide (meta_model m = meta_model meta))
                    metas meta Hsafe) as Hstep.
      simpl in Hstep. destruct Hstep as (Hs1 & Hs2 & Hs3).
      destruct (stats_byModel stats !! meta_model meta) as [ms|];
        simpl in Hold; cbn [default fmap option_fmap option_map
          ms_requests ms_tokensInput ms_tokensOutput]; unfold id; injection Hold as H1 H2 H3;
        rewrite <- H1 in Hs1 |- *; rewrite <- H2 in Hs2 |- *;
        rewrite <- H3 in Hs3 |- *; by rewrite Hs1, Hs2, Hs3.
    + rewrite lookup_insert_ne, bool_decide_eq_false_2, app_nil_r by done.
      apply Hmodel.
Qed.

Lemma safeTotals_earlier metas later :
  safeTotals (metas ++ later) -> safeTotals metas.
Proof.
  intros (Hcounts & Hlen & Hin & Hout).
  apply Forall_app in Hcounts as [Hmetas Hlater].
  assert (Hsum : forall f : CompletionMeta -> Z,
            Forall (fun meta => 0 <= f meta) later ->
            sumOf f (metas ++ later) = sumOf f metas + sumOf f later /\
            0 <= sumOf f later).
  { intros f Hf. split; [|by apply sumOf_nonnegative].
    clear. induction metas as [|m metas IH]; simpl; [done|]. rewrite IH. lia. }
  destruct (Hsum tokensIn) as [Hi1 Hi2].
  { eapply Forall_impl; [exact Hlater|]. by intros m [? ?]. }
  destruct (Hsum tokensOut) as [Ho1 Ho2].
  { eapply Forall_impl; [exact Hlater|]. by intros m [? ?]. }
  rewrite length_app in Hlen.
  split; [done|]. split; [lia|]. split; lia.
Qed.

(** The counters of [updateStats] are exact as long as they are safe
    integers: after any completions with non-negative token counts whose
    number and token totals do not exceed [Number.MAX_SAFE_INTEGER] (and
    whose model names are not inherited property names), the total of
    requests is their number and the token totals are their sums; a
    provider or a model has an entry exactly when a completion named it,
    and the entry holds the number and the token sums of those
    completions. *)
Theorem stats_count_every_completion metas
    (Hown : Forall (fun meta => ownName (meta_model meta)) metas)
    (Hsafe : safeTotals metas) :
  let stats := statsAfter metas in
  stats_totalRequests stats = Z.of_nat (length metas) /\
  stats_tokensInput stats = sumOf (fun meta => inputTokens (meta_tokens meta)) metas /\
  stats_tokensOutput stats = sumOf (fun meta => outputTokens (meta_tokens meta)) metas /\
  (forall provider,
     providerCounters stats provider = countersOf (byProviderOf provider metas)) /\
  (forall model,
     modelCounters stats model = countersOf (byModelOf model metas)) /\
  (forall provider,
     stats_byProvider stats !! provider = None <->
     Forall (fun meta => meta_provider meta <> provider) metas).
Proof.
  assert (Hgen : forall later stats earlier,
    safeTotals (earlier ++ later) ->
    agrees stats earlier ->
    agrees (fold_left (fun stats meta => updateStats meta stats) later stats)
           (earlier ++ later)).
  { induction later as [|meta later IH]; intros stats earlier Hbound Hagrees.
    - by rewrite app_nil_r.
    - simpl. replace (earlier ++ meta :: later) with ((earlier ++ [meta]) ++ later)
        in * by (by rewrite <- app_assoc).
      apply IH; [done|]. apply updateStats_agrees; [|done].
      by apply (safeTotals_earlier _ later). }
  intros stats. subst stats. unfold statsAfter.
  destruct (Hgen metas initStats []) as (H1 & H2 & H3 & H4 & H5); [done|done|].
  change ([] ++ metas) with metas in *.
  set (stats := fold_left (fun stats meta => updateStats meta stats) metas initStats)
    in *.
  repeat (split; [done|]).
  intros provider. specialize (H4 provider). unfold providerCounters in H4.
  unfold byProviderOf in H4. split.
  - intros Hnone. rewrite Hnone in H4. simpl in H4.
    apply Forall_forall. intros meta Hin Heq.
    assert (Hfiltered : In meta (List.filter
              (fun meta => bool_decide (meta_provider meta = provider)) metas)).
    { apply List.filter_In. split; [by apply list_elem_of_In|].
      by apply bool_decide_eq_true_2. }
    destruct (List.filter _ metas); [done | discriminate].
  - intros Hall.
    assert (Hfilter : forall l,
              Forall (fun meta => meta_provider meta <> provider) l ->
              List.filter (fun meta => bool_decide (meta_provider meta = provider)) l
              = []).
    { intros l Hl. induction Hl as [|meta l Hne _ IH]; [done|]. simpl.
      rewrite bool_decide_eq_false_2 by done. exact IH. }
    rewrite (Hfilter metas Hall) in H4. simpl in H4.
    by destruct (stats_byProvider stats !! provider).
Qed.
End Stats.

Lemma getProviderForModel_by_prefix_witness :
  ownName "gpt-5-preview" /\
  getProviderForModel "gpt-5-preview" = prefixRule "gpt-5-preview".
Proof.
  assert (Hown : ownName "gpt-5-preview").
  { intros Hin. simpl in Hin. repeat (destruct Hin as [Hin|Hin]; [discriminate|]).
    exact Hin. }
  split; [exact Hown|].
  destruct (getProviderForModel_by_prefix "gpt-5-preview" Hown) as [Hsame _].
  exact Hsame.
Defined.

Lemma buildModelChain_resolvable_in_order_witness :
  Forall ownName (req_model unknownModels :: default [] (req_fallback unknownModels)) /\
  map entry_model (buildModelChain unknownModels)
    = List.filter resolvable
        (req_model unknownModels :: default [] (req_fallback unknownModels)).
Proof.
  assert (Hown : Forall ownName
            (req_model unknownModels :: default [] (req_fallback unknownModels))).
  { repeat constructor; intros Hin; simpl in Hin;
      repeat (destruct Hin as [Hin|Hin]; [discriminate|]); exact Hin. }
  split; [exact Hown|].
  destruct (buildModelChain_resolvable_in_order unknownModels Hown) as [Hchain _].
  exact Hchain.
Defined.

Lemma stats_count_every_completion_witness :
  let metas := [resp_meta (sampleResponse anthropic);
                resp_meta (sampleResponse openai);
                resp_meta (sampleResponse anthropic)] in
  Forall (fun meta => ownName (meta_model meta)) metas /\
  safeTotals metas /\
  stats_totalRequests (statsAfter metas) = 3 /\
  providerCounters (statsAfter metas) anthropic = Some (2, 20, 40).
Proof.
  intros metas.
  assert (Hown : Forall (fun meta => ownName (meta_model meta)) metas).
  { repeat constructor; intros Hin; simpl in Hin;
      repeat (destruct Hin as [Hin|Hin]; [discriminate|]); exact Hin. }
  assert (Hsafe : safeTotals metas).
  { split; [repeat constructor; by vm_compute|].
    split; [by vm_compute|]. split; by vm_compute. }
  split; [exact Hown|]. split; [exact Hsafe|].
  destruct (stats_count_every_completion metas Hown Hsafe)
    as (Htotal & _ & _ & Hprov & _).
  split; [exact Htotal|]. by rewrite Hprov.
Defined.

(** ** Tokens that match everything *)

(** The empty string is a substring of every string, so a configuration
    that lists it retries every error; and an error that carries no
    code, no status and no message string is retryable under no other
    configuration. *)
Theorem empty_token_retries_everything (cfg : RetryConfig) (error : JsError)
    (Hblank : errorCode error = EmptyString /\ errorStatus error = EmptyString /\
              errorMessage error = EmptyString) :
  (In EmptyString (retryableErrors cfg) ->
   forall other, isRetryable cfg other = true) /\
  (isRetryable cfg error = true <-> In EmptyString (retryableErrors cfg)).
Proof.
  destruct Hblank as (Hcode & Hstatus & Hmessage).
  assert (Hany : forall s, Substring EmptyString s)
    by (intros s; by exists EmptyString, s).
  split.
  - intros Hin other. apply isRetryable_Substring.
    exists EmptyString. split; [done|]. left. apply Hany.
  - rewrite isRetryable_Substring, Hcode, Hstatus, Hmessage. split.
    + intros (code & Hin & Hsub).
      assert (Hempty : code = EmptyString).
      { assert (Hs : Substring code EmptyString) by tauto.
        destruct Hs as ([|c pre] & post & Heq); [|discriminate].
        rewrite append_nil in Heq. by destruct code. }
      by rewrite <- Hempty.
    + intros Hin. exists EmptyString. split; [done|]. left. apply Hany.
Qed.

Lemma empty_token_retries_everything_witness :
  let cfg := mkRetry 3 10 50 2 [EmptyString] in
  let blank := mkError "Error" JsUndefined JsUndefined JsUndefined JsUndefined None in
  (errorCode blank = EmptyString /\ errorStatus blank = EmptyString /\
   errorMessage blank = EmptyString) /\
  isRetryable cfg badRequestError = true.
Proof.
  intros cfg blank.
  assert (Hblank : errorCode blank = EmptyString /\ errorStatus blank = EmptyString /\
                   errorMessage blank = EmptyString) by (by repeat split).
  split; [exact Hblank|].
  destruct (empty_token_retries_everything cfg blank Hblank) as [Hall _].
  apply Hall. simpl. tauto.
Defined.
